(** * ParallelIO: the decomposition registry and the initialisation calls of
      [src/clib/pioc.c], as a shallow embedding; with them the calls of the
      same file that set error handlers, free an iosystem, answer inquiries
      and move the record number of a variable.

    The C functions are translated as state-passing functions over an
    explicit library state (the globals of pioc.c, the registries of
    iosystems and decompositions, and the PIO_Offset arrays that are handed
    around by pointer).  Everything pioc.c calls but does not define (MPI,
    libc, the rearrangers, the list module) is a field of the environment
    record [Env] or a definition marked "Modelled from the spec".

    Conventions.
    - [int] and [PIO_Offset] values are integers of [Z].  Where pioc.c
      multiplies or adds ints that come from the caller (the input check
      and the rank formula of PIOc_Init_Intracomm, maplen in
      PIOc_InitDecomp_bc, the record number in PIOc_advanceframe) the
      result is brought back into the 32-bit range with [wrap_int], as the
      two's-complement builds of the library compute it; the C standard
      leaves a signed overflow undefined, and the theorems that depend on
      such a result say in their hypotheses that it is in range.  The
      decomposition-id counter starts at 512 and moves by one per call, and
      the PIO_Offset (64-bit) products of PIOc_InitDecomp_bc are bounded by
      the size of the global array; both are written in [Z].
    - A pair (pointer, length) such as (compmap, maplen) or (gdimlen, ndims)
      is a list whose length is the length argument; a pointer that may be
      NULL is an [option].
    - An [int *] that only receives a result (ioidp, old_method, active,
      iosysidp) is a [bool] saying whether the pointer is non-NULL, and the
      value stored through it is part of the result. *)

From Stdlib Require Import ZArith Lia Sorted Permutation.
From stdpp Require Import gmap list.

Local Open Scope Z_scope.

(** ** The range of [int] and of [PIO_Offset] *)

Definition INT_MIN : Z := -2147483648.
Definition INT_MAX : Z := 2147483647.
Definition PIO_OFFSET_MAX : Z := 9223372036854775807.

(** The value that a 32-bit two's-complement [int] holds when it is given
    the integer [z]: [z] itself when it is in range, [z] modulo 2^32
    otherwise. *)
Definition wrap_int (z : Z) : Z :=
  (z + 2147483648) mod 4294967296 - 2147483648.

Definition in_int (z : Z) : Prop := INT_MIN <= z <= INT_MAX.

(** ** Constants of pio.h *)

Definition PIO_DEFAULT : Z := -1.

Definition PIO_REARR_BOX : Z := 1.
Definition PIO_REARR_SUBSET : Z := 2.

Definition PIO_INTERNAL_ERROR : Z := -51.
Definition PIO_BCAST_ERROR : Z := -52.
Definition PIO_RETURN_ERROR : Z := -53.

(** pio.h defines these four as the netCDF codes NC_NOERR, NC_EBADID,
    NC_EINVAL and NC_ENOMEM; the values are those of netcdf.h. *)
Definition PIO_NOERR : Z := 0.
Definition PIO_EBADID : Z := -33.
Definition PIO_EINVAL : Z := -36.
Definition PIO_ENOMEM : Z := -61.
Definition PIO_EBADREARR : Z := -502.

Definition PIO_REARR_COMM_COLL : Z := 1.
Definition PIO_REARR_COMM_FC_2D_DISABLE : Z := 3.

Definition MPI_SUCCESS : Z := 0.

(** ** Data *)

Inductive MPI_Comm : Type :=
| MPI_COMM_NULL
| MPI_Comm_handle (h : Z).

Definition MPI_Comm_is_null (c : MPI_Comm) : bool :=
  match c with MPI_COMM_NULL => true | MPI_Comm_handle _ => false end.

(** The fields of [iosystem_desc_t] (pio.h) that pioc.c reads or writes in
    the functions below. *)
Record iosystem_desc_t : Type := {
  union_comm : MPI_Comm;
  io_comm : MPI_Comm;
  comp_comm : MPI_Comm;
  intercomm : MPI_Comm;
  my_comm : MPI_Comm;
  num_iotasks : Z;
  num_comptasks : Z;
  num_uniontasks : Z;
  union_rank : Z;
  comp_rank : Z;
  io_rank : Z;
  iomaster : Z;
  compmaster : Z;
  ioroot : Z;
  comproot : Z;
  ioranks : list Z;
  compranks : list Z;
  error_handler : Z;
  default_rearranger : Z;
  async : bool;
  ioproc : bool;
  compproc : bool;
  rearr_comm_type : Z;
  rearr_fcd : Z
}.

(** [struct sort_map] of pioc.c. *)
Record sort_map : Type := { sm_remap : Z; sm_map : Z }.

(** The part of [io_desc_t] that a rearranger fills in. *)
Record rearr_plan : Type := {
  ndof : Z;
  nrecvs : Z;
  llen : Z;
  needsfill : bool;
  maxregions : Z
}.

(** [io_desc_t] (pio.h).  [map] and [remap] are owned by the descriptor and
    kept by value; [remap = None] is the NULL pointer. *)
Record io_desc_t : Type := {
  ioid : Z;
  maplen : Z;
  map : list Z;
  remap : option (list Z);
  ndims : Z;
  dimlen : list Z;
  num_aiotasks : Z;
  rearranger : Z;
  needssort : bool;
  readonly : bool;
  piotype : Z;
  maxiobuflen : Z;
  firstregion_start : list Z;
  firstregion_count : list Z;
  plan : rearr_plan
}.

(** Memory blocks holding PIO_Offset arrays: the caller's arrays and the
    temporaries whose address leaves pioc.c. *)
Definition block : Type := positive.

(** The process-wide state: the two globals defined in pioc.c, the two
    registries, and the PIO_Offset arrays. *)
Record pio_state : Type := {
  default_error_handler : Z;
  pio_next_ioid : Z;
  pio_iosystem_list : gmap Z iosystem_desc_t;
  pio_iodesc_list : gmap Z io_desc_t;
  mem : gmap block (list Z)
}.

(** pioc.c, lines 70 and 77: the initial values of the globals. *)
Definition initial_state : pio_state :=
  {| default_error_handler := PIO_INTERNAL_ERROR;
     pio_next_ioid := 512;
     pio_iosystem_list := ∅;
     pio_iodesc_list := ∅;
     mem := ∅ |}.

Definition set_default_error_handler (h : Z) (st : pio_state) : pio_state :=
  {| default_error_handler := h;
     pio_next_ioid := pio_next_ioid st;
     pio_iosystem_list := pio_iosystem_list st;
     pio_iodesc_list := pio_iodesc_list st;
     mem := mem st |}.

Definition set_pio_next_ioid (n : Z) (st : pio_state) : pio_state :=
  {| default_error_handler := default_error_handler st;
     pio_next_ioid := n;
     pio_iosystem_list := pio_iosystem_list st;
     pio_iodesc_list := pio_iodesc_list st;
     mem := mem st |}.

Definition set_iosystem_list (l : gmap Z iosystem_desc_t) (st : pio_state)
  : pio_state :=
  {| default_error_handler := default_error_handler st;
     pio_next_ioid := pio_next_ioid st;
     pio_iosystem_list := l;
     pio_iodesc_list := pio_iodesc_list st;
     mem := mem st |}.

Definition set_iodesc_list (l : gmap Z io_desc_t) (st : pio_state)
  : pio_state :=
  {| default_error_handler := default_error_handler st;
     pio_next_ioid := pio_next_ioid st;
     pio_iosystem_list := pio_iosystem_list st;
     pio_iodesc_list := l;
     mem := mem st |}.

Definition set_mem (m : gmap block (list Z)) (st : pio_state) : pio_state :=
  {| default_error_handler := default_error_handler st;
     pio_next_ioid := pio_next_ioid st;
     pio_iosystem_list := pio_iosystem_list st;
     pio_iodesc_list := pio_iodesc_list st;
     mem := m |}.

Definition set_error_handler (h : Z) (ios : iosystem_desc_t)
  : iosystem_desc_t :=
  {| union_comm := union_comm ios; io_comm := io_comm ios;
     comp_comm := comp_comm ios; intercomm := intercomm ios;
     my_comm := my_comm ios; num_iotasks := num_iotasks ios;
     num_comptasks := num_comptasks ios;
     num_uniontasks := num_uniontasks ios;
     union_rank := union_rank ios; comp_rank := comp_rank ios;
     io_rank := io_rank ios; iomaster := iomaster ios;
     compmaster := compmaster ios; ioroot := ioroot ios;
     comproot := comproot ios; ioranks := ioranks ios;
     compranks := compranks ios; error_handler := h;
     default_rearranger := default_rearranger ios; async := async ios;
     ioproc := ioproc ios; compproc := compproc ios;
     rearr_comm_type := rearr_comm_type ios; rearr_fcd := rearr_fcd ios |}.

(** ** How a call ends

    A C function of the library either returns a value or does not return
    because the process was aborted ([piodie] ends in MPI_Abort: "any
    failure will result in MPI_Abort", pioc.c lines 141 and 343). *)
Inductive outcome (A : Type) : Type :=
| Returns (a : A)
| Aborts.
Arguments Returns {A} a.
Arguments Aborts {A}.

(** Inside a function body: go on with a value, or leave the function. *)
Inductive flow (A R : Type) : Type :=
| Next (a : A)
| Leave (r : R).
Arguments Next {A R} a.
Arguments Leave {A R} r.

(** ** What pioc.c calls but does not define

    One environment describes what the outside world answers during one
    call.  Every allocation site and every MPI call site of the modelled
    functions has its own field, so that any combination of failures can be
    expressed. *)
Record Env : Type := {
  (* MPI constants and error reporting *)
  MPI_ROOT : Z;
  check_mpi : option iosystem_desc_t -> Z -> outcome Z;
  (* the async parameter exchange: the value of [mpierr] after the
     MPI_Send / MPI_Bcast chain on a computation task *)
  send_params : Z;
  (* MPI_Bcast of one int on my_comm: local buffer |-> (return code, buffer
     afterwards), one field per call site *)
  bcast_mpierr : Z -> Z * Z;
  bcast_num_aiotasks : Z -> Z * Z;
  bcast_next_ioid : Z -> Z * Z;
  (* libc *)
  qsort : (sort_map -> sort_map -> Z) -> list sort_map -> list sort_map;
  alloc_map : bool;
  alloc_tmpsort : bool;
  alloc_remap : bool;
  alloc_dimlen : bool;
  alloc_tmpmap : bool;
  alloc_compmap_1_based : bool;
  alloc_ios : bool;
  alloc_compranks : bool;
  alloc_ioranks : bool;
  (* pioc_support.c, pio_rearrange.c, pio_sc.c *)
  malloc_iodesc : iosystem_desc_t -> Z -> Z -> Z * io_desc_t;
  run_unique_check : MPI_Comm -> list Z -> Z * bool * list Z;
  subset_rearrange_create :
    iosystem_desc_t -> list Z -> list Z -> io_desc_t -> Z * rearr_plan;
  box_rearrange_create :
    iosystem_desc_t -> list Z -> list Z -> io_desc_t -> Z * rearr_plan;
  CalcStartandCount :
    Z -> list Z -> Z -> Z -> Z * (list Z * list Z * Z);
  compute_maxIObuffersize : MPI_Comm -> io_desc_t -> Z * Z;
  (* PIOc_Init_Intracomm *)
  pio_init_logging : Z;
  MPI_Comm_size : MPI_Comm -> Z * Z;
  MPI_Comm_dup_union : MPI_Comm -> Z * MPI_Comm;
  MPI_Comm_dup_comp : MPI_Comm -> Z * MPI_Comm;
  MPI_Comm_rank : MPI_Comm -> Z * Z;
  MPI_Comm_group : MPI_Comm -> Z;
  MPI_Group_incl : list Z -> Z;
  MPI_Comm_create : MPI_Comm -> list Z -> Z * MPI_Comm;
  new_iosysid : Z
}.

(** Modelled from the spec: [pio_get_iosystem_from_id] of the list module,
    which is not among the verified sources.  The registries are tables
    keyed by the public id (design notes: "explicit registries keyed by
    stable integer ids"). *)
Definition pio_get_iosystem_from_id (st : pio_state) (iosysid : Z)
  : option iosystem_desc_t :=
  pio_iosystem_list st !! iosysid.

(** Modelled from the spec: [pio_get_iodesc_from_id] of the list module, the
    same lookup in the registry of decompositions. *)
Definition pio_get_iodesc_from_id (st : pio_state) (id : Z)
  : option io_desc_t :=
  pio_iodesc_list st !! id.

(** Modelled from the spec: [pio_add_to_iodesc_list] of the list module
    enters the descriptor under its [ioid] and reports no error. *)
Definition pio_add_to_iodesc_list (iodesc : io_desc_t) (st : pio_state)
  : Z * pio_state :=
  (PIO_NOERR, set_iodesc_list (<[ioid iodesc := iodesc]> (pio_iodesc_list st)) st).

(** The handler that governs an error: the iosystem's when the caller has
    one at hand, the library default (pioc.c line 70) otherwise. *)
Definition handler_in_force (st : pio_state) (ios : option iosystem_desc_t)
  : Z :=
  match ios with
  | Some i => error_handler i
  | None => default_error_handler st
  end.

(** Modelled from the spec: [pio_err] of pioc_support.c, which is not among
    the verified sources.  Section 5: "Failures abort the current operation
    with the configured handler: InternalError => abort the process;
    BcastError => ... every rank returns the same code; ReturnError => local
    return only." *)
Definition pio_err (st : pio_state) (ios : option iosystem_desc_t)
  (err_num : Z) : outcome Z :=
  if handler_in_force st ios =? PIO_INTERNAL_ERROR then Aborts
  else Returns err_num.

(** ** PIOc_iosystem_is_active (pioc.c lines 95-112)

    The result is the return value and what was stored through [active]. *)
Definition PIOc_iosystem_is_active (st : pio_state) (iosysid : Z)
  (active : bool) : Z * option bool :=
  let ios := pio_get_iosystem_from_id st iosysid in
  let stored :=
    if active then
      match ios with
      | None => Some false
      | Some i =>
          if MPI_Comm_is_null (comp_comm i) && MPI_Comm_is_null (io_comm i)
          then Some false
          else Some true
      end
    else None in
  (PIO_NOERR, stored).

(** ** PIOc_get_local_array_size (pioc.c lines 329-338) *)
Definition PIOc_get_local_array_size (st : pio_state) (id : Z) : outcome Z :=
  match pio_get_iodesc_from_id st id with
  | None => Aborts (* piodie("Could not get iodesc") *)
  | Some iodesc => Returns (ndof (plan iodesc))
  end.

(** ** PIOc_set_iosystem_error_handling (pioc.c lines 383-438) *)

Definition valid_error_handler (method : Z) : bool :=
  (method =? PIO_INTERNAL_ERROR) || (method =? PIO_BCAST_ERROR)
  || (method =? PIO_RETURN_ERROR).

(** Lines 536-583 and their copies in the other calls: on a computation task
    the parameters are sent, then [mpierr] is broadcast from the computation
    root.  [strict] tells whether the value of [check_mpi] on a failed
    broadcast is returned (PIOc_InitDecomp) or dropped
    (PIOc_set_iosystem_error_handling). *)
Definition async_exchange (E : Env) (ios : iosystem_desc_t) (strict : bool)
  : flow unit (outcome Z) :=
  let mpierr := if ioproc ios then MPI_SUCCESS else send_params E in
  let '(mpierr2, mpierr') := bcast_mpierr E mpierr in
  let after_bcast :=
    if mpierr' =? MPI_SUCCESS then Next tt
    else Leave (check_mpi E (Some ios) mpierr') in
  if mpierr2 =? MPI_SUCCESS then after_bcast
  else
    match check_mpi E (Some ios) mpierr2 with
    | Aborts => Leave Aborts
    | Returns r => if strict then Leave (Returns r) else after_bcast
    end.

Record seh_result : Type := {
  seh_ret : outcome Z;
  seh_old_method : option Z;
  seh_state : pio_state
}.

Definition PIOc_set_iosystem_error_handling (E : Env) (st : pio_state)
  (iosysid method : Z) (old_method : bool) : seh_result :=
  let fail o := {| seh_ret := o; seh_old_method := None; seh_state := st |} in
  let ios := if iosysid =? PIO_DEFAULT then None
             else pio_get_iosystem_from_id st iosysid in
  if negb (iosysid =? PIO_DEFAULT) && negb (bool_decide (is_Some ios)) then
    fail (pio_err st None PIO_EBADID)
  else if negb (valid_error_handler method) then
    fail (pio_err st ios PIO_EINVAL)
  else
    let exchange :=
      match ios with
      | Some i => if async i then async_exchange E i false else Next tt
      | None => Next tt
      end in
    match exchange with
    | Leave o => fail o
    | Next _ =>
        let old :=
          match ios with
          | None => default_error_handler st
          | Some i => error_handler i
          end in
        let st' :=
          match ios with
          | None => set_default_error_handler method st
          | Some i =>
              set_iosystem_list
                (<[iosysid := set_error_handler method i]> (pio_iosystem_list st))
                st
          end in
        {| seh_ret := Returns PIO_NOERR;
           seh_old_method := if old_method then Some old else None;
           seh_state := st' |}
    end.

(** ** PIO_Offset arrays in memory *)

(** The array a pointer designates; a pointer to no block reads as the empty
    array, so [maplen] is the length of what [load] gives. *)
Definition load (st : pio_state) (b : block) : list Z :=
  default [] (mem st !! b).

Definition store (b : block) (contents : list Z) (st : pio_state)
  : pio_state :=
  set_mem (<[b := contents]> (mem st)) st.

(** A successful [malloc]: a block that is not in use. *)
Definition malloc_block (contents : list Z) (st : pio_state)
  : block * pio_state :=
  let b := fresh (dom (mem st)) in (b, store b contents st).

Definition free_block (b : block) (st : pio_state) : pio_state :=
  set_mem (delete b (mem st)) st.

(** ** The sort of a non-monotonic map (pioc.c lines 448-459, 603-644) *)

Definition compare (a b : sort_map) : Z :=
  if sm_map a <? sm_map b then -1
  else if sm_map a >? sm_map b then 1
  else 0.

(** The loop of lines 605-613, from index [m], with [n] iterations left. *)
Fixpoint needssort_loop (compmap : list Z) (m n : nat) : bool :=
  match n with
  | O => false
  | S n' =>
      if (0 <? m)%nat && (0 <? compmap !!! m)
         && (compmap !!! m <? compmap !!! (m - 1)%nat)
      then true
      else needssort_loop compmap (S m) n'
  end.

Definition compute_needssort (compmap : list Z) : bool :=
  needssort_loop compmap 0 (length compmap).

(** Lines 625-629. *)
Definition fill_tmpsort (compmap : list Z) : list sort_map :=
  imap (fun m x => {| sm_remap := Z.of_nat m; sm_map := x |}) compmap.

(** Lines 630-635: [qsort] works in place on the [maplen] records, then the
    descriptor's arrays are read off the sorted records. *)
Definition sorted_map (E : Env) (compmap : list Z) : list Z * list Z :=
  let tmpsort := qsort E compare (fill_tmpsort compmap) in
  ((fun s => compmap !!! Z.to_nat (sm_remap s)) <$> tmpsort,
   sm_remap <$> tmpsort).

Definition set_map_fields (len : Z) (m : list Z) (r : option (list Z))
  (s : bool) (d : io_desc_t) : io_desc_t :=
  {| ioid := ioid d; maplen := len; map := m; remap := r; ndims := ndims d;
     dimlen := dimlen d; num_aiotasks := num_aiotasks d;
     rearranger := rearranger d; needssort := s; readonly := readonly d;
     piotype := piotype d; maxiobuflen := maxiobuflen d;
     firstregion_start := firstregion_start d;
     firstregion_count := firstregion_count d; plan := plan d |}.

Definition set_dimlen (l : list Z) (d : io_desc_t) : io_desc_t :=
  {| ioid := ioid d; maplen := maplen d; map := map d; remap := remap d;
     ndims := ndims d; dimlen := l; num_aiotasks := num_aiotasks d;
     rearranger := rearranger d; needssort := needssort d;
     readonly := readonly d; piotype := piotype d;
     maxiobuflen := maxiobuflen d;
     firstregion_start := firstregion_start d;
     firstregion_count := firstregion_count d; plan := plan d |}.

Definition set_rearranger (r : Z) (d : io_desc_t) : io_desc_t :=
  {| ioid := ioid d; maplen := maplen d; map := map d; remap := remap d;
     ndims := ndims d; dimlen := dimlen d; num_aiotasks := num_aiotasks d;
     rearranger := r; needssort := needssort d; readonly := readonly d;
     piotype := piotype d; maxiobuflen := maxiobuflen d;
     firstregion_start := firstregion_start d;
     firstregion_count := firstregion_count d; plan := plan d |}.

Definition set_readonly (r : bool) (d : io_desc_t) : io_desc_t :=
  {| ioid := ioid d; maplen := maplen d; map := map d; remap := remap d;
     ndims := ndims d; dimlen := dimlen d; num_aiotasks := num_aiotasks d;
     rearranger := rearranger d; needssort := needssort d; readonly := r;
     piotype := piotype d; maxiobuflen := maxiobuflen d;
     firstregion_start := firstregion_start d;
     firstregion_count := firstregion_count d; plan := plan d |}.

Definition set_num_aiotasks (n : Z) (d : io_desc_t) : io_desc_t :=
  {| ioid := ioid d; maplen := maplen d; map := map d; remap := remap d;
     ndims := ndims d; dimlen := dimlen d; num_aiotasks := n;
     rearranger := rearranger d; needssort := needssort d;
     readonly := readonly d; piotype := piotype d;
     maxiobuflen := maxiobuflen d;
     firstregion_start := firstregion_start d;
     firstregion_count := firstregion_count d; plan := plan d |}.

Definition set_firstregion (start count : list Z) (d : io_desc_t)
  : io_desc_t :=
  {| ioid := ioid d; maplen := maplen d; map := map d; remap := remap d;
     ndims := ndims d; dimlen := dimlen d; num_aiotasks := num_aiotasks d;
     rearranger := rearranger d; needssort := needssort d;
     readonly := readonly d; piotype := piotype d;
     maxiobuflen := maxiobuflen d; firstregion_start := start;
     firstregion_count := count; plan := plan d |}.

Definition set_maxiobuflen (n : Z) (d : io_desc_t) : io_desc_t :=
  {| ioid := ioid d; maplen := maplen d; map := map d; remap := remap d;
     ndims := ndims d; dimlen := dimlen d; num_aiotasks := num_aiotasks d;
     rearranger := rearranger d; needssort := needssort d;
     readonly := readonly d; piotype := piotype d; maxiobuflen := n;
     firstregion_start := firstregion_start d;
     firstregion_count := firstregion_count d; plan := plan d |}.

Definition set_plan (p : rearr_plan) (d : io_desc_t) : io_desc_t :=
  {| ioid := ioid d; maplen := maplen d; map := map d; remap := remap d;
     ndims := ndims d; dimlen := dimlen d; num_aiotasks := num_aiotasks d;
     rearranger := rearranger d; needssort := needssort d;
     readonly := readonly d; piotype := piotype d;
     maxiobuflen := maxiobuflen d;
     firstregion_start := firstregion_start d;
     firstregion_count := firstregion_count d; plan := p |}.

Definition set_ioid (n : Z) (d : io_desc_t) : io_desc_t :=
  {| ioid := n; maplen := maplen d; map := map d; remap := remap d;
     ndims := ndims d; dimlen := dimlen d; num_aiotasks := num_aiotasks d;
     rearranger := rearranger d; needssort := needssort d;
     readonly := readonly d; piotype := piotype d;
     maxiobuflen := maxiobuflen d;
     firstregion_start := firstregion_start d;
     firstregion_count := firstregion_count d; plan := plan d |}.

(** Lines 597-650: remember maplen, the map (sorted when needed) and the
    dimension lengths.  [Leave c]: the code handed to [pio_err]. *)
Definition remember_map (E : Env) (compmap gdimlen : list Z) (d : io_desc_t)
  : flow io_desc_t Z :=
  let len := Z.of_nat (length compmap) in
  if negb (alloc_map E) then Leave PIO_ENOMEM
  else
    let sorted_or_copied : flow io_desc_t Z :=
      if compute_needssort compmap then
        if negb (alloc_tmpsort E) then Leave PIO_ENOMEM
        else if negb (alloc_remap E) then Leave PIO_ENOMEM
        else
          let '(m, r) := sorted_map E compmap in
          Next (set_map_fields len m (Some r) true d)
      else Next (set_map_fields len compmap None false d) in
    match sorted_or_copied with
    | Leave c => Leave c
    | Next d1 =>
        if negb (alloc_dimlen E) then Leave PIO_ENOMEM
        else Next (set_dimlen gdimlen d1)
    end.

(** ** PIOc_InitDecomp (pioc.c lines 505-769) *)

Record initdecomp_result : Type := {
  id_ret : outcome Z;          (* the return value *)
  id_ioid : option Z;          (* what was stored through ioidp *)
  id_state : pio_state
}.

(** Lines 535-588.  On a computation task the arrays are passed to
    MPI_Bcast over the intercommunicator with root [ios->compmaster], which
    is MPI_ROOT or MPI_PROC_NULL there (line 1866): they are send buffers,
    and the exchange leaves the task's memory as it is. *)
Definition async_params (E : Env) (st : pio_state) (ios : iosystem_desc_t)
  (rearranger_arg : option Z) : flow unit (outcome Z) :=
  match async_exchange E ios true with
  | Leave o => Leave o
  | Next _ =>
      match rearranger_arg with
      | Some r =>
          if negb (r =? default_rearranger ios)
          then Leave (pio_err st (Some ios) PIO_EBADREARR)
          else Next tt
      | None => Next tt
      end
  end.

(** Lines 660-683: the subset rearranger.  The duplicate check gets a
    private copy of the caller's array and may write to that copy. *)
Definition create_subset (E : Env) (st : pio_state) (ios : iosystem_desc_t)
  (compmap : block) (gdimlen : list Z) (d : io_desc_t)
  : pio_state * flow io_desc_t (outcome Z) :=
  let checked : pio_state * flow io_desc_t (outcome Z) :=
    if compproc ios then
      if negb (alloc_tmpmap E) then (st, Leave (Returns PIO_ENOMEM))
      else
        let '(tmpmap, st1) := malloc_block (load st compmap) st in
        let '(ierr, ro, written) :=
          run_unique_check E (comp_comm ios) (load st1 tmpmap) in
        let st2 := store tmpmap written st1 in
        if negb (ierr =? 0) then (st2, Leave (pio_err st (Some ios) ierr))
        else (free_block tmpmap st2, Next (set_readonly ro d))
    else (st, Next d) in
  match checked with
  | (st', Leave o) => (st', Leave o)
  | (st', Next d1) =>
      let d2 := set_num_aiotasks (num_iotasks ios) d1 in
      let '(ierr, p) := subset_rearrange_create E ios (map d2) gdimlen d2 in
      if negb (ierr =? 0) then (st', Leave (pio_err st (Some ios) ierr))
      else (st', Next (set_plan p d2))
  end.

(** Lines 684-728: every other rearranger value takes the box branch. *)
Definition create_box (E : Env) (st : pio_state) (ios : iosystem_desc_t)
  (pio_type : Z) (gdimlen : list Z) (iostart iocount : option (list Z))
  (d : io_desc_t) : flow io_desc_t (outcome Z) :=
  let on_io : flow io_desc_t (outcome Z) :=
    if ioproc ios then
      let regions : flow io_desc_t (outcome Z) :=
        match iostart, iocount with
        | Some s, Some c =>
            Next (set_num_aiotasks (num_iotasks ios)
                    (set_firstregion (take (length gdimlen) s)
                       (take (length gdimlen) c) d))
        | _, _ =>
            let '(ierr, (s, c, n)) :=
              CalcStartandCount E pio_type gdimlen (num_iotasks ios)
                (io_rank ios) in
            if negb (ierr =? 0) then Leave (pio_err st (Some ios) ierr)
            else Next (set_num_aiotasks n (set_firstregion s c d))
        end in
      match regions with
      | Leave o => Leave o
      | Next d1 =>
          let '(ierr, n) := compute_maxIObuffersize E (io_comm ios) d1 in
          if negb (ierr =? 0) then Leave (pio_err st (Some ios) ierr)
          else Next (set_maxiobuflen n d1)
      end
    else Next d in
  match on_io with
  | Leave o => Leave o
  | Next d1 =>
      let '(mpierr, n) := bcast_num_aiotasks E (num_aiotasks d1) in
      let d2 := set_num_aiotasks n d1 in
      if negb (mpierr =? MPI_SUCCESS)
      then Leave (check_mpi E (Some ios) mpierr)
      else if rearranger d2 =? PIO_REARR_BOX then
        let '(ierr, p) := box_rearrange_create E ios (map d2) gdimlen d2 in
        if negb (ierr =? 0) then Leave (pio_err st (Some ios) ierr)
        else Next (set_plan p d2)
      else Next d2
  end.

(** Lines 730-768: take the next id (received from the I/O root when the
    iosystem is async), store it through ioidp, register the descriptor. *)
Definition assign_ioid (E : Env) (st : pio_state) (ios : iosystem_desc_t)
  (d : io_desc_t) : initdecomp_result :=
  let '(mpierr, next) :=
    if async ios then bcast_next_ioid E (pio_next_ioid st)
    else (MPI_SUCCESS, pio_next_ioid st) in
  let st1 := set_pio_next_ioid next st in
  if negb (mpierr =? MPI_SUCCESS) then
    {| id_ret := check_mpi E (Some ios) mpierr; id_ioid := None;
       id_state := st1 |}
  else
    let d1 := set_ioid (pio_next_ioid st1) d in
    let st2 := set_pio_next_ioid (pio_next_ioid st1 + 1) st1 in
    let '(ierr, st3) := pio_add_to_iodesc_list d1 st2 in
    if negb (ierr =? 0) then
      {| id_ret := pio_err st (Some ios) ierr; id_ioid := Some (ioid d1);
         id_state := st3 |}
    else
      {| id_ret := Returns PIO_NOERR; id_ioid := Some (ioid d1);
         id_state := st3 |}.

Definition PIOc_InitDecomp (E : Env) (st : pio_state) (iosysid pio_type : Z)
  (gdimlen : option (list Z)) (compmap : option block) (ioidp : bool)
  (rearranger_arg : option Z) (iostart iocount : option (list Z))
  : initdecomp_result :=
  let stop st' o := {| id_ret := o; id_ioid := None; id_state := st' |} in
  match pio_get_iosystem_from_id st iosysid with
  | None => stop st (pio_err st None PIO_EBADID)
  | Some ios =>
      match gdimlen, compmap, ioidp with
      | Some gdims, Some cm, true =>
          if existsb (fun len => len <=? 0) gdims
          then stop st (pio_err st (Some ios) PIO_EINVAL)
          else
            match (if async ios then async_params E st ios rearranger_arg
                   else Next tt) with
            | Leave o => stop st o
            | Next _ =>
                let '(ierr, d0) :=
                  malloc_iodesc E ios pio_type (Z.of_nat (length gdims)) in
                if negb (ierr =? 0) then stop st (pio_err st (Some ios) ierr)
                else
                  match remember_map E (load st cm) gdims d0 with
                  | Leave c => stop st (pio_err st (Some ios) c)
                  | Next d1 =>
                      let d2 :=
                        set_rearranger
                          (match rearranger_arg with
                           | None => default_rearranger ios
                           | Some r => r
                           end) d1 in
                      let '(st', created) :=
                        if rearranger d2 =? PIO_REARR_SUBSET
                        then create_subset E st ios cm gdims d2
                        else (st, create_box E st ios pio_type gdims
                                    iostart iocount d2) in
                      match created with
                      | Leave o => stop st' o
                      | Next d3 => assign_ioid E st' ios d3
                      end
                  end
            end
      | _, _, _ => stop st (pio_err st (Some ios) PIO_EINVAL)
      end
  end.

(** ** PIOc_init_decomp (pioc.c lines 798-832)

    The wrapper reads [compmap] without a NULL check, so it is given a block. *)
Definition PIOc_init_decomp (E : Env) (st : pio_state) (iosysid pio_type : Z)
  (gdimlen : option (list Z)) (compmap : block) (ioidp : bool)
  (rearranger_arg : Z) (iostart iocount : option (list Z))
  : initdecomp_result :=
  let rearrangerp :=
    if rearranger_arg =? 0 then None else Some rearranger_arg in
  if negb (alloc_compmap_1_based E) then
    {| id_ret := Returns PIO_ENOMEM; id_ioid := None; id_state := st |}
  else
    let '(compmap_1_based, st1) :=
      malloc_block ((fun e => e + 1) <$> load st compmap) st in
    let r :=
      PIOc_InitDecomp E st1 iosysid pio_type gdimlen (Some compmap_1_based)
        ioidp rearrangerp iostart iocount in
    {| id_ret := id_ret r; id_ioid := id_ioid r;
       id_state := free_block compmap_1_based (id_state r) |}.

(** ** PIOc_Init_Intracomm (pioc.c lines 956-1108) *)

Record init_result : Type := {
  ii_ret : outcome Z;          (* the return value *)
  ii_iosysid : option Z;       (* what was stored through iosysidp *)
  ii_state : pio_state
}.

(** The descriptor while it is being filled in; what has not been assigned
    yet holds the zeros of [calloc]. *)
Definition mk_ios (handler rearr n_io n_comp : Z)
  (ucomm ccomm mcomm iocomm : MPI_Comm) (crank : Z) (cproc : bool)
  (cranks : list Z) (cmaster : Z) (ior : list Z) (iop : bool)
  (root master iorank urank : Z) : iosystem_desc_t :=
  {| union_comm := ucomm; io_comm := iocomm; comp_comm := ccomm;
     intercomm := MPI_COMM_NULL; my_comm := mcomm; num_iotasks := n_io;
     num_comptasks := n_comp; num_uniontasks := n_comp;
     union_rank := urank; comp_rank := crank; io_rank := iorank;
     iomaster := master; compmaster := cmaster; ioroot := root;
     comproot := 0; ioranks := ior; compranks := cranks;
     error_handler := handler; default_rearranger := rearr; async := false;
     ioproc := iop; compproc := cproc;
     rearr_comm_type := PIO_REARR_COMM_COLL;
     rearr_fcd := PIO_REARR_COMM_FC_2D_DISABLE |}.

Definition zeroed_comm : MPI_Comm := MPI_Comm_handle 0.

(** Lines 1048-1054: [ioranks[i] = (base + i * ustride) % num_comptasks],
    in [int]; [%] is the remainder of C, which truncates towards zero. *)
Definition compute_ioranks (base ustride n_io n_comp : Z) : list Z :=
  (fun i => Z.rem (wrap_int (base + wrap_int (Z.of_nat i * ustride))) n_comp)
    <$> seq 0 (Z.to_nat n_io).

(** Modelled from the spec: [pio_add_to_iosystem_list] of the list module
    enters the descriptor in the registry and returns its id; the id it
    chooses is an input of the model. *)
Definition pio_add_to_iosystem_list (E : Env) (ios : iosystem_desc_t)
  (st : pio_state) : Z * pio_state :=
  (new_iosysid E,
   set_iosystem_list (<[new_iosysid E := ios]> (pio_iosystem_list st)) st).

Definition PIOc_Init_Intracomm (E : Env) (st : pio_state)
  (comp_comm_arg : MPI_Comm) (num_iotasks_arg stride base rearr : Z)
  (iosysidp : bool) : init_result :=
  let stop o := {| ii_ret := o; ii_iosysid := None; ii_state := st |} in
  let mpi_ok rc := rc =? MPI_SUCCESS in
  if negb (pio_init_logging E =? 0)
  then stop (pio_err st None (pio_init_logging E))
  else
  let '(rc_size, n_comp) := MPI_Comm_size E comp_comm_arg in
  if negb (mpi_ok rc_size) then stop (check_mpi E None rc_size)
  else if negb iosysidp || (num_iotasks_arg <? 1)
          || (wrap_int (num_iotasks_arg * stride) >? n_comp)
  then stop (pio_err st None PIO_EINVAL)
  else if negb (alloc_ios E) then stop (pio_err st None PIO_ENOMEM)
  else
  let h := default_error_handler st in
  let ios1 :=
    mk_ios h rearr num_iotasks_arg n_comp zeroed_comm zeroed_comm
      zeroed_comm MPI_COMM_NULL 0 false [] 0 [] false 0 0 0 0 in
  let '(rc_dup1, ucomm) := MPI_Comm_dup_union E comp_comm_arg in
  if negb (mpi_ok rc_dup1) then stop (check_mpi E (Some ios1) rc_dup1)
  else
  let ios2 :=
    mk_ios h rearr num_iotasks_arg n_comp ucomm zeroed_comm zeroed_comm
      MPI_COMM_NULL 0 false [] 0 [] false 0 0 0 0 in
  let '(rc_dup2, ccomm) := MPI_Comm_dup_comp E comp_comm_arg in
  if negb (mpi_ok rc_dup2) then stop (check_mpi E (Some ios2) rc_dup2)
  else
  let ustride := stride in
  let ios3 :=
    mk_ios h rearr num_iotasks_arg n_comp ucomm ccomm ccomm MPI_COMM_NULL
      0 false [] 0 [] false 0 0 0 0 in
  let '(rc_rank, crank) := MPI_Comm_rank E ccomm in
  if negb (mpi_ok rc_rank) then stop (check_mpi E (Some ios3) rc_rank)
  else
  let ios4 :=
    mk_ios h rearr num_iotasks_arg n_comp ucomm ccomm ccomm MPI_COMM_NULL
      crank true [] 0 [] false 0 0 0 0 in
  if negb (alloc_compranks E) then stop (pio_err st (Some ios4) PIO_ENOMEM)
  else
  let cranks := Z.of_nat <$> seq 0 (Z.to_nat n_comp) in
  let cmaster := if crank =? 0 then MPI_ROOT E else 0 in
  let ios5 :=
    mk_ios h rearr num_iotasks_arg n_comp ucomm ccomm ccomm MPI_COMM_NULL
      crank true cranks cmaster [] false 0 0 0 0 in
  if negb (alloc_ioranks E) then stop (pio_err st (Some ios5) PIO_ENOMEM)
  else
  let ior := compute_ioranks base ustride num_iotasks_arg n_comp in
  let iop := existsb (fun r => r =? crank) ior in
  let root := ior !!! 0%nat in
  let master := if crank =? root then MPI_ROOT E else 0 in
  let ios6 :=
    mk_ios h rearr num_iotasks_arg n_comp ucomm ccomm ccomm MPI_COMM_NULL
      crank true cranks cmaster ior iop root master 0 0 in
  let rc_group := MPI_Comm_group E ccomm in
  if negb (mpi_ok rc_group) then stop (check_mpi E (Some ios6) rc_group)
  else
  let rc_incl := MPI_Group_incl E ior in
  if negb (mpi_ok rc_incl) then stop (check_mpi E (Some ios6) rc_incl)
  else
  let '(rc_create, iocomm) := MPI_Comm_create E ccomm ior in
  if negb (mpi_ok rc_create) then stop (check_mpi E (Some ios6) rc_create)
  else
  let ios7 :=
    mk_ios h rearr num_iotasks_arg n_comp ucomm ccomm ccomm iocomm
      crank true cranks cmaster ior iop root master 0 0 in
  let '(rc_iorank, iorank) :=
    if iop then MPI_Comm_rank E iocomm else (MPI_SUCCESS, -1) in
  if negb (mpi_ok rc_iorank) then stop (check_mpi E (Some ios7) rc_iorank)
  else
  let ios8 :=
    mk_ios h rearr num_iotasks_arg n_comp ucomm ccomm ccomm iocomm
      crank true cranks cmaster ior iop root master iorank crank in
  let '(id, st') := pio_add_to_iosystem_list E ios8 st in
  {| ii_ret := Returns PIO_NOERR; ii_iosysid := Some id; ii_state := st' |}.

(** ** What the C standard asks of [qsort]

    The array afterwards holds the same records, in ascending order for the
    comparison function.  Nothing is promised about records that compare
    equal. *)
Definition ascending (cmp : sort_map -> sort_map -> Z) (a b : sort_map)
  : Prop := cmp a b <= 0.

Definition qsort_conforms (E : Env) : Prop :=
  forall l : list sort_map,
    Permutation l (qsort E compare l)
    /\ Sorted (ascending compare) (qsort E compare l).

(** Two sorting functions that conform; they differ on equal keys.  Both
    insert the records one by one, starting from the last: the first puts a
    record in front of the records it is equal to, the second behind. *)
Fixpoint insert_by (before : sort_map -> sort_map -> bool) (x : sort_map)
  (l : list sort_map) : list sort_map :=
  match l with
  | [] => [x]
  | y :: l' => if before x y then x :: l else y :: insert_by before x l'
  end.

Definition insertion_sort (before : sort_map -> sort_map -> bool)
  (l : list sort_map) : list sort_map :=
  foldr (insert_by before) [] l.

Definition qsort_keeping_order (cmp : sort_map -> sort_map -> Z)
  : list sort_map -> list sort_map :=
  insertion_sort (fun x y => cmp x y <=? 0).

Definition qsort_reversing_ties (cmp : sort_map -> sort_map -> Z)
  : list sort_map -> list sort_map :=
  insertion_sort (fun x y => cmp x y <? 0).

(** ** Concrete environments and states, used to run the model *)

Definition plan_of_map (m : list Z) : rearr_plan :=
  {| ndof := Z.of_nat (length m); nrecvs := 0; llen := 0;
     needsfill := false; maxregions := 1 |}.

Definition blank_iodesc (pio_type nd : Z) : io_desc_t :=
  {| ioid := -1; maplen := 0; map := []; remap := None; ndims := nd;
     dimlen := []; num_aiotasks := 0; rearranger := 0; needssort := false;
     readonly := false; piotype := pio_type; maxiobuflen := 0;
     firstregion_start := []; firstregion_count := [];
     plan := plan_of_map [] |}.

(** Nothing fails; the duplicate check scribbles over the array it is given;
    MPI reports errors by code -1 whatever the handler. *)
Definition env_ok : Env :=
  {| MPI_ROOT := -3;
     check_mpi := fun _ _ => Returns (-1);
     send_params := MPI_SUCCESS;
     bcast_mpierr := fun v => (MPI_SUCCESS, v);
     bcast_num_aiotasks := fun v => (MPI_SUCCESS, v);
     bcast_next_ioid := fun v => (MPI_SUCCESS, v);
     qsort := qsort_keeping_order;
     alloc_map := true; alloc_tmpsort := true; alloc_remap := true;
     alloc_dimlen := true; alloc_tmpmap := true;
     alloc_compmap_1_based := true; alloc_ios := true;
     alloc_compranks := true; alloc_ioranks := true;
     malloc_iodesc := fun _ t nd => (0, blank_iodesc t nd);
     run_unique_check := fun _ m => (0, false, (fun _ => 0) <$> m);
     subset_rearrange_create := fun _ m _ _ => (0, plan_of_map m);
     box_rearrange_create := fun _ m _ _ => (0, plan_of_map m);
     CalcStartandCount := fun _ g _ _ => (0, ((fun _ => 0) <$> g, g, 1));
     compute_maxIObuffersize := fun _ _ => (0, 0);
     pio_init_logging := 0;
     MPI_Comm_size := fun _ => (MPI_SUCCESS, 4);
     MPI_Comm_dup_union := fun _ => (MPI_SUCCESS, MPI_Comm_handle 1);
     MPI_Comm_dup_comp := fun _ => (MPI_SUCCESS, MPI_Comm_handle 2);
     MPI_Comm_rank := fun _ => (MPI_SUCCESS, 0);
     MPI_Comm_group := fun _ => MPI_SUCCESS;
     MPI_Group_incl := fun _ => MPI_SUCCESS;
     MPI_Comm_create := fun _ _ => (MPI_SUCCESS, MPI_Comm_handle 3);
     new_iosysid := 2048 |}.

(** [env_ok] with another [qsort]. *)
Definition with_qsort
  (q : (sort_map -> sort_map -> Z) -> list sort_map -> list sort_map)
  (E : Env) : Env :=
  {| MPI_ROOT := MPI_ROOT E; check_mpi := check_mpi E;
     send_params := send_params E; bcast_mpierr := bcast_mpierr E;
     bcast_num_aiotasks := bcast_num_aiotasks E;
     bcast_next_ioid := bcast_next_ioid E; qsort := q;
     alloc_map := alloc_map E; alloc_tmpsort := alloc_tmpsort E;
     alloc_remap := alloc_remap E; alloc_dimlen := alloc_dimlen E;
     alloc_tmpmap := alloc_tmpmap E;
     alloc_compmap_1_based := alloc_compmap_1_based E;
     alloc_ios := alloc_ios E; alloc_compranks := alloc_compranks E;
     alloc_ioranks := alloc_ioranks E; malloc_iodesc := malloc_iodesc E;
     run_unique_check := run_unique_check E;
     subset_rearrange_create := subset_rearrange_create E;
     box_rearrange_create := box_rearrange_create E;
     CalcStartandCount := CalcStartandCount E;
     compute_maxIObuffersize := compute_maxIObuffersize E;
     pio_init_logging := pio_init_logging E;
     MPI_Comm_size := MPI_Comm_size E;
     MPI_Comm_dup_union := MPI_Comm_dup_union E;
     MPI_Comm_dup_comp := MPI_Comm_dup_comp E;
     MPI_Comm_rank := MPI_Comm_rank E; MPI_Comm_group := MPI_Comm_group E;
     MPI_Group_incl := MPI_Group_incl E;
     MPI_Comm_create := MPI_Comm_create E; new_iosysid := new_iosysid E |}.


(** [E] with another duplicate check. *)
Definition with_unique_check
  (chk : MPI_Comm -> list Z -> Z * bool * list Z) (E : Env) : Env :=
  {| MPI_ROOT := MPI_ROOT E; check_mpi := check_mpi E;
     send_params := send_params E; bcast_mpierr := bcast_mpierr E;
     bcast_num_aiotasks := bcast_num_aiotasks E;
     bcast_next_ioid := bcast_next_ioid E; qsort := qsort E;
     alloc_map := alloc_map E; alloc_tmpsort := alloc_tmpsort E;
     alloc_remap := alloc_remap E; alloc_dimlen := alloc_dimlen E;
     alloc_tmpmap := alloc_tmpmap E;
     alloc_compmap_1_based := alloc_compmap_1_based E;
     alloc_ios := alloc_ios E; alloc_compranks := alloc_compranks E;
     alloc_ioranks := alloc_ioranks E; malloc_iodesc := malloc_iodesc E;
     run_unique_check := chk;
     subset_rearrange_create := subset_rearrange_create E;
     box_rearrange_create := box_rearrange_create E;
     CalcStartandCount := CalcStartandCount E;
     compute_maxIObuffersize := compute_maxIObuffersize E;
     pio_init_logging := pio_init_logging E;
     MPI_Comm_size := MPI_Comm_size E;
     MPI_Comm_dup_union := MPI_Comm_dup_union E;
     MPI_Comm_dup_comp := MPI_Comm_dup_comp E;
     MPI_Comm_rank := MPI_Comm_rank E; MPI_Comm_group := MPI_Comm_group E;
     MPI_Group_incl := MPI_Group_incl E;
     MPI_Comm_create := MPI_Comm_create E; new_iosysid := new_iosysid E |}.

(** A task of a 4-task iosystem; [a] says whether the iosystem is async. *)
Definition demo_ios (handler rearr : Z) (a : bool) : iosystem_desc_t :=
  {| union_comm := MPI_Comm_handle 1; io_comm := MPI_Comm_handle 3;
     comp_comm := MPI_Comm_handle 2; intercomm := MPI_COMM_NULL;
     my_comm := MPI_Comm_handle 2; num_iotasks := 1; num_comptasks := 4;
     num_uniontasks := 4; union_rank := 0; comp_rank := 0; io_rank := 0;
     iomaster := -3; compmaster := -3; ioroot := 0; comproot := 0;
     ioranks := [0]; compranks := [0; 1; 2; 3]; error_handler := handler;
     default_rearranger := rearr; async := a; ioproc := true;
     compproc := true; rearr_comm_type := PIO_REARR_COMM_COLL;
     rearr_fcd := PIO_REARR_COMM_FC_2D_DISABLE |}.

(** The library right after start-up, with iosystem 2048 registered and the
    caller's compmap in block 1. *)
Definition demo_state (ios : iosystem_desc_t) (compmap : list Z)
  : pio_state :=
  {| default_error_handler := PIO_INTERNAL_ERROR;
     pio_next_ioid := 512;
     pio_iosystem_list := {[ 2048 := ios ]};
     pio_iodesc_list := ∅;
     mem := {[ 1%positive := compmap ]} |}.

(** ** Vocabulary of the statements *)

(** A call that goes through [pio_err] with code [code] returns the code,
    or the iosystem's handler is InternalError and the process is aborted
    (section 5 of the specification). *)
Definition fails_with (st : pio_state) (ios : option iosystem_desc_t)
  (code : Z) (o : outcome Z) : Prop :=
  o = Returns code
  \/ (handler_in_force st ios = PIO_INTERNAL_ERROR /\ o = Aborts).

(** The same, said exactly: the code is returned unless the handler in
    force is InternalError, and under InternalError the process is
    aborted. *)
Definition reported (st : pio_state) (ios : option iosystem_desc_t)
  (code : Z) (o : outcome Z) : Prop :=
  (handler_in_force st ios <> PIO_INTERNAL_ERROR -> o = Returns code)
  /\ (handler_in_force st ios = PIO_INTERNAL_ERROR -> o = Aborts).

Definition nondecreasing (l : list Z) : Prop := Sorted Z.le l.

(** [m] is [compmap] read through [r]: m[k] = compmap[r[k]]. *)
Definition reads_through (compmap m r : list Z) : Prop :=
  length m = length compmap /\ length r = length compmap
  /\ forall (k : nat) (v : Z),
       m !! k = Some v ->
       exists i : Z,
         r !! k = Some i /\ 0 <= i /\ compmap !! Z.to_nat i = Some v.

(** A stable sort keeps equal entries in their original order. *)
Definition stable_remap (m r : list Z) : Prop :=
  forall (i j : nat) (x a b : Z),
    (i < j)%nat -> m !! i = Some x -> m !! j = Some x ->
    r !! i = Some a -> r !! j = Some b -> a < b.

(** The condition of line 607 holds at some index. *)
Definition out_of_order (compmap : list Z) : Prop :=
  exists k : nat,
    (0 < k < length compmap)%nat /\ 0 < compmap !!! k
    /\ compmap !!! k < compmap !!! (k - 1)%nat.

(** A record of [tmpsort] carries the index it came from. *)
Definition tagged (compmap : list Z) (s : sort_map) : Prop :=
  0 <= sm_remap s /\ compmap !! Z.to_nat (sm_remap s) = Some (sm_map s).

(** The fields that lines 597-644 set. *)
Definition map_part (d : io_desc_t)
  : Z * list Z * option (list Z) * bool :=
  (maplen d, map d, remap d, needssort d).

(** What lines 597-644 compute from the caller's array. *)
Definition expected_map_part (E : Env) (compmap : list Z)
  : Z * list Z * option (list Z) * bool :=
  if compute_needssort compmap then
    (Z.of_nat (length compmap), (sorted_map E compmap).1,
     Some (sorted_map E compmap).2, true)
  else (Z.of_nat (length compmap), compmap, None, false).

(** The state apart from the PIO_Offset arrays. *)
Definition library_part (st : pio_state)
  : Z * Z * gmap Z iosystem_desc_t * gmap Z io_desc_t :=
  (default_error_handler st, pio_next_ioid st, pio_iosystem_list st,
   pio_iodesc_list st).

(** Every array of [st] is still there, unchanged, in [st']. *)
Definition arrays_kept (st st' : pio_state) : Prop :=
  forall (b : block) (contents : list Z),
    mem st !! b = Some contents -> mem st' !! b = Some contents.

(** What every call leaves behind, and what a call that stores an id has
    done. *)
Definition InitDecomp_effect (E : Env) (st : pio_state) (iosysid : Z)
  (gdimlen : option (list Z)) (compmap : option block) (ioidp : bool)
  (r : initdecomp_result) : Prop :=
  arrays_kept st (id_state r)
  /\ default_error_handler (id_state r) = default_error_handler st
  /\ pio_iosystem_list (id_state r) = pio_iosystem_list st
  /\ (id_ioid r = None ->
      pio_iodesc_list (id_state r) = pio_iodesc_list st
      /\ (pio_next_ioid (id_state r) = pio_next_ioid st
          \/ exists ios,
               pio_get_iosystem_from_id st iosysid = Some ios
               /\ async ios = true
               /\ pio_next_ioid (id_state r)
                  = (bcast_next_ioid E (pio_next_ioid st)).2))
  /\ forall id, id_ioid r = Some id ->
       exists ios cm gdims d,
         pio_get_iosystem_from_id st iosysid = Some ios
         /\ compmap = Some cm /\ gdimlen = Some gdims /\ ioidp = true
         /\ id_ret r = Returns PIO_NOERR
         /\ id = (if async ios
                  then (bcast_next_ioid E (pio_next_ioid st)).2
                  else pio_next_ioid st)
         /\ pio_next_ioid (id_state r) = id + 1
         /\ pio_iodesc_list (id_state r) = <[id := d]> (pio_iodesc_list st)
         /\ ioid d = id
         /\ map_part d = expected_map_part E (load st cm).

(** No decomposition was registered and no id was consumed. *)
Definition nothing_registered (st : pio_state) (r : initdecomp_result)
  : Prop :=
  pio_iodesc_list (id_state r) = pio_iodesc_list st
  /\ pio_next_ioid (id_state r) = pio_next_ioid st
  /\ id_ioid r = None.

Definition rearranger_used (ios : iosystem_desc_t)
  (rearranger_arg : option Z) : Z :=
  match rearranger_arg with
  | None => default_rearranger ios
  | Some r => r
  end.

(** One of the allocations that the call attempts fails (lines 601, 618,
    620, 647 and 667, in this order). *)
Definition allocation_fails (E : Env) (ios : iosystem_desc_t)
  (compmap : list Z) (rearranger_arg : option Z) : bool :=
  negb (alloc_map E)
  || (compute_needssort compmap
      && (negb (alloc_tmpsort E) || negb (alloc_remap E)))
  || negb (alloc_dimlen E)
  || ((rearranger_used ios rearranger_arg =? PIO_REARR_SUBSET)
      && compproc ios && negb (alloc_tmpmap E)).

(** One of the allocations for the map, the sort or the dimension lengths
    fails (lines 601, 618, 620 and 647). *)
Definition map_allocation_fails (E : Env) (compmap : list Z) : bool :=
  negb (alloc_map E)
  || (compute_needssort compmap
      && (negb (alloc_tmpsort E) || negb (alloc_remap E)))
  || negb (alloc_dimlen E).

(** Two library states that differ at most in the PIO_Offset arrays. *)
Definition same_library (st st' : pio_state) : Prop :=
  default_error_handler st = default_error_handler st'
  /\ pio_next_ioid st = pio_next_ioid st'
  /\ pio_iosystem_list st = pio_iosystem_list st'
  /\ pio_iodesc_list st = pio_iodesc_list st'.

(** *** Successive calls in one process *)







(** ** PIOc_InitDecomp_bc (pioc.c lines 851-909)

    [gdimlen], [start] and [count] are arrays of [ndims] elements; [ndims]
    is the length of [gdimlen], and the other two are read at the same
    indices.  The C code indexes [prod[ndims - 1]], so it is meant for
    ndims >= 1. *)

(** Lines 873-875: the test made on dimension [i]. *)
Definition bc_dim_invalid (gdimlen start count : list Z) (i : nat) : bool :=
  (gdimlen !!! i <=? 0) || (start !!! i <? 0) || (count !!! i <? 0)
  || (start !!! i + count !!! i >? gdimlen !!! i).

(** Lines 857 and 878-879: [maplen *= count[i]].  [maplen] is an [int] and
    [count[i]] a [long]: the product is formed in [long] and narrowed to
    [int] at every step. *)
Definition bc_maplen (nd : nat) (count : list Z) : Z :=
  foldl (fun maplen i => wrap_int (maplen * count !!! i)) 1 (seq 0 nd).

(** Lines 885-891: [prod[n] = prod[n + 1] * gdimlen[n + 1]] for n from
    ndims-2 down to 0; [k] is n + 1. *)
Fixpoint bc_prod_loop (gdimlen : list Z) (k : nat) (prod : list Z)
  : list Z :=
  match k with
  | O => prod
  | S n =>
      bc_prod_loop gdimlen n
        (<[n := prod !!! (S n) * gdimlen !!! (S n)]> prod)
  end.

Definition bc_prod (gdimlen : list Z) : list Z :=
  let nd := length gdimlen in
  bc_prod_loop gdimlen (nd - 1) (<[(nd - 1)%nat := 1]> (replicate nd 0)).

(** Lines 894-896: [compmap[i] = 1], then
    [compmap[i] += (start[n] + loc[n]) * prod[n]] for n from ndims-1 down
    to 0. *)
Definition bc_entry (nd : nat) (start loc prod : list Z) : Z :=
  foldr (fun n entry => entry + (start !!! n + loc !!! n) * prod !!! n) 1
    (seq 0 nd).

(** Lines 900-904: [while (loc[n] == 0 && n > 0)
    { n--; loc[n] = (loc[n] + 1) % count[n]; }]. *)
Fixpoint bc_carry (count : list Z) (n : nat) (loc : list Z) : list Z :=
  match n with
  | O => loc
  | S n' =>
      if loc !!! n =? 0
      then bc_carry count n'
             (<[n' := Z.rem (loc !!! n' + 1) (count !!! n')]> loc)
      else loc
  end.

(** Lines 898-904: the step to the next position. *)
Definition bc_advance (nd : nat) (count loc : list Z) : list Z :=
  let n := (nd - 1)%nat in
  bc_carry count n (<[n := Z.rem (loc !!! n + 1) (count !!! n)]> loc).

(** Lines 892-905: the loop over [i], with [iters] iterations left. *)
Fixpoint bc_fill (nd : nat) (start count prod : list Z) (iters : nat)
  (loc : list Z) : list Z :=
  match iters with
  | O => []
  | S iters' =>
      bc_entry nd start loc prod
      :: bc_fill nd start count prod iters' (bc_advance nd count loc)
  end.

(** The compmap that lines 877-905 compute. *)
Definition bc_compmap (gdimlen start count : list Z) : list Z :=
  let nd := length gdimlen in
  bc_fill nd start count (bc_prod gdimlen)
    (Z.to_nat (bc_maplen nd count)) (replicate nd 0).

(** The array [compmap] is local to the function: it is there during the
    call of PIOc_InitDecomp and gone afterwards. *)
Definition PIOc_InitDecomp_bc (E : Env) (st : pio_state)
  (iosysid pio_type : Z) (gdimlen start count : option (list Z))
  (ioidp : bool) : initdecomp_result :=
  let stop o := {| id_ret := o; id_ioid := None; id_state := st |} in
  match pio_get_iosystem_from_id st iosysid with
  | None => stop (pio_err st None PIO_EBADID)
  | Some ios =>
      match gdimlen, start, count, ioidp with
      | Some gdims, Some starts, Some counts, true =>
          if existsb (bc_dim_invalid gdims starts counts)
               (seq 0 (length gdims))
          then stop (pio_err st (Some ios) PIO_EINVAL)
          else
            let '(compmap, st1) :=
              malloc_block (bc_compmap gdims starts counts) st in
            let r :=
              PIOc_InitDecomp E st1 iosysid pio_type (Some gdims)
                (Some compmap) ioidp (Some PIO_REARR_SUBSET) None None in
            {| id_ret := id_ret r; id_ioid := id_ioid r;
               id_state := free_block compmap (id_state r) |}
      | _, _, _, _ => stop (pio_err st (Some ios) PIO_EINVAL)
      end
  end.

(** ** The inquiry functions (pioc.c lines 307-319, 1459-1495)

    The result is the return value and what was stored through the
    pointer. *)
Definition PIOc_get_numiotasks (st : pio_state) (iosysid : Z)
  (numiotasks : bool) : outcome Z * option Z :=
  match pio_get_iosystem_from_id st iosysid with
  | None => (pio_err st None PIO_EBADID, None)
  | Some ios =>
      (Returns PIO_NOERR,
       if numiotasks then Some (num_iotasks ios) else None)
  end.

Definition PIOc_iam_iotask (st : pio_state) (iosysid : Z)
  (ioprocp : bool) : outcome Z * option bool :=
  match pio_get_iosystem_from_id st iosysid with
  | None => (pio_err st None PIO_EBADID, None)
  | Some ios =>
      (Returns PIO_NOERR, if ioprocp then Some (ioproc ios) else None)
  end.

Definition PIOc_iotask_rank (st : pio_state) (iosysid : Z)
  (iorank : bool) : outcome Z * option Z :=
  match pio_get_iosystem_from_id st iosysid with
  | None => (pio_err st None PIO_EBADID, None)
  | Some ios =>
      (Returns PIO_NOERR, if iorank then Some (io_rank ios) else None)
  end.

(** ** PIOc_Set_IOSystem_Error_Handling (pioc.c lines 352-368)

    The deprecated call returns the old handler; every failure ends in
    piodie.  The result is [None] where the C function returns a variable
    that was never assigned: PIOc_set_iosystem_error_handling returned 0
    without storing the old method, which it does only when [check_mpi]
    answers 0 to an MPI error. *)
Definition PIOc_Set_IOSystem_Error_Handling (E : Env) (st : pio_state)
  (iosysid method : Z) : option (outcome Z * pio_state) :=
  if negb (iosysid =? PIO_DEFAULT)
     && negb (bool_decide (is_Some (pio_get_iosystem_from_id st iosysid)))
  then Some (Aborts, st)
  else
    let r := PIOc_set_iosystem_error_handling E st iosysid method true in
    match seh_ret r with
    | Aborts => Some (Aborts, seh_state r)
    | Returns code =>
        if negb (code =? 0) then Some (Aborts, seh_state r)
        else
          match seh_old_method r with
          | Some oldmethod => Some (Returns oldmethod, seh_state r)
          | None => None
          end
    end.

(** ** PIOc_free_iosystem (pioc.c lines 1352-1447) *)

(** Modelled from the spec: [pio_num_iosystem] of the list module reports
    how many iosystems are registered. *)
Definition pio_num_iosystem (st : pio_state) : Z * Z :=
  (PIO_NOERR, Z.of_nat (size (pio_iosystem_list st))).

(** Modelled from the spec: [pio_delete_iosystem_from_list] of the list
    module removes the iosystem registered under the id, and reports BadId
    when there is none. *)
Definition pio_delete_iosystem_from_list (iosysid : Z) (st : pio_state)
  : Z * pio_state :=
  match pio_iosystem_list st !! iosysid with
  | None => (PIO_EBADID, st)
  | Some _ =>
      (PIO_NOERR, set_iosystem_list (delete iosysid (pio_iosystem_list st)) st)
  end.

(** The descriptor's arrays and communicators are released; what remains
    visible is that the iosystem leaves the registry. *)
Definition PIOc_free_iosystem (E : Env) (st : pio_state) (iosysid : Z)
  : outcome Z * pio_state :=
  match pio_get_iosystem_from_id st iosysid with
  | None => (pio_err st None PIO_EBADID, st)
  | Some ios =>
      match (if async ios && negb (MPI_Comm_is_null (union_comm ios))
             then async_exchange E ios true else Next tt) with
      | Leave o => (o, st)
      | Next _ =>
          let '(ierr, niosysid) := pio_num_iosystem st in
          if negb (ierr =? 0) then (pio_err st (Some ios) ierr, st)
          else
            let '(ierr2, st') := pio_delete_iosystem_from_list iosysid st in
            if negb (ierr2 =? 0) then (pio_err st None ierr2, st')
            else (Returns PIO_NOERR, st')
      end
  end.

(** ** PIOc_set_blocksize (pioc.c lines 2186-2192)

    [blocksize] is a global of another file; the call is a function of its
    value: the return value and the new value. *)
Definition PIOc_set_blocksize (blocksize newblocksize : Z) : Z * Z :=
  (PIO_NOERR, if 0 <? newblocksize then newblocksize else blocksize).

(** The value of [blocksize] after a sequence of calls. *)
Definition set_blocksizes (blocksize : Z) (news : list Z) : Z :=
  foldl (fun b new => (PIOc_set_blocksize b new).2) blocksize news.

(** ** Files and record numbers (pioc.c lines 122-295) *)

(** Modelled from the spec: the file list and the variable lists belong to
    modules that are not among the verified sources.  Section 3: a file has
    a "back-pointer to its iosystem" and "a map from variable id to VarDesc
    (... record counter ...)"; design notes: the pointer "becomes a
    back-reference by id; files look up their iosystem at operation time",
    so that files of one iosystem share it.  The fields are those of
    [var_desc_t] and [file_desc_t] that the functions below use. *)
Record var_desc_t : Type := { varid : Z; rec_var : Z; record : Z }.

Record file_desc_t : Type := {
  iosystem : Z;
  pio_ncid : Z;
  varlist : gmap Z var_desc_t
}.

Record file_table : Type := {
  lib : pio_state;
  pio_file_list : gmap Z file_desc_t
}.

(** The codes that [pio_get_file] and [get_var_desc] (neither is among the
    verified sources) return when they find nothing. *)
Record lookup_codes : Type := {
  pio_get_file_miss : Z;
  get_var_desc_miss : Z
}.

Definition set_record (n : Z) (v : var_desc_t) : var_desc_t :=
  {| varid := varid v; rec_var := rec_var v; record := n |}.

Definition set_var (ncid id : Z) (v : var_desc_t) (ft : file_table)
  : file_table :=
  {| lib := lib ft;
     pio_file_list :=
       alter (fun f => {| iosystem := iosystem f; pio_ncid := pio_ncid f;
                          varlist := <[id := v]> (varlist f) |})
         ncid (pio_file_list ft) |}.

(** Lines 122-132. *)
Definition PIOc_File_is_Open (ft : file_table) (ncid : Z) : Z :=
  match pio_file_list ft !! ncid with
  | None => 0
  | Some _ => 1
  end.

(** What PIOc_advanceframe and PIOc_setframe have in common: find the file,
    its iosystem and the variable, do the async exchange, then store the
    new record number.  The result is [None] where C gives no meaning to
    the call: the file points to an iosystem that is no longer there. *)
Definition with_var (E : Env) (L : lookup_codes) (ft : file_table)
  (ncid id : Z) (new_record : Z -> Z) : option (outcome Z * file_table) :=
  match pio_file_list ft !! ncid with
  | None => Some (pio_err (lib ft) None (pio_get_file_miss L), ft)
  | Some file =>
      match pio_get_iosystem_from_id (lib ft) (iosystem file) with
      | None => None
      | Some ios =>
          match varlist file !! id with
          | None =>
              Some (pio_err (lib ft) (Some ios) (get_var_desc_miss L), ft)
          | Some vdesc =>
              match (if async ios then async_exchange E ios false
                     else Next tt) with
              | Leave o => Some (o, ft)
              | Next _ =>
                  Some (Returns PIO_NOERR,
                        set_var ncid id
                          (set_record (new_record (record vdesc)) vdesc) ft)
              end
          end
      end
  end.

(** Lines 183-231: [vdesc->record++], on an [int]. *)
Definition PIOc_advanceframe (E : Env) (L : lookup_codes) (ft : file_table)
  (ncid id : Z) : option (outcome Z * file_table) :=
  with_var E L ft ncid id (fun r => wrap_int (r + 1)).

(** Lines 244-295: [vdesc->record = frame]. *)
Definition PIOc_setframe (E : Env) (L : lookup_codes) (ft : file_table)
  (ncid id frame : Z) : option (outcome Z * file_table) :=
  with_var E L ft ncid id (fun _ => frame).

(** Lines 150-172: the handler of the file's iosystem is replaced; the old
    one is returned; a file that is not open or a method that is not one of
    the three ends in piodie. *)
Definition PIOc_Set_File_Error_Handling (ft : file_table) (ncid method : Z)
  : option (outcome Z * file_table) :=
  match pio_file_list ft !! ncid with
  | None => Some (Aborts, ft)
  | Some file =>
      if negb (valid_error_handler method) then Some (Aborts, ft)
      else
        match pio_get_iosystem_from_id (lib ft) (iosystem file) with
        | None => None
        | Some ios =>
            Some (Returns (error_handler ios),
                  {| lib :=
                       set_iosystem_list
                         (<[iosystem file := set_error_handler method ios]>
                            (pio_iosystem_list (lib ft))) (lib ft);
                     pio_file_list := pio_file_list ft |})
        end
  end.

(** The record number of a variable of an open file. *)
Definition record_of (ft : file_table) (ncid id : Z) : option Z :=
  f ← pio_file_list ft !! ncid; v ← varlist f !! id; Some (record v).

(** ** Vocabulary for the block decomposition *)

Definition Zprod (l : list Z) : Z := foldr Z.mul 1 l.

(** [suffix_prods g] at index n is the product of the lengths after n: the
    row-major stride of dimension n. *)
Fixpoint suffix_prods (g : list Z) : list Z :=
  match g with
  | [] => []
  | _ :: gs => Zprod gs :: suffix_prods gs
  end.

Fixpoint dot (xs ps : list Z) : Z :=
  match xs, ps with
  | x :: xs', p :: ps' => x * p + dot xs' ps'
  | _, _ => 0
  end.

(** The value of the digits [xs], least significant first, in the mixed
    radix [rs]. *)
Fixpoint horner (rs xs : list Z) : Z :=
  match rs, xs with
  | r :: rs', x :: xs' => x + r * horner rs' xs'
  | _, _ => 0
  end.

(** Adding one to digits given least significant first. *)
Fixpoint inc_rev (cs ls : list Z) : list Z :=
  match cs, ls with
  | c :: cs', l :: ls' =>
      if Z.rem (l + 1) c =? 0 then Z.rem (l + 1) c :: inc_rev cs' ls'
      else Z.rem (l + 1) c :: ls'
  | _, _ => []
  end.

Definition digits_ok (cs ls : list Z) : Prop :=
  Forall2 (fun c l => 0 <= l < c) cs ls.

(** What the loop of lines 873-875 lets through. *)
Definition bc_valid (g s c : list Z) : Prop :=
  Forall3 (fun gi si ci => 0 < gi /\ 0 <= si /\ 0 <= ci /\ si + ci <= gi)
    g s c.

(** The 1-based offset of the first element of the block. *)
Definition bc_base (g s : list Z) : Z := 1 + horner (rev g) (rev s).

(** The number of the position [loc] inside the block, and what the loop
    keeps true of [loc]. *)
Definition bc_rank (c loc : list Z) : Z := horner (rev c) (rev loc).

Definition bc_good (g c loc : list Z) : Prop :=
  length loc = length g /\ digits_ok (rev c) (rev loc).

(** ** PIOc_init_async_from_F90 (pioc.c lines 1190-1201)

    The part of the Fortran interface that pioc.c computes itself: the
    one-dimensional [flat_proc_list] is cut into one array per component.
    [component_count] is the length of [procs_per_component]. *)

(** Lines 1190-1193. *)
Definition maxprocs_per_component (procs_per_component : list Z) : Z :=
  foldl (fun maxprocs p => if p >? maxprocs then p else maxprocs) 0
    procs_per_component.

(** Lines 1197-1201: the entries of [proc_list[i]] that are assigned. *)
Definition proc_list_of_flat (procs_per_component flat_proc_list : list Z)
  : list (list Z) :=
  let maxprocs := maxprocs_per_component procs_per_component in
  imap (fun i n =>
          (fun j =>
             flat_proc_list
               !!! Z.to_nat (Z.of_nat j + Z.of_nat i * maxprocs))
            <$> seq 0 (Z.to_nat n))
    procs_per_component.

(** ** Vocabulary for the registries, the files and the process lists *)


(** Every handler in the library is one of the three of pio.h. *)
Definition handlers_valid (st : pio_state) : Prop :=
  valid_error_handler (default_error_handler st) = true
  /\ forall id ios,
       pio_iosystem_list st !! id = Some ios ->
       valid_error_handler (error_handler ios) = true.

(** Nothing that PIOc_InitDecomp calls fails. *)
Definition decomp_externals_succeed (E : Env) : Prop :=
  alloc_map E = true /\ alloc_tmpsort E = true /\ alloc_remap E = true
  /\ alloc_dimlen E = true /\ alloc_tmpmap E = true
  /\ (forall ios t n, (malloc_iodesc E ios t n).1 = 0)
  /\ (forall c m, (run_unique_check E c m).1.1 = 0)
  /\ (forall ios m g d, (subset_rearrange_create E ios m g d).1 = 0)
  /\ (forall ios m g d, (box_rearrange_create E ios m g d).1 = 0)
  /\ (forall t g n r, (CalcStartandCount E t g n r).1 = 0)
  /\ (forall c d, (compute_maxIObuffersize E c d).1 = 0)
  /\ (forall v, (bcast_num_aiotasks E v).1 = MPI_SUCCESS).

(** Nothing that PIOc_Init_Intracomm calls fails. *)
Definition init_externals_succeed (E : Env) : Prop :=
  pio_init_logging E = 0
  /\ alloc_ios E = true /\ alloc_compranks E = true /\ alloc_ioranks E = true
  /\ (forall c, (MPI_Comm_size E c).1 = MPI_SUCCESS)
  /\ (forall c, (MPI_Comm_dup_union E c).1 = MPI_SUCCESS)
  /\ (forall c, (MPI_Comm_dup_comp E c).1 = MPI_SUCCESS)
  /\ (forall c, (MPI_Comm_rank E c).1 = MPI_SUCCESS)
  /\ (forall c, MPI_Comm_group E c = MPI_SUCCESS)
  /\ (forall l, MPI_Group_incl E l = MPI_SUCCESS)
  /\ (forall c l, (MPI_Comm_create E c l).1 = MPI_SUCCESS).

(** The shape of the descriptor of an iosystem whose I/O tasks are a subset
    of its computation tasks. *)
Definition sync_layout (ios : iosystem_desc_t) : Prop :=
  async ios = false
  /\ num_uniontasks ios = num_comptasks ios
  /\ compproc ios = true
  /\ my_comm ios = comp_comm ios
  /\ union_rank ios = comp_rank ios
  /\ intercomm ios = MPI_COMM_NULL
  /\ compranks ios = Z.of_nat <$> seq 0 (Z.to_nat (num_comptasks ios))
  /\ length (ioranks ios) = Z.to_nat (num_iotasks ios)
  /\ ioroot ios = ioranks ios !!! 0%nat
  /\ (ioproc ios = true <-> comp_rank ios ∈ ioranks ios)
  /\ (ioproc ios = false -> io_rank ios = -1).

(** The async exchange of a call, if there is one, goes through. *)
Definition exchange_ok (E : Env) (ios : iosystem_desc_t) : Prop :=
  (if async ios then async_exchange E ios false else Next tt) = Next tt.

(** Variable [id] of the open file [ncid] can be given a record number. *)
Definition var_ready (E : Env) (ft : file_table) (ncid id : Z) : Prop :=
  exists file ios v,
    pio_file_list ft !! ncid = Some file
    /\ pio_get_iosystem_from_id (lib ft) (iosystem file) = Some ios
    /\ exchange_ok E ios
    /\ varlist file !! id = Some v.

(** [n] calls of PIOc_advanceframe, stopping at the first that does not
    return PIO_NOERR. *)
Fixpoint advance_frames (E : Env) (L : lookup_codes) (ft : file_table)
  (ncid id : Z) (n : nat) : option (outcome Z * file_table) :=
  match n with
  | O => Some (Returns PIO_NOERR, ft)
  | S n' =>
      match PIOc_advanceframe E L ft ncid id with
      | Some (Returns code, ft') =>
          if code =? PIO_NOERR then advance_frames E L ft' ncid id n'
          else Some (Returns code, ft')
      | other => other
      end
  end.

(** The handler that governs the errors of an open file. *)
Definition file_handler (ft : file_table) (ncid : Z) : option Z :=
  f ← pio_file_list ft !! ncid;
  ios ← pio_get_iosystem_from_id (lib ft) (iosystem f);
  Some (error_handler ios).

(** The layout that the Fortran caller uses: one row per component, every
    row filled up to the length of the longest. *)
Definition flat_of_proc_list (proc_list : list (list Z)) : list Z :=
  let maxprocs :=
    maxprocs_per_component
      ((fun row => Z.of_nat (length row)) <$> proc_list) in
  concat
    ((fun row => row ++ replicate (Z.to_nat maxprocs - length row) 0)
       <$> proc_list).

(** Two open files of iosystem 2048, each with a variable 0; the codes of
    the two lookups.  Used to run the model. *)
Definition demo_files (handler : Z) : file_table :=
  {| lib := demo_state (demo_ios handler PIO_REARR_BOX false) [];
     pio_file_list :=
       {[ 10 := {| iosystem := 2048; pio_ncid := 10;
                   varlist := {[ 0 := {| varid := 0; rec_var := 1;
                                         record := 0 |} ]} |};
          11 := {| iosystem := 2048; pio_ncid := 11;
                   varlist := {[ 0 := {| varid := 0; rec_var := 1;
                                         record := 5 |} ]} |} ]} |}.

Definition demo_codes : lookup_codes :=
  {| pio_get_file_miss := PIO_EBADID; get_var_desc_miss := PIO_EBADID |}.

(** * Proofs *)

(** ** Error reporting *)

Lemma pio_err_fails_with st ios code : fails_with st ios code (pio_err st ios code).
Proof.
  unfold fails_with, pio_err.
  destruct (Z.eqb_spec (handler_in_force st ios) PIO_INTERNAL_ERROR); auto.
Qed.

Lemma fails_with_returns st ios code o :
  fails_with st ios code o ->
  handler_in_force st ios <> PIO_INTERNAL_ERROR -> o = Returns code.
Proof. intros [-> | [Hh _]] Hne; [reflexivity | contradiction]. Qed.

Lemma fails_with_not_noerr st ios code o :
  fails_with st ios code o -> code <> PIO_NOERR -> o <> Returns PIO_NOERR.
Proof. intros [-> | [_ ->]] Hne; congruence. Qed.

Lemma pio_err_reported st ios code : reported st ios code (pio_err st ios code).
Proof.
  unfold reported, pio_err.
  destruct (Z.eqb_spec (handler_in_force st ios) PIO_INTERNAL_ERROR);
    split; intros H; first [reflexivity | contradiction].
Qed.

Lemma reported_not_noerr st ios code o :
  reported st ios code o -> code <> PIO_NOERR -> o <> Returns PIO_NOERR.
Proof.
  intros [Hret Habort] Hne.
  destruct (Z.eq_dec (handler_in_force st ios) PIO_INTERNAL_ERROR) as [H | H].
  - rewrite (Habort H). discriminate.
  - rewrite (Hret H). congruence.
Qed.

(** ** The arithmetic of [int] *)

Lemma wrap_int_small (z : Z) : in_int z -> wrap_int z = z.
Proof.
  unfold in_int, INT_MIN, INT_MAX, wrap_int. intros Hz.
  rewrite Z.mod_small by lia. lia.
Qed.

Lemma wrap_int_mul_l (a b : Z) : wrap_int (wrap_int a * b) = wrap_int (a * b).
Proof.
  unfold wrap_int. f_equal.
  rewrite (Z.mod_eq (a + 2147483648) 4294967296) by lia.
  replace ((a + 2147483648
            - 4294967296 * ((a + 2147483648) / 4294967296) - 2147483648) * b
           + 2147483648)
    with (a * b + 2147483648
          + (- ((a + 2147483648) / 4294967296) * b) * 4294967296) by ring.
  apply Z_mod_plus_full.
Qed.

(** ** PIOc_iosystem_is_active *)

(** C10.  PIOc_iosystem_is_active returns PIO_NOERR for every iosysid; a
    NULL [active] is ignored (nothing is stored); an id that names no
    iosystem is reported by storing false through [active]. *)
Theorem iosystem_is_active_never_fails (st : pio_state) (iosysid : Z)
  (active : bool) :
  (PIOc_iosystem_is_active st iosysid active).1 = PIO_NOERR
  /\ (PIOc_iosystem_is_active st iosysid false).2 = None
  /\ (pio_get_iosystem_from_id st iosysid = None ->
      PIOc_iosystem_is_active st iosysid true = (PIO_NOERR, Some false)).
Proof.
  split; [reflexivity | split; [reflexivity |]].
  intros Hnone. unfold PIOc_iosystem_is_active. now rewrite Hnone.
Qed.

Lemma iosystem_is_active_never_fails_witness :
  (PIOc_iosystem_is_active initial_state 7 true).1 = PIO_NOERR
  /\ (PIOc_iosystem_is_active initial_state 7 false).2 = None
  /\ PIOc_iosystem_is_active initial_state 7 true = (PIO_NOERR, Some false).
Proof.
  destruct (iosystem_is_active_never_fails initial_state 7 true)
    as (H1 & H2 & H3).
  split; [exact H1 | split; [exact H2 | apply H3; reflexivity]].
Defined.

(** ** PIOc_get_local_array_size *)

(** C7, as the code has it.  For a registered decomposition id the call
    returns the descriptor's ndof; for an id that names no decomposition the
    process is aborted by piodie, and no error code is returned. *)
Theorem get_local_array_size_spec (st : pio_state) (id : Z) :
  match pio_iodesc_list st !! id with
  | Some iodesc =>
      PIOc_get_local_array_size st id = Returns (ndof (plan iodesc))
  | None => PIOc_get_local_array_size st id = Aborts
  end.
Proof.
  unfold PIOc_get_local_array_size, pio_get_iodesc_from_id.
  destruct (pio_iodesc_list st !! id); reflexivity.
Qed.

(** C7, as the claim has it, fails: with no decomposition registered and the
    error handler set to ReturnError, the call for id 512 aborts the process
    and does not return PIO_EBADID. *)
Lemma get_local_array_size_unknown_id_aborts :
  pio_get_iodesc_from_id
    (set_default_error_handler PIO_RETURN_ERROR initial_state) 512 = None
  /\ PIOc_get_local_array_size
       (set_default_error_handler PIO_RETURN_ERROR initial_state) 512
     = Aborts
  /\ PIOc_get_local_array_size
       (set_default_error_handler PIO_RETURN_ERROR initial_state) 512
     <> Returns PIO_EBADID.
Proof. repeat split. discriminate. Qed.

(** ** PIOc_set_iosystem_error_handling *)

Lemma valid_error_handler_iff method :
  valid_error_handler method = true
  <-> method = PIO_INTERNAL_ERROR \/ method = PIO_BCAST_ERROR
      \/ method = PIO_RETURN_ERROR.
Proof.
  unfold valid_error_handler.
  rewrite !orb_true_iff, !Z.eqb_eq. tauto.
Qed.

(** C9, as the code has it.  For [iosysid] PIO_DEFAULT or a registered
    iosystem: a method other than InternalError, BcastError, ReturnError is
    refused and nothing changes; the refusal goes through pio_err, so
    PIO_EINVAL is returned unless the handler in force (the iosystem's, or
    the library default for PIO_DEFAULT) is InternalError, under which the
    process is aborted; for one of the three, once the
    async exchange (if any) has gone through, the call returns PIO_NOERR,
    stores the handler that was in force through [old_method] when it is
    not NULL, and installs the method as the library default (PIO_DEFAULT)
    or as the handler of the iosystem.  The library default is
    InternalError at start-up. *)
Theorem set_iosystem_error_handling_spec (E : Env) (st : pio_state)
  (iosysid method : Z) (old_method : bool) (target : option iosystem_desc_t) :
  target = (if iosysid =? PIO_DEFAULT then None
            else pio_get_iosystem_from_id st iosysid) ->
  (iosysid = PIO_DEFAULT \/ is_Some target) ->
  let r := PIOc_set_iosystem_error_handling E st iosysid method old_method in
  default_error_handler initial_state = PIO_INTERNAL_ERROR
  /\ (~ (method = PIO_INTERNAL_ERROR \/ method = PIO_BCAST_ERROR
         \/ method = PIO_RETURN_ERROR) ->
      reported st target PIO_EINVAL (seh_ret r)
      /\ seh_ret r <> Returns PIO_NOERR
      /\ seh_old_method r = None /\ seh_state r = st)
  /\ (method = PIO_INTERNAL_ERROR \/ method = PIO_BCAST_ERROR
      \/ method = PIO_RETURN_ERROR ->
      (forall ios, target = Some ios -> async ios = true ->
                   async_exchange E ios false = Next tt) ->
      seh_ret r = Returns PIO_NOERR
      /\ seh_old_method r
         = (if old_method then Some (handler_in_force st target) else None)
      /\ match target with
         | None =>
             default_error_handler (seh_state r) = method
             /\ pio_iosystem_list (seh_state r) = pio_iosystem_list st
         | Some ios =>
             pio_iosystem_list (seh_state r) !! iosysid
             = Some (set_error_handler method ios)
             /\ error_handler (set_error_handler method ios) = method
             /\ default_error_handler (seh_state r)
                = default_error_handler st
             /\ (forall other, other <> iosysid ->
                   pio_iosystem_list (seh_state r) !! other
                   = pio_iosystem_list st !! other)
         end).
Proof.
  intros Htarget Hknown r. subst r.
  unfold PIOc_set_iosystem_error_handling. rewrite <- Htarget.
  assert (Hguard : negb (iosysid =? PIO_DEFAULT)
                   && negb (bool_decide (is_Some target)) = false).
  { destruct Hknown as [-> | Hsome]; [reflexivity |].
    rewrite (bool_decide_eq_true_2 _ Hsome). apply andb_false_r. }
  rewrite Hguard.
  split; [reflexivity | split].
  - intros Hbad. rewrite <- valid_error_handler_iff in Hbad.
    apply not_true_is_false in Hbad. rewrite Hbad. cbn.
    pose proof (pio_err_reported st target PIO_EINVAL) as Hf.
    split; [exact Hf | split; [| split; reflexivity]].
    eapply reported_not_noerr; [exact Hf | discriminate].
  - intros Hgood Hexchange. apply valid_error_handler_iff in Hgood.
    rewrite Hgood. cbn [negb].
    destruct target as [ios |].
    + assert (Hgo : (if async ios then async_exchange E ios false
                     else Next tt) = Next tt).
      { destruct (async ios) eqn:Ha; [now apply Hexchange | reflexivity]. }
      rewrite Hgo. cbn.
      repeat split.
      * apply lookup_insert_eq.
      * intros other Hne. now apply lookup_insert_ne.
    + cbn. repeat split.
Qed.

Lemma set_iosystem_error_handling_spec_witness :
  let st := demo_state (demo_ios PIO_INTERNAL_ERROR 1 false) [] in
  let r := PIOc_set_iosystem_error_handling env_ok st 2048
             PIO_RETURN_ERROR true in
  seh_ret r = Returns PIO_NOERR
  /\ seh_old_method r = Some PIO_INTERNAL_ERROR
  /\ (error_handler <$> pio_iosystem_list (seh_state r) !! 2048)
     = Some PIO_RETURN_ERROR.
Proof.
  intros st r.
  destruct (set_iosystem_error_handling_spec env_ok st 2048 PIO_RETURN_ERROR
              true (Some (demo_ios PIO_INTERNAL_ERROR 1 false))
              eq_refl (or_intror (ex_intro _ _ eq_refl)))
    as (_ & _ & Hok).
  destruct (Hok (or_intror (or_intror eq_refl)))
    as (Hret & Hold & Hnew & Hh & _).
  { intros ios Hios Ha. inversion Hios; subst. discriminate Ha. }
  split; [exact Hret | split; [exact Hold |]].
  exact (f_equal (fmap error_handler) Hnew).
Defined.

(** C9, as the claim has it, fails: at start-up the library default is
    InternalError, and a call for PIO_DEFAULT with the method 999 does not
    return PIO_EINVAL: it aborts the process. *)
Lemma set_iosystem_error_handling_invalid_aborts :
  default_error_handler initial_state = PIO_INTERNAL_ERROR
  /\ valid_error_handler 999 = false
  /\ seh_ret (PIOc_set_iosystem_error_handling env_ok initial_state
                PIO_DEFAULT 999 true) = Aborts
  /\ seh_ret (PIOc_set_iosystem_error_handling env_ok initial_state
                PIO_DEFAULT 999 true) <> Returns PIO_EINVAL.
Proof. repeat split. discriminate. Qed.

(** ** PIOc_Init_Intracomm *)

Lemma compute_ioranks_length base stride n_io n_comp :
  length (compute_ioranks base stride n_io n_comp) = Z.to_nat n_io.
Proof. unfold compute_ioranks. now rewrite length_fmap, length_seq. Qed.


(** What a call that stores an iosysid has registered. *)
Lemma Init_Intracomm_registered E st comm n_io stride base rearr iosysidp id :
  ii_iosysid (PIOc_Init_Intracomm E st comm n_io stride base rearr iosysidp)
  = Some id ->
  ii_ret (PIOc_Init_Intracomm E st comm n_io stride base rearr iosysidp)
  = Returns PIO_NOERR
  /\ 1 <= n_io /\ wrap_int (n_io * stride) <= (MPI_Comm_size E comm).2
  /\ exists ios,
       pio_iosystem_list
         (ii_state (PIOc_Init_Intracomm E st comm n_io stride base rearr
                      iosysidp)) !! id = Some ios
       /\ num_iotasks ios = n_io
       /\ num_comptasks ios = (MPI_Comm_size E comm).2
       /\ ioranks ios
          = compute_ioranks base stride n_io (MPI_Comm_size E comm).2.
Proof.
  unfold PIOc_Init_Intracomm, pio_add_to_iosystem_list.
  repeat case_match; cbn; try discriminate; intros [= <-];
    match goal with
    | H : negb _ || _ || _ = false |- _ =>
        apply orb_false_elim in H as [H Hprod];
        apply orb_false_elim in H as [_ Hmin]
    end;
    apply Z.ltb_ge in Hmin;
    rewrite Z.gtb_ltb in Hprod; apply Z.ltb_ge in Hprod;
    (repeat split; try assumption);
    (eexists; split; [apply lookup_insert_eq |]; repeat split).
Qed.




(** ** The sort of the map *)

Lemma needssort_loop_spec (l : list Z) (n m : nat) :
  needssort_loop l m n = true
  <-> exists k : nat,
        (m <= k < m + n)%nat /\ (0 < k)%nat /\ 0 < l !!! k
        /\ l !!! k < l !!! (k - 1)%nat.
Proof.
  revert m. induction n as [| n IH]; intros m; cbn [needssort_loop].
  - split; [discriminate | intros (k & Hk & _); lia].
  - destruct ((0 <? m)%nat && (0 <? l !!! m) && (l !!! m <? l !!! (m - 1)%nat))
      eqn:Hhere.
    + split; [intros _ | reflexivity].
      apply andb_prop in Hhere as [Hhere H3].
      apply andb_prop in Hhere as [H1 H2].
      exists m. apply Nat.ltb_lt in H1. apply Z.ltb_lt in H2, H3.
      repeat split; try assumption; lia.
    + rewrite IH. split; intros (k & Hk & Hpos & H2 & H3).
      * exists k. repeat split; try assumption; lia.
      * exists k. repeat split; try assumption; try lia.
        destruct (decide (k = m)) as [-> |]; [| lia].
        exfalso. apply Nat.ltb_lt in Hpos. apply Z.ltb_lt in H2, H3.
        rewrite Hpos, H2, H3 in Hhere. discriminate.
Qed.

Lemma compute_needssort_iff (l : list Z) :
  compute_needssort l = true <-> out_of_order l.
Proof.
  unfold compute_needssort, out_of_order. rewrite needssort_loop_spec.
  split; intros (k & Hk & H); exists k.
  - destruct H as (Hpos & H2 & H3). repeat split; try assumption; lia.
  - destruct H as (H2 & H3). repeat split; try assumption; lia.
Qed.

Lemma compare_ascending (a b : sort_map) :
  ascending compare a b <-> sm_map a <= sm_map b.
Proof.
  unfold ascending, compare.
  destruct (Z.ltb_spec (sm_map a) (sm_map b)); [lia |].
  destruct (Z.gtb_spec (sm_map a) (sm_map b)); lia.
Qed.

Lemma fill_tmpsort_tagged (compmap : list Z) :
  Forall (tagged compmap) (fill_tmpsort compmap).
Proof.
  apply Forall_lookup_2. intros i s Hs. unfold fill_tmpsort in Hs.
  rewrite list_lookup_imap in Hs.
  destruct (compmap !! i) as [x |] eqn:Hx; [| discriminate].
  injection Hs as <-. unfold tagged; cbn.
  rewrite Nat2Z.id. split; [lia | exact Hx].
Qed.

Lemma fill_tmpsort_remap (compmap : list Z) :
  sm_remap <$> fill_tmpsort compmap
  = Z.of_nat <$> seq 0 (length compmap).
Proof.
  apply list_eq. intros i. unfold fill_tmpsort.
  rewrite !list_lookup_fmap, list_lookup_imap.
  destruct (compmap !! i) as [x |] eqn:Hx; cbn.
  - rewrite lookup_seq_lt by (now apply lookup_lt_Some in Hx). reflexivity.
  - rewrite lookup_seq_ge by (now apply lookup_ge_None in Hx). reflexivity.
Qed.

Lemma tagged_read (compmap : list Z) (t : list sort_map) :
  Forall (tagged compmap) t ->
  (fun s => compmap !!! Z.to_nat (sm_remap s)) <$> t = sm_map <$> t.
Proof.
  intros Ht. apply Forall_fmap_ext_1. eapply Forall_impl; [exact Ht |].
  intros s [_ Hs]. now apply list_lookup_total_correct.
Qed.

Lemma Sorted_ascending_keys (t : list sort_map) :
  Sorted (ascending compare) t -> nondecreasing (sm_map <$> t).
Proof.
  unfold nondecreasing. induction 1 as [| s t Ht IH Hhd]; cbn.
  - constructor.
  - constructor; [exact IH |].
    destruct Hhd as [| s' t' Hs]; cbn; constructor.
    now apply compare_ascending.
Qed.

(** What lines 614-637 leave in the descriptor when [qsort] conforms. *)
Lemma sorted_map_spec (E : Env) (compmap : list Z) :
  qsort_conforms E ->
  reads_through compmap (sorted_map E compmap).1 (sorted_map E compmap).2
  /\ nondecreasing (sorted_map E compmap).1
  /\ Permutation (Z.of_nat <$> seq 0 (length compmap))
       (sorted_map E compmap).2.
Proof.
  intros Hq. destruct (Hq (fill_tmpsort compmap)) as [Hperm Hsorted].
  unfold sorted_map. cbn [fst snd].
  set (t := qsort E compare (fill_tmpsort compmap)) in *.
  assert (Htag : Forall (tagged compmap) t).
  { eapply Permutation_Forall; [exact Hperm | apply fill_tmpsort_tagged]. }
  assert (Hlen : length t = length compmap).
  { rewrite <- (Permutation_length Hperm). unfold fill_tmpsort.
    apply length_imap. }
  rewrite (tagged_read _ _ Htag).
  split; [| split].
  - unfold reads_through. rewrite !length_fmap. repeat split; try assumption.
    intros k v Hk. rewrite list_lookup_fmap in Hk.
    destruct (t !! k) as [s |] eqn:Hs; [| discriminate].
    injection Hk as <-.
    exists (sm_remap s). rewrite list_lookup_fmap, Hs.
    rewrite Forall_lookup in Htag. destruct (Htag k s Hs) as [H0 Hread].
    repeat split; assumption.
  - now apply Sorted_ascending_keys.
  - rewrite <- fill_tmpsort_remap. now apply Permutation_map.
Qed.

(** The two sorting functions conform. *)
Section Insertion.
Variable before : sort_map -> sort_map -> bool.
Hypothesis before_true :
  forall x y, before x y = true -> ascending compare x y.
Hypothesis before_false :
  forall x y, before x y = false -> ascending compare y x.

Lemma insert_by_perm x l : Permutation (x :: l) (insert_by before x l).
Proof.
  induction l as [| y l IH]; cbn; [reflexivity |].
  destruct (before x y); [reflexivity |].
  rewrite perm_swap. now apply perm_skip.
Qed.

Lemma insert_by_sorted x l :
  Sorted (ascending compare) l ->
  Sorted (ascending compare) (insert_by before x l).
Proof.
  induction 1 as [| y l Hl IH Hhd]; cbn.
  - repeat constructor.
  - destruct (before x y) eqn:Hxy.
    + constructor; [now constructor |].
      constructor. now apply before_true.
    + constructor; [exact IH |].
      destruct Hhd as [| z l' Hz]; cbn.
      * constructor. now apply before_false.
      * destruct (before x z); constructor;
          [now apply before_false | exact Hz].
Qed.

Lemma insertion_sort_conforms l :
  Permutation l (insertion_sort before l)
  /\ Sorted (ascending compare) (insertion_sort before l).
Proof.
  induction l as [| x l [IHp IHs]]; cbn.
  - split; constructor.
  - split; [| now apply insert_by_sorted].
    etransitivity; [apply perm_skip, IHp | apply insert_by_perm].
Qed.
End Insertion.

Lemma qsort_keeping_order_conforms :
  qsort_conforms (with_qsort qsort_keeping_order env_ok).
Proof.
  intros l. cbn. apply insertion_sort_conforms.
  - intros x y H. apply Z.leb_le in H. exact H.
  - intros x y H. apply Z.leb_gt in H. apply compare_ascending.
    unfold compare in H.
    destruct (Z.ltb_spec (sm_map x) (sm_map y)); [lia |].
    destruct (Z.gtb_spec (sm_map x) (sm_map y)); lia.
Qed.

Lemma qsort_reversing_ties_conforms :
  qsort_conforms (with_qsort qsort_reversing_ties env_ok).
Proof.
  intros l. cbn. apply insertion_sort_conforms.
  - intros x y H. apply Z.ltb_lt in H. unfold ascending. lia.
  - intros x y H. apply Z.ltb_ge in H. apply compare_ascending.
    unfold compare in H.
    destruct (Z.ltb_spec (sm_map x) (sm_map y)); lia.
Qed.

Lemma env_ok_conforms : qsort_conforms env_ok.
Proof. exact qsort_keeping_order_conforms. Qed.

(** ** The phases of PIOc_InitDecomp *)

Lemma remember_map_Next E compmap gdims d0 d1 :
  remember_map E compmap gdims d0 = Next d1 ->
  map_part d1 = expected_map_part E compmap.
Proof.
  unfold remember_map, expected_map_part, map_part.
  destruct (sorted_map E compmap) as [m r] eqn:Hsorted.
  repeat case_match; try discriminate; intros [= <-]; simplify_eq;
    reflexivity.
Qed.

Lemma arrays_kept_refl st : arrays_kept st st.
Proof. intros b c H. exact H. Qed.

Lemma fresh_block_unused (st : pio_state) b contents :
  mem st !! b = Some contents -> b <> fresh (dom (mem st)).
Proof.
  intros Hb ->.
  apply (is_fresh (dom (mem st))). apply elem_of_dom. eauto.
Qed.

(** A temporary that is allocated, written and freed (or leaked) leaves
    the arrays that were there before as they were. *)
Lemma temporary_kept st contents written :
  let '(tmp, st1) := malloc_block contents st in
  arrays_kept st (store tmp written st1)
  /\ arrays_kept st (free_block tmp (store tmp written st1)).
Proof.
  cbn. split; intros b c Hb; cbn.
  - rewrite !lookup_insert_ne; [exact Hb | |];
      intros Heq; symmetry in Heq; revert Heq;
      now apply fresh_block_unused with c.
  - assert (Hne : fresh (dom (mem st)) <> b).
    { intros Heq; symmetry in Heq; revert Heq.
      now apply fresh_block_unused with c. }
    rewrite lookup_delete_ne, !lookup_insert_ne by exact Hne. exact Hb.
Qed.

Lemma create_subset_spec E st ios cm gdims d st' fl :
  create_subset E st ios cm gdims d = (st', fl) ->
  library_part st' = library_part st
  /\ arrays_kept st st'
  /\ (forall d', fl = Next d' -> map_part d' = map_part d).
Proof.
  unfold create_subset.
  pose proof (temporary_kept st (load st cm)) as Htmp.
  destruct (malloc_block (load st cm) st) as [tmp st1] eqn:Hmalloc.
  assert (Hlib1 : library_part st1 = library_part st).
  { unfold malloc_block in Hmalloc. now injection Hmalloc as <- <-. }
  destruct (run_unique_check E (comp_comm ios) (load st1 tmp))
    as [[ierr ro] written].
  specialize (Htmp written). destruct Htmp as [Hstored Hfreed].
  repeat case_match; intros [= <- <-]; simplify_eq;
    (split; [first [reflexivity
                   | unfold library_part in *; cbn; congruence] |
     split; [first [apply arrays_kept_refl | exact Hstored | exact Hfreed] |
             intros d' Hd'; try discriminate; injection Hd' as <-;
             reflexivity]]).
Qed.

Lemma create_box_Next E st ios pio_type gdims iostart iocount d d' :
  create_box E st ios pio_type gdims iostart iocount d = Next d' ->
  map_part d' = map_part d.
Proof.
  unfold create_box.
  repeat case_match; try discriminate; intros [= <-]; simplify_eq;
    reflexivity.
Qed.

Lemma assign_ioid_spec E st ios d :
  let r := assign_ioid E st ios d in
  library_part (id_state r)
  = (default_error_handler st, pio_next_ioid (id_state r),
     pio_iosystem_list st, pio_iodesc_list (id_state r))
  /\ mem (id_state r) = mem st
  /\ (id_ioid r = None -> pio_iodesc_list (id_state r) = pio_iodesc_list st)
  /\ forall id, id_ioid r = Some id ->
       id_ret r = Returns PIO_NOERR
       /\ id = (if async ios then (bcast_next_ioid E (pio_next_ioid st)).2
                else pio_next_ioid st)
       /\ pio_next_ioid (id_state r) = id + 1
       /\ pio_iodesc_list (id_state r)
          = <[id := set_ioid id d]> (pio_iodesc_list st).
Proof.
  unfold assign_ioid, pio_add_to_iodesc_list.
  destruct (async ios);
    [destruct (bcast_next_ioid E (pio_next_ioid st)) as [mpierr next] |];
    cbn; repeat case_match; cbn; simplify_eq;
    (split; [reflexivity |
     split; [reflexivity |
     split; [first [reflexivity | discriminate] |
             intros i Hi; first [discriminate Hi
                                | injection Hi as <-; repeat split]]]]).
Qed.

(** ** PIOc_InitDecomp as a whole *)

Ltac stopped :=
  unfold InitDecomp_effect; repeat split;
  first [ apply arrays_kept_refl | reflexivity | now left
        | intros ? ?; discriminate ].

Lemma InitDecomp_effect_holds E st iosysid pio_type gdimlen compmap ioidp
  rearranger_arg iostart iocount :
  InitDecomp_effect E st iosysid gdimlen compmap ioidp
    (PIOc_InitDecomp E st iosysid pio_type gdimlen compmap ioidp
       rearranger_arg iostart iocount).
Proof.
  unfold PIOc_InitDecomp.
  destruct (pio_get_iosystem_from_id st iosysid) as [ios |] eqn:Hios;
    [| stopped].
  destruct gdimlen as [gdims |]; [| stopped].
  destruct compmap as [cm |]; [| stopped].
  destruct ioidp; [| stopped].
  destruct (existsb _ gdims); [stopped |].
  destruct (if async ios then _ else _) as [[] | o]; [| stopped].
  destruct (malloc_iodesc E ios pio_type _) as [ierr d0].
  destruct (negb (ierr =? 0)); [stopped |].
  destruct (remember_map E (load st cm) gdims d0) as [d1 | c] eqn:Hrem;
    [| stopped].
  apply remember_map_Next in Hrem.
  set (d2 := set_rearranger _ d1).
  assert (Hd2 : map_part d2 = expected_map_part E (load st cm))
    by exact Hrem.
  clearbody d2.
  assert (Hfinish : forall st' d3,
    library_part st' = library_part st -> arrays_kept st st' ->
    map_part d3 = map_part d2 ->
    InitDecomp_effect E st iosysid (Some gdims) (Some cm) true
      (assign_ioid E st' ios d3)).
  { intros st' d3 Hlib Hkept Hd3.
    destruct (assign_ioid_spec E st' ios d3) as (Hlib' & Hmem & Hnone & Hsome).
    unfold library_part in Hlib. injection Hlib as Hh Hn Hs Hl.
    unfold library_part in Hlib'. injection Hlib' as Hh' Hs'.
    unfold InitDecomp_effect.
    split; [| split; [congruence | split; [congruence | split]]].
    - intros b contents Hb. rewrite Hmem. now apply Hkept.
    - intros Hstored. split; [rewrite (Hnone Hstored); exact Hl |].
      unfold assign_ioid in *. rewrite Hn in *.
      destruct (async ios) eqn:Ha.
      + destruct (bcast_next_ioid E (pio_next_ioid st)) as [mpierr next].
        right. exists ios. split; [exact Hios | split; [exact Ha |]].
        destruct (negb (mpierr =? MPI_SUCCESS));
          [reflexivity | discriminate Hstored].
      + discriminate Hstored.
    - intros id Hid. destruct (Hsome id Hid) as (Hret & Hval & Hnext & Hreg).
      exists ios, cm, gdims, (set_ioid id d3).
      rewrite Hn, Hl in *. repeat split; try assumption.
      change (map_part (set_ioid id d3)) with (map_part d3). congruence. }
  destruct (rearranger d2 =? PIO_REARR_SUBSET).
  - destruct (create_subset E st ios cm gdims d2) as [st' fl] eqn:Hsub.
    apply create_subset_spec in Hsub as (Hlib & Hkept & Hmap).
    destruct fl as [d3 | o]; [apply Hfinish; auto |].
    unfold library_part in Hlib. injection Hlib as Hh Hn Hs Hl.
    unfold InitDecomp_effect. cbn. rewrite Hh, Hn, Hs, Hl.
    repeat split;
      first [ exact Hkept | reflexivity | now left | intros ? ?; discriminate ].
  - destruct (create_box E st ios pio_type gdims iostart iocount d2)
      as [d3 | o] eqn:Hbox; [| stopped].
    apply create_box_Next in Hbox.
    apply Hfinish; [reflexivity | apply arrays_kept_refl | exact Hbox].
Qed.

Lemma expected_map_part_sorted E compmap len m r :
  qsort_conforms E ->
  expected_map_part E compmap = (len, m, r, true) ->
  out_of_order compmap
  /\ exists rm,
       r = Some rm /\ reads_through compmap m rm /\ nondecreasing m
       /\ Permutation (Z.of_nat <$> seq 0 (length compmap)) rm.
Proof.
  intros Hq. unfold expected_map_part.
  destruct (compute_needssort compmap) eqn:Hns; [| discriminate].
  intros [= _ <- <-]. split; [now apply compute_needssort_iff |].
  destruct (sorted_map_spec E compmap Hq) as (Hread & Hsorted & Hperm).
  eauto.
Qed.

Lemma expected_map_part_copied E compmap len m r :
  expected_map_part E compmap = (len, m, r, false) ->
  ~ out_of_order compmap /\ r = None /\ m = compmap.
Proof.
  unfold expected_map_part.
  destruct (compute_needssort compmap) eqn:Hns; [discriminate |].
  intros [= _ <- <-]. repeat split.
  rewrite <- compute_needssort_iff, Hns. discriminate.
Qed.

(** The descriptor that a call which stored [id] has registered. *)
Lemma InitDecomp_registered E st iosysid pio_type gdimlen cm ioidp
  rearranger_arg iostart iocount id :
  id_ioid (PIOc_InitDecomp E st iosysid pio_type gdimlen (Some cm) ioidp
             rearranger_arg iostart iocount) = Some id ->
  exists d,
    pio_iodesc_list
      (id_state (PIOc_InitDecomp E st iosysid pio_type gdimlen (Some cm)
                   ioidp rearranger_arg iostart iocount)) !! id = Some d
    /\ ioid d = id
    /\ map_part d = expected_map_part E (load st cm).
Proof.
  intros Hid.
  destruct (InitDecomp_effect_holds E st iosysid pio_type gdimlen (Some cm)
              ioidp rearranger_arg iostart iocount)
    as (_ & _ & _ & _ & Hsome).
  destruct (Hsome id Hid)
    as (ios & cm' & gdims & d & _ & [= <-] & _ & _ & _ & _ & _ & Hreg & Hd
        & Hmap).
  exists d. rewrite Hreg. split; [apply lookup_insert_eq | auto].
Qed.

Lemma in_order_positive_sorted (l : list Z) :
  Forall (fun x => 0 < x) l -> compute_needssort l = false ->
  nondecreasing l.
Proof.
  intros Hpos Hns. apply not_true_iff_false in Hns.
  rewrite compute_needssort_iff in Hns. unfold nondecreasing.
  induction Hpos as [| a l Ha Hl IH]; [constructor |].
  constructor.
  - apply IH. intros (k & Hk & H1 & H2). apply Hns.
    exists (S k). cbn [length]. split; [lia |].
    replace (S k - 1)%nat with (S (k - 1)) by lia. cbn. auto.
  - destruct l as [| b l]; constructor.
    apply Z.nlt_ge. intros Hlt. apply Hns. exists 1%nat. cbn.
    apply Forall_cons in Hl as [Hb _]. repeat split; try lia.
Qed.

(** C1, as the code has it.  For a conforming [qsort] and a call that
    returns PIO_NOERR and stores [id]: the registered descriptor either has
    needssort set, and then remap is present, map'[k] = compmap[remap[k]]
    for every k and map' is nondecreasing; or has needssort clear, and then
    remap is NULL and map' is the caller's array element for element, which
    is nondecreasing when it has no holes, that is, when every entry is
    positive.  The order test leaves holes (entries that are not positive)
    out of account, so of a map with holes that is stored as it is only
    the element-for-element copy is stated. *)
Theorem InitDecomp_map_and_remap (E : Env) (st : pio_state)
  (iosysid pio_type : Z) (gdimlen : option (list Z)) (cm : block)
  (ioidp : bool) (rearranger_arg : option Z)
  (iostart iocount : option (list Z)) (id : Z) :
  qsort_conforms E ->
  let r := PIOc_InitDecomp E st iosysid pio_type gdimlen (Some cm) ioidp
             rearranger_arg iostart iocount in
  id_ret r = Returns PIO_NOERR ->
  id_ioid r = Some id ->
  exists d,
    pio_iodesc_list (id_state r) !! id = Some d
    /\ (needssort d = true ->
        exists rm,
          remap d = Some rm
          /\ reads_through (load st cm) (map d) rm
          /\ nondecreasing (map d))
    /\ (needssort d = false ->
        remap d = None /\ map d = load st cm
        /\ (Forall (fun x => 0 < x) (load st cm) -> nondecreasing (map d))).
Proof.
  intros Hq r _ Hid.
  destruct (InitDecomp_registered _ _ _ _ _ _ _ _ _ _ _ Hid)
    as (d & Hd & _ & Hmap).
  exists d. split; [exact Hd |].
  unfold map_part in Hmap. split; intros Hns; rewrite Hns in Hmap;
    symmetry in Hmap.
  - destruct (expected_map_part_sorted _ _ _ _ _ Hq Hmap)
      as (_ & rm & Hrm & Hread & Hsorted & _).
    eauto.
  - destruct (expected_map_part_copied _ _ _ _ _ Hmap) as (Hord & Hr & Hm).
    rewrite Hm. split; [exact Hr | split; [reflexivity |]].
    intros Hpos. apply in_order_positive_sorted; [exact Hpos |].
    apply not_true_is_false. now rewrite compute_needssort_iff.
Qed.

Lemma InitDecomp_map_and_remap_witness :
  let r := PIOc_InitDecomp env_ok
             (demo_state (demo_ios PIO_RETURN_ERROR PIO_REARR_BOX false)
                [3; 1; 2])
             2048 4 (Some [16]) (Some 1%positive) true None None None in
  exists d,
    pio_iodesc_list (id_state r) !! 512 = Some d
    /\ map d = [1; 2; 3] /\ remap d = Some [1; 2; 0]
    /\ nondecreasing (map d).
Proof.
  intros r.
  destruct (InitDecomp_map_and_remap env_ok
              (demo_state (demo_ios PIO_RETURN_ERROR PIO_REARR_BOX false)
                 [3; 1; 2])
              2048 4 (Some [16]) 1%positive true None None None 512
              env_ok_conforms eq_refl eq_refl)
    as (d & Hd & Hsort & _).
  exists d. split; [exact Hd |].
  assert (Hd' : Some d = pio_iodesc_list (id_state r) !! 512)
    by (symmetry; exact Hd).
  vm_compute in Hd'. injection Hd' as ->.
  repeat split; try reflexivity.
  destruct (Hsort eq_refl) as (rm & _ & _ & Hnd). exact Hnd.
Defined.

(** C1, as the claim has it, fails: the map [5; 0] is accepted, needssort
    stays clear (the entry 0 is a hole, which the test of line 607 skips),
    and the stored map [5; 0] is not nondecreasing. *)
Lemma InitDecomp_unsorted_map_kept :
  id_ret (PIOc_InitDecomp env_ok
            (demo_state (demo_ios PIO_RETURN_ERROR PIO_REARR_BOX false)
               [5; 0])
            2048 4 (Some [16]) (Some 1%positive) true None None None)
  = Returns PIO_NOERR
  /\ exists d,
       pio_iodesc_list
         (id_state (PIOc_InitDecomp env_ok
            (demo_state (demo_ios PIO_RETURN_ERROR PIO_REARR_BOX false)
               [5; 0])
            2048 4 (Some [16]) (Some 1%positive) true None None None))
       !! 512 = Some d
       /\ needssort d = false /\ remap d = None /\ map d = [5; 0]
       /\ ~ nondecreasing (map d).
Proof.
  split; [reflexivity |].
  eexists. split; [vm_compute; reflexivity |].
  repeat split. cbn. intros Hsorted.
  inversion Hsorted as [| ? ? _ Hhd]; subst.
  inversion Hhd as [| ? ? Hle]; subst. lia.
Qed.

(** C2, as the code has it.  For a call that returns PIO_NOERR and stores
    [id], needssort is set in the registered descriptor exactly when some
    index k with 0 < k < maplen has compmap[k] > 0 and
    compmap[k] < compmap[k-1]; when it is set and [qsort] conforms, remap is
    a permutation of 0 .. maplen-1, map'[k] = compmap[remap[k]] and map' is
    nondecreasing.  The order in which equal entries end up is the one
    [qsort] leaves, which C does not fix. *)
Theorem InitDecomp_needssort (E : Env) (st : pio_state)
  (iosysid pio_type : Z) (gdimlen : option (list Z)) (cm : block)
  (ioidp : bool) (rearranger_arg : option Z)
  (iostart iocount : option (list Z)) (id : Z) :
  let r := PIOc_InitDecomp E st iosysid pio_type gdimlen (Some cm) ioidp
             rearranger_arg iostart iocount in
  id_ret r = Returns PIO_NOERR ->
  id_ioid r = Some id ->
  exists d,
    pio_iodesc_list (id_state r) !! id = Some d
    /\ (needssort d = true <-> out_of_order (load st cm))
    /\ (qsort_conforms E -> needssort d = true ->
        exists rm,
          remap d = Some rm
          /\ Permutation (Z.of_nat <$> seq 0 (length (load st cm))) rm
          /\ reads_through (load st cm) (map d) rm
          /\ nondecreasing (map d)).
Proof.
  intros r _ Hid.
  destruct (InitDecomp_registered _ _ _ _ _ _ _ _ _ _ _ Hid)
    as (d & Hd & _ & Hmap).
  exists d. split; [exact Hd |]. split.
  - rewrite <- compute_needssort_iff.
    unfold map_part, expected_map_part in Hmap.
    destruct (compute_needssort (load st cm)); injection Hmap as _ _ _ ->;
      tauto.
  - intros Hq Hns. unfold map_part in Hmap. rewrite Hns in Hmap.
    symmetry in Hmap.
    destruct (expected_map_part_sorted _ _ _ _ _ Hq Hmap)
      as (_ & rm & Hrm & Hread & Hsorted & Hperm).
    eauto.
Qed.

Lemma InitDecomp_needssort_witness :
  let r := PIOc_InitDecomp env_ok
             (demo_state (demo_ios PIO_RETURN_ERROR PIO_REARR_SUBSET false)
                [3; 1; 2])
             2048 4 (Some [16]) (Some 1%positive) true None None None in
  exists d,
    pio_iodesc_list (id_state r) !! 512 = Some d
    /\ (needssort d = true <-> out_of_order [3; 1; 2]).
Proof.
  intros r.
  destruct (InitDecomp_needssort env_ok
              (demo_state (demo_ios PIO_RETURN_ERROR PIO_REARR_SUBSET false)
                 [3; 1; 2])
              2048 4 (Some [16]) 1%positive true None None None 512
              eq_refl eq_refl)
    as (d & Hd & Hiff & _).
  exists d. split; [exact Hd | exact Hiff].
Defined.

(** C2, as the claim has it, fails for the stability: a [qsort] that
    conforms to the C standard may return equal records in any order.  With
    one that reverses them, the map [2; 1; 1] is sorted to [1; 1; 2] with
    remap [2; 1; 0]: the two entries 1 have changed places. *)
Lemma InitDecomp_sort_not_stable :
  qsort_conforms (with_qsort qsort_reversing_ties env_ok)
  /\ id_ret (PIOc_InitDecomp (with_qsort qsort_reversing_ties env_ok)
       (demo_state (demo_ios PIO_RETURN_ERROR PIO_REARR_BOX false) [2; 1; 1])
       2048 4 (Some [16]) (Some 1%positive) true None None None)
     = Returns PIO_NOERR
  /\ exists d,
       pio_iodesc_list
         (id_state (PIOc_InitDecomp (with_qsort qsort_reversing_ties env_ok)
            (demo_state (demo_ios PIO_RETURN_ERROR PIO_REARR_BOX false)
               [2; 1; 1])
            2048 4 (Some [16]) (Some 1%positive) true None None None))
       !! 512 = Some d
       /\ needssort d = true /\ map d = [1; 1; 2]
       /\ remap d = Some [2; 1; 0]
       /\ ~ stable_remap [1; 1; 2] [2; 1; 0].
Proof.
  split; [exact qsort_reversing_ties_conforms |].
  split; [reflexivity |].
  eexists. split; [vm_compute; reflexivity |].
  repeat split. intros Hstable.
  specialize (Hstable 0%nat 1%nat 1 2 1).
  assert (2 < 1); [| lia].
  apply Hstable; [lia | reflexivity ..].
Qed.

(** ** The caller's compmap *)

(** C8.  Whatever the duplicate check, the rearrangers and MPI do with the
    arrays they are handed, and however the call ends, the caller's compmap
    array holds after PIOc_InitDecomp what it held before: the duplicate
    check of the subset rearranger is given a private copy. *)
Theorem InitDecomp_keeps_compmap (E : Env) (st : pio_state)
  (iosysid pio_type : Z) (gdimlen : option (list Z)) (cm : block)
  (ioidp : bool) (rearranger_arg : option Z)
  (iostart iocount : option (list Z)) (contents : list Z) :
  mem st !! cm = Some contents ->
  mem (id_state (PIOc_InitDecomp E st iosysid pio_type gdimlen (Some cm)
                   ioidp rearranger_arg iostart iocount)) !! cm
  = Some contents.
Proof.
  intros Hcm.
  destruct (InitDecomp_effect_holds E st iosysid pio_type gdimlen (Some cm)
              ioidp rearranger_arg iostart iocount) as (Hkept & _).
  now apply Hkept.
Qed.

(** An instance: the subset rearranger on a computation task, with a
    duplicate check that overwrites the array it is given with zeros. *)
Lemma InitDecomp_keeps_compmap_witness :
  run_unique_check env_ok (MPI_Comm_handle 2) [4; 4; 2] = (0, false, [0; 0; 0])
  /\ mem (id_state (PIOc_InitDecomp env_ok
            (demo_state (demo_ios PIO_RETURN_ERROR PIO_REARR_SUBSET false)
               [4; 4; 2])
            2048 4 (Some [16]) (Some 1%positive) true None None None))
     !! 1%positive = Some [4; 4; 2].
Proof.
  split; [reflexivity |].
  apply (InitDecomp_keeps_compmap env_ok
           (demo_state (demo_ios PIO_RETURN_ERROR PIO_REARR_SUBSET false)
              [4; 4; 2])
           2048 4 (Some [16]) 1%positive true None None None [4; 4; 2]).
  reflexivity.
Defined.

(** ** The error returns of PIOc_InitDecomp *)

Lemma dims_checked_bad (gdims : list Z) (i : nat) (len : Z) :
  gdims !! i = Some len -> len <= 0 ->
  existsb (fun len => len <=? 0) gdims = true.
Proof.
  intros Hi Hlen. apply existsb_exists. exists len. split.
  - apply list_elem_of_In, list_elem_of_lookup. eauto.
  - now apply Z.leb_le.
Qed.

Lemma dims_checked_good (gdims : list Z) :
  Forall (fun len => 0 < len) gdims ->
  existsb (fun len => len <=? 0) gdims = false.
Proof.
  intros Hall. apply not_true_is_false. intros Hex.
  apply existsb_exists in Hex as (len & Hin & Hlen).
  apply Z.leb_le in Hlen. rewrite Forall_forall in Hall.
  apply list_elem_of_In in Hin. specialize (Hall len Hin). lia.
Qed.

Lemma remember_map_alloc_fails E compmap gdims d0 :
  negb (alloc_map E)
  || (compute_needssort compmap
      && (negb (alloc_tmpsort E) || negb (alloc_remap E)))
  || negb (alloc_dimlen E) = true ->
  remember_map E compmap gdims d0 = Leave PIO_ENOMEM.
Proof.
  unfold remember_map.
  destruct (alloc_map E), (compute_needssort compmap), (alloc_tmpsort E),
    (alloc_remap E), (alloc_dimlen E); cbn; try discriminate;
    try reflexivity; destruct (sorted_map E compmap); reflexivity.
Qed.

Lemma remember_map_alloc_ok E compmap gdims d0 :
  negb (alloc_map E)
  || (compute_needssort compmap
      && (negb (alloc_tmpsort E) || negb (alloc_remap E)))
  || negb (alloc_dimlen E) = false ->
  exists d1, remember_map E compmap gdims d0 = Next d1.
Proof.
  unfold remember_map.
  destruct (alloc_map E), (compute_needssort compmap), (alloc_tmpsort E),
    (alloc_remap E), (alloc_dimlen E); cbn; try discriminate;
    try (destruct (sorted_map E compmap)); eauto.
Qed.

(** C3, as the code has it.  For a registered iosystem [ios]:
    - a NULL gdimlen, compmap or ioidp, or a dimension length that is not
      positive, is reported as PIO_EINVAL;
    - on an async iosystem, once the arguments are valid and the parameter
      exchange has gone through, a rearranger argument that differs from the
      iosystem's default is reported as PIO_EBADREARR;
    - once these checks are passed, an allocation that fails for the
      descriptor (malloc_iodesc answering PIO_ENOMEM), the map, the sort or
      the dimension lengths is reported as PIO_ENOMEM;
    where "reported" is through pio_err: the code is returned unless the
    handler of the iosystem is InternalError, and under InternalError the
    process is aborted;
    - the allocation of the copy for the duplicate check (line 667) is the
      one failure that returns PIO_ENOMEM whatever the handler;
    and in each case no decomposition is registered and no id is used. *)
Theorem InitDecomp_errors (E : Env) (st : pio_state) (iosysid pio_type : Z)
  (gdimlen : option (list Z)) (compmap : option block) (ioidp : bool)
  (rearranger_arg : option Z) (iostart iocount : option (list Z))
  (ios : iosystem_desc_t) :
  pio_get_iosystem_from_id st iosysid = Some ios ->
  let r := PIOc_InitDecomp E st iosysid pio_type gdimlen compmap ioidp
             rearranger_arg iostart iocount in
  ((gdimlen = None \/ compmap = None \/ ioidp = false
    \/ exists gdims i len,
         gdimlen = Some gdims /\ gdims !! i = Some len /\ len <= 0) ->
   reported st (Some ios) PIO_EINVAL (id_ret r)
   /\ nothing_registered st r)
  /\ (forall gdims cm rr,
        gdimlen = Some gdims -> compmap = Some cm -> ioidp = true ->
        Forall (fun len => 0 < len) gdims ->
        async ios = true -> async_exchange E ios true = Next tt ->
        rearranger_arg = Some rr -> rr <> default_rearranger ios ->
        reported st (Some ios) PIO_EBADREARR (id_ret r)
        /\ nothing_registered st r)
  /\ (forall gdims cm,
        gdimlen = Some gdims -> compmap = Some cm -> ioidp = true ->
        Forall (fun len => 0 < len) gdims ->
        (if async ios then async_params E st ios rearranger_arg
         else Next tt) = Next tt ->
        ((malloc_iodesc E ios pio_type (Z.of_nat (length gdims))).1
         = PIO_ENOMEM
         \/ ((malloc_iodesc E ios pio_type (Z.of_nat (length gdims))).1 = 0
             /\ map_allocation_fails E (load st cm) = true)) ->
        reported st (Some ios) PIO_ENOMEM (id_ret r)
        /\ nothing_registered st r)
  /\ (forall gdims cm,
        gdimlen = Some gdims -> compmap = Some cm -> ioidp = true ->
        Forall (fun len => 0 < len) gdims ->
        (if async ios then async_params E st ios rearranger_arg
         else Next tt) = Next tt ->
        (malloc_iodesc E ios pio_type (Z.of_nat (length gdims))).1 = 0 ->
        map_allocation_fails E (load st cm) = false ->
        rearranger_used ios rearranger_arg = PIO_REARR_SUBSET ->
        compproc ios = true -> alloc_tmpmap E = false ->
        id_ret r = Returns PIO_ENOMEM /\ nothing_registered st r).
Proof.
  intros Hios r. subst r. unfold PIOc_InitDecomp. rewrite Hios.
  split; [| split; [| split]].
  - intros Hbad.
    assert (Hstop : forall o,
      o = pio_err st (Some ios) PIO_EINVAL ->
      reported st (Some ios) PIO_EINVAL
        (id_ret {| id_ret := o; id_ioid := None; id_state := st |})
      /\ nothing_registered st
           {| id_ret := o; id_ioid := None; id_state := st |}).
    { intros o ->. split; [apply pio_err_reported | repeat split]. }
    destruct Hbad as [-> | [-> | [-> | (gdims & i & len & -> & Hi & Hlen)]]].
    + now apply Hstop.
    + destruct gdimlen; now apply Hstop.
    + destruct gdimlen, compmap; now apply Hstop.
    + destruct compmap, ioidp; try now apply Hstop.
      rewrite (dims_checked_bad _ _ _ Hi Hlen). now apply Hstop.
  - intros gdims cm rr -> -> -> Hdims Hasync Hexch -> Hrr.
    rewrite (dims_checked_good _ Hdims), Hasync.
    unfold async_params. rewrite Hexch.
    apply Z.eqb_neq in Hrr. rewrite Hrr. cbn.
    split; [apply pio_err_reported | repeat split].
  - intros gdims cm -> -> -> Hdims Hparams Halloc.
    rewrite (dims_checked_good _ Hdims), Hparams.
    destruct (malloc_iodesc E ios pio_type (Z.of_nat (length gdims)))
      as [ierr d0]. cbn [fst] in Halloc.
    destruct Halloc as [-> | [-> Halloc]]; cbn.
    { split; [apply pio_err_reported | repeat split]. }
    unfold map_allocation_fails in Halloc.
    rewrite (remember_map_alloc_fails _ _ _ _ Halloc). cbn.
    split; [apply pio_err_reported | repeat split].
  - intros gdims cm -> -> -> Hdims Hparams Hdesc Hmap Hsubset Hcomp Htmp.
    rewrite (dims_checked_good _ Hdims), Hparams.
    destruct (malloc_iodesc E ios pio_type (Z.of_nat (length gdims)))
      as [ierr d0]. cbn [fst] in Hdesc. subst ierr. cbn [negb Z.eqb].
    unfold map_allocation_fails in Hmap.
    destruct (remember_map_alloc_ok _ (load st cm) gdims d0 Hmap) as [d1 ->].
    unfold rearranger_used in Hsubset. cbn [rearranger set_rearranger].
    rewrite Hsubset, Z.eqb_refl. unfold create_subset.
    rewrite Hcomp, Htmp. cbn.
    split; [reflexivity | repeat split].
Qed.

Lemma InitDecomp_errors_witness :
  let st := demo_state (demo_ios PIO_RETURN_ERROR PIO_REARR_BOX true) [1; 2] in
  id_ret (PIOc_InitDecomp env_ok st 2048 4 (Some [16; 0]) (Some 1%positive)
            true None None None) = Returns PIO_EINVAL
  /\ id_ret (PIOc_InitDecomp env_ok st 2048 4 (Some [16]) (Some 1%positive)
               true (Some PIO_REARR_SUBSET) None None)
     = Returns PIO_EBADREARR
  /\ pio_iodesc_list
       (id_state (PIOc_InitDecomp env_ok st 2048 4 (Some [16])
                    (Some 1%positive) true (Some PIO_REARR_SUBSET) None None))
     = pio_iodesc_list st.
Proof.
  intros st.
  assert (Hdims : Forall (fun len => 0 < len) [16])
    by (constructor; [reflexivity | constructor]).
  assert (Hne : PIO_REARR_SUBSET <> PIO_REARR_BOX) by discriminate.
  destruct (InitDecomp_errors env_ok st 2048 4 (Some [16; 0])
              (Some 1%positive) true None None None
              (demo_ios PIO_RETURN_ERROR PIO_REARR_BOX true) eq_refl)
    as (Hinval & _).
  destruct (InitDecomp_errors env_ok st 2048 4 (Some [16])
              (Some 1%positive) true (Some PIO_REARR_SUBSET) None None
              (demo_ios PIO_RETURN_ERROR PIO_REARR_BOX true) eq_refl)
    as (_ & Hrearr & _).
  destruct (Hrearr [16] 1%positive PIO_REARR_SUBSET eq_refl eq_refl eq_refl
              Hdims eq_refl eq_refl eq_refl Hne) as [[Hfail _] (Hreg & _)].
  split; [| split; [| exact Hreg]].
  - destruct Hinval as [[Hbad _] _].
    { right; right; right. exists [16; 0], 1%nat, 0.
      split; [reflexivity | split; [reflexivity | lia]]. }
    apply Hbad. discriminate.
  - apply Hfail. discriminate.
Defined.

(** C3, as the claim has it, fails: on an iosystem whose handler is
    InternalError (the handler that a new iosystem inherits from the
    library at start-up), a call with a NULL gdimlen does not return
    PIO_EINVAL: it aborts the process. *)
Lemma InitDecomp_invalid_argument_aborts :
  id_ret (PIOc_InitDecomp env_ok
            (demo_state (demo_ios PIO_INTERNAL_ERROR PIO_REARR_BOX false)
               [1; 2])
            2048 4 None (Some 1%positive) true None None None)
  = Aborts
  /\ id_ret (PIOc_InitDecomp env_ok
               (demo_state (demo_ios PIO_INTERNAL_ERROR PIO_REARR_BOX false)
                  [1; 2])
               2048 4 None (Some 1%positive) true None None None)
     <> Returns PIO_EINVAL.
Proof. split; [reflexivity | discriminate]. Qed.

(** ** Decomposition ids *)








(** ** PIOc_init_decomp *)

Lemma load_store b contents st : load (store b contents st) b = contents.
Proof. unfold load, store. cbn. now rewrite lookup_insert_eq. Qed.

Lemma pio_err_library st st' ios code :
  library_part st = library_part st' ->
  pio_err st ios code = pio_err st' ios code.
Proof.
  unfold library_part. intros [= Hh _ _ _].
  unfold pio_err, handler_in_force. destruct ios; [reflexivity |].
  now rewrite Hh.
Qed.

Lemma create_subset_contents E st st' ios cm cm' gdims d :
  library_part st = library_part st' ->
  load st cm = load st' cm' ->
  (create_subset E st ios cm gdims d).2
  = (create_subset E st' ios cm' gdims d).2
  /\ library_part (create_subset E st ios cm gdims d).1
     = library_part (create_subset E st' ios cm' gdims d).1.
Proof.
  intros Hlib Hload. unfold create_subset, malloc_block.
  rewrite !load_store, Hload.
  change (pio_err st (Some ios)) with (pio_err st' (Some ios)).
  destruct (compproc ios); [| cbn; repeat case_match; cbn; auto].
  destruct (negb (alloc_tmpmap E)); [cbn; auto |].
  destruct (run_unique_check E (comp_comm ios) (load st' cm'))
    as [[ierr ro] written].
  destruct (negb (ierr =? 0)); cbn; [auto |].
  repeat case_match; cbn; auto.
Qed.

Lemma assign_ioid_library E st st' ios d :
  library_part st = library_part st' ->
  id_ret (assign_ioid E st ios d) = id_ret (assign_ioid E st' ios d)
  /\ id_ioid (assign_ioid E st ios d) = id_ioid (assign_ioid E st' ios d)
  /\ library_part (id_state (assign_ioid E st ios d))
     = library_part (id_state (assign_ioid E st' ios d)).
Proof.
  unfold library_part. intros [= Hh Hn Hs Hl].
  unfold assign_ioid, pio_add_to_iodesc_list. rewrite Hn.
  change (pio_err st (Some ios)) with (pio_err st' (Some ios)).
  destruct (if async ios then bcast_next_ioid E (pio_next_ioid st')
            else (MPI_SUCCESS, pio_next_ioid st')) as [mpierr next].
  cbn. repeat case_match; cbn; repeat split; congruence.
Qed.

(** PIOc_InitDecomp reads the caller's array and the library state, not the
    place where the array is. *)
Lemma InitDecomp_contents E st st' iosysid pio_type gdimlen cm cm' ioidp
  rearranger_arg iostart iocount :
  library_part st = library_part st' ->
  load st cm = load st' cm' ->
  let r := PIOc_InitDecomp E st iosysid pio_type gdimlen (Some cm) ioidp
             rearranger_arg iostart iocount in
  let r' := PIOc_InitDecomp E st' iosysid pio_type gdimlen (Some cm') ioidp
              rearranger_arg iostart iocount in
  id_ret r = id_ret r' /\ id_ioid r = id_ioid r'
  /\ library_part (id_state r) = library_part (id_state r').
Proof.
  intros Hlib Hload r r'. subst r r'.
  pose proof Hlib as Hfields. unfold library_part in Hfields.
  injection Hfields as Hh Hn Hs Hl.
  unfold PIOc_InitDecomp, pio_get_iosystem_from_id. rewrite Hs, Hload.
  destruct (pio_iosystem_list st' !! iosysid) as [ios |];
    [| cbn; rewrite (pio_err_library st st' None _ Hlib); auto].
  change (pio_err st (Some ios)) with (pio_err st' (Some ios)).
  change (async_params E st ios) with (async_params E st' ios).
  change (create_box E st ios) with (create_box E st' ios).
  destruct gdimlen as [gdims |]; [| cbn; auto].
  destruct ioidp; [| cbn; auto].
  destruct (existsb _ gdims); [cbn; auto |].
  destruct (if async ios then _ else _) as [[] | o]; [| cbn; auto].
  destruct (malloc_iodesc E ios pio_type _) as [ierr d0].
  destruct (negb (ierr =? 0)); [cbn; auto |].
  destruct (remember_map E (load st' cm') gdims d0) as [d1 | c];
    [| cbn; auto].
  set (d2 := set_rearranger _ d1). clearbody d2.
  destruct (rearranger d2 =? PIO_REARR_SUBSET).
  - destruct (create_subset_contents E st st' ios cm cm' gdims d2 Hlib Hload)
      as [Hflow Hlib'].
    destruct (create_subset E st ios cm gdims d2) as [st1 fl].
    destruct (create_subset E st' ios cm' gdims d2) as [st1' fl'].
    cbn in Hflow, Hlib'. subst fl'.
    destruct fl as [d3 | o]; [now apply assign_ioid_library | cbn; auto].
  - destruct (create_box E st' ios pio_type gdims iostart iocount d2)
      as [d3 | o]; [now apply assign_ioid_library | cbn; auto].
Qed.

(** C6.  When the wrapper's own allocation succeeds, PIOc_init_decomp on a
    0-based compmap returns what PIOc_InitDecomp returns on an array holding
    compmap[e] + 1 for every e, stores the same id and leaves the same
    library state (the same registered decomposition and next id), the
    rearranger being passed by pointer exactly when it is not 0; the
    caller's 0-based array is left as it was. *)
Theorem init_decomp_adds_one (E : Env) (st : pio_state)
  (iosysid pio_type : Z) (gdimlen : option (list Z)) (compmap : block)
  (ioidp : bool) (rearranger_arg : Z) (iostart iocount : option (list Z))
  (st1 : pio_state) (one_based : block) :
  alloc_compmap_1_based E = true ->
  library_part st1 = library_part st ->
  load st1 one_based = (fun e => e + 1) <$> load st compmap ->
  let r := PIOc_init_decomp E st iosysid pio_type gdimlen compmap ioidp
             rearranger_arg iostart iocount in
  let r1 := PIOc_InitDecomp E st1 iosysid pio_type gdimlen (Some one_based)
              ioidp
              (if rearranger_arg =? 0 then None else Some rearranger_arg)
              iostart iocount in
  id_ret r = id_ret r1 /\ id_ioid r = id_ioid r1
  /\ library_part (id_state r) = library_part (id_state r1)
  /\ arrays_kept st (id_state r).
Proof.
  intros Halloc Hlib Hload r r1. subst r r1.
  unfold PIOc_init_decomp. rewrite Halloc. cbn [negb].
  unfold malloc_block.
  set (tmp := fresh (dom (mem st))).
  set (st0 := store tmp ((fun e => e + 1) <$> load st compmap) st).
  assert (Hlib0 : library_part st0 = library_part st1)
    by (rewrite Hlib; reflexivity).
  assert (Hload0 : load st0 tmp = load st1 one_based)
    by (rewrite Hload; apply load_store).
  destruct (InitDecomp_contents E st0 st1 iosysid pio_type gdimlen tmp
              one_based ioidp
              (if rearranger_arg =? 0 then None else Some rearranger_arg)
              iostart iocount Hlib0 Hload0) as (Hret & Hid & Hstate).
  cbn [id_ret id_ioid id_state].
  split; [exact Hret | split; [exact Hid | split; [exact Hstate |]]].
  destruct (InitDecomp_effect_holds E st0 iosysid pio_type gdimlen (Some tmp)
              ioidp
              (if rearranger_arg =? 0 then None else Some rearranger_arg)
              iostart iocount) as (Hkept & _).
  intros b contents Hb.
  assert (Hne : tmp <> b).
  { intros Heq. symmetry in Heq. revert Heq.
    now apply fresh_block_unused with contents. }
  cbn. rewrite lookup_delete_ne by exact Hne.
  apply Hkept. cbn. now rewrite lookup_insert_ne by exact Hne.
Qed.

(** The caller passes [1; -1; 0] (0-based, -1 for a slot that is not
    transferred); the comparison call is given [2; 0; 1]. *)
Lemma init_decomp_adds_one_witness :
  let ios := demo_ios PIO_RETURN_ERROR PIO_REARR_BOX false in
  let r := PIOc_init_decomp env_ok (demo_state ios [1; -1; 0]) 2048 4
             (Some [16]) 1%positive true 0 None None in
  let r1 := PIOc_InitDecomp env_ok (demo_state ios [2; 0; 1]) 2048 4
              (Some [16]) (Some 1%positive) true None None None in
  id_ret r = Returns PIO_NOERR
  /\ id_ret r = id_ret r1 /\ id_ioid r = id_ioid r1
  /\ pio_iodesc_list (id_state r) = pio_iodesc_list (id_state r1)
  /\ mem (id_state r) !! 1%positive = Some [1; -1; 0].
Proof.
  intros ios r r1.
  destruct (init_decomp_adds_one env_ok (demo_state ios [1; -1; 0]) 2048 4
              (Some [16]) 1%positive true 0 None None
              (demo_state ios [2; 0; 1]) 1%positive
              eq_refl eq_refl eq_refl)
    as (Hret & Hid & Hstate & Hkept).
  split; [reflexivity | split; [exact Hret | split; [exact Hid |]]].
  split; [| apply Hkept; reflexivity].
  exact (f_equal snd Hstate).
Defined.

(** ** The block decomposition of PIOc_InitDecomp_bc *)

Lemma foldl_wrap_mul_lookup (l : list Z) (a : Z) :
  foldl (fun m i => wrap_int (m * l !!! i)) (wrap_int a) (seq 0 (length l))
  = wrap_int (a * Zprod l).
Proof.
  revert a. induction l as [| x l IH]; intros a; cbn [length seq foldl].
  - unfold Zprod. cbn. f_equal. lia.
  - rewrite <- fmap_S_seq, foldl_fmap.
    change (foldl (fun m i => wrap_int (m * l !!! i))
              (wrap_int (wrap_int a * x)) (seq 0 (length l))
            = wrap_int (a * (x * Zprod l))).
    rewrite wrap_int_mul_l, IH. f_equal. lia.
Qed.

(** The int [maplen] holds the product of the counts, modulo 2^32. *)
Lemma bc_maplen_wrapped (count : list Z) :
  bc_maplen (length count) count = wrap_int (Zprod count).
Proof.
  unfold bc_maplen. change 1 with (wrap_int 1) at 1.
  rewrite foldl_wrap_mul_lookup. f_equal. lia.
Qed.

Lemma bc_maplen_prod (count : list Z) :
  in_int (Zprod count) -> bc_maplen (length count) count = Zprod count.
Proof.
  intros Hint. rewrite bc_maplen_wrapped. now apply wrap_int_small.
Qed.

Lemma foldr_entry (s l p : list Z) (a : Z) :
  length l = length s -> length p = length s ->
  foldr (fun n e => e + (s !!! n + l !!! n) * p !!! n) a (seq 0 (length s))
  = a + dot (zip_with Z.add s l) p.
Proof.
  revert l p. induction s as [| x s IH]; intros [| y l] [| q p] Hl Hp;
    try discriminate; cbn [length seq foldr zip_with dot].
  - lia.
  - rewrite <- fmap_S_seq, foldr_fmap.
    change (foldr (fun n e => e + (s !!! n + l !!! n) * p !!! n) a
              (seq 0 (length s)) + (x + y) * q
            = a + ((x + y) * q + dot (zip_with Z.add s l) p)).
    rewrite IH by (cbn in *; lia). lia.
Qed.

Lemma bc_prod_loop_spec (g : list Z) (k : nat) :
  (k < length g)%nat ->
  bc_prod_loop g k (replicate k 0 ++ suffix_prods (drop k g))
  = suffix_prods g.
Proof.
  induction k as [| n IH]; intros Hk; [reflexivity |].
  cbn [bc_prod_loop].
  destruct (lookup_lt_is_Some_2 g (S n) Hk) as [x Hx].
  destruct (lookup_lt_is_Some_2 g n ltac:(lia)) as [y Hy].
  rewrite (drop_S g x (S n) Hx). cbn [suffix_prods].
  rewrite (list_lookup_total_middle (replicate (S n) 0) _ _ (S n))
    by (now rewrite length_replicate).
  rewrite (list_lookup_total_correct g (S n) x Hx).
  rewrite replicate_S_end, <- app_assoc. cbn [app].
  rewrite insert_app_r_alt by (rewrite length_replicate; lia).
  rewrite length_replicate, Nat.sub_diag. cbn [insert list_insert].
  rewrite <- IH by lia.
  rewrite (drop_S g y n Hy), (drop_S g x (S n) Hx). cbn [suffix_prods].
  do 3 f_equal. unfold Zprod. cbn. lia.
Qed.

Lemma bc_prod_spec (g : list Z) : g <> [] -> bc_prod g = suffix_prods g.
Proof.
  intros Hg. unfold bc_prod.
  assert (Hlen : (0 < length g)%nat) by (destruct g; [congruence | cbn; lia]).
  rewrite <- (bc_prod_loop_spec g (length g - 1)) by lia.
  f_equal.
  destruct (lookup_lt_is_Some_2 g (length g - 1) ltac:(lia)) as [x Hx].
  rewrite (drop_S g x _ Hx).
  replace (S (length g - 1)) with (length g) by lia.
  rewrite drop_all. cbn [suffix_prods].
  replace (replicate (length g) 0)
    with (replicate (length g - 1) 0 ++ [0]).
  - rewrite insert_app_r_alt by (rewrite length_replicate; lia).
    rewrite length_replicate, Nat.sub_diag. reflexivity.
  - rewrite <- replicate_S_end. f_equal. lia.
Qed.

Lemma suffix_prods_length g : length (suffix_prods g) = length g.
Proof. induction g; cbn; congruence. Qed.

Lemma Zprod_app a b : Zprod (a ++ b) = Zprod a * Zprod b.
Proof. unfold Zprod. induction a as [| x a IH]; cbn; [lia |]. rewrite IH. lia. Qed.

Lemma Zprod_rev a : Zprod (rev a) = Zprod a.
Proof.
  induction a as [| x a IH]; [reflexivity |].
  cbn [rev]. rewrite Zprod_app, IH. unfold Zprod. cbn. lia.
Qed.

Lemma horner_snoc (rs xs : list Z) (r x : Z) :
  length rs = length xs ->
  horner (rs ++ [r]) (xs ++ [x]) = horner rs xs + Zprod rs * x.
Proof.
  revert xs. induction rs as [| r0 rs IH]; intros [| x0 xs] Hlen;
    try discriminate; cbn [app horner].
  - unfold Zprod. cbn. lia.
  - rewrite IH by (cbn in Hlen; lia). unfold Zprod. cbn. fold (Zprod rs). lia.
Qed.

Lemma dot_suffix_prods (g xs : list Z) :
  length xs = length g ->
  dot xs (suffix_prods g) = horner (rev g) (rev xs).
Proof.
  revert xs. induction g as [| g0 gs IH]; intros [| x0 xs] Hlen;
    try discriminate; [reflexivity |].
  cbn [suffix_prods dot rev].
  rewrite horner_snoc by (rewrite !length_rev; cbn in Hlen; lia).
  rewrite Zprod_rev, IH by (cbn in Hlen; lia). lia.
Qed.

Lemma bc_carry_spec (n : nat) :
  forall pre x post cpre c cpost,
    length pre = n -> length cpre = n ->
    bc_carry (cpre ++ c :: cpost) n (pre ++ x :: post)
    = (if x =? 0 then rev (inc_rev (rev cpre) (rev pre)) else pre)
      ++ x :: post.
Proof.
  induction n as [| n IH]; intros pre x post cpre c cpost Hpre Hcpre.
  - destruct pre, cpre; try discriminate. cbn. now destruct (x =? 0).
  - destruct pre as [| y pre' _] using rev_ind; [discriminate |].
    destruct cpre as [| cy cpre' _] using rev_ind; [discriminate |].
    rewrite !length_app in *. cbn [length] in *.
    assert (Hp : length pre' = n) by lia.
    assert (Hc : length cpre' = n) by lia.
    cbn [bc_carry].
    rewrite (list_lookup_total_middle (pre' ++ [y]) post x (S n))
      by (rewrite length_app; cbn; lia).
    destruct (x =? 0) eqn:Hx; [| reflexivity].
    rewrite <- !app_assoc. cbn [app].
    rewrite (list_lookup_total_middle pre' _ y n) by lia.
    rewrite (list_lookup_total_middle cpre' _ cy n) by lia.
    rewrite insert_app_r_alt by lia.
    rewrite Hp, Nat.sub_diag. cbn [insert list_insert].
    rewrite IH by assumption.
    rewrite !rev_app_distr. cbn [rev app inc_rev].
    destruct (Z.rem (y + 1) cy =? 0); cbn [rev];
      rewrite ?rev_involutive, <- ?app_assoc; reflexivity.
Qed.

Lemma bc_advance_spec (count loc : list Z) :
  length loc = length count -> loc <> [] ->
  bc_advance (length loc) count loc = rev (inc_rev (rev count) (rev loc)).
Proof.
  intros Hlen Hne.
  destruct loc as [| x pre _] using rev_ind; [congruence |].
  destruct count as [| c cpre _] using rev_ind;
    [rewrite length_app in Hlen; cbn in Hlen; lia |].
  rewrite !length_app in Hlen. cbn [length] in Hlen.
  unfold bc_advance. rewrite length_app. cbn [length].
  replace (length pre + 1 - 1)%nat with (length pre) by lia.
  rewrite (list_lookup_total_middle pre [] x (length pre)) by reflexivity.
  rewrite (list_lookup_total_middle cpre [] c (length pre)) by lia.
  rewrite insert_app_r_alt by lia.
  rewrite Nat.sub_diag. cbn [insert list_insert].
  rewrite bc_carry_spec by lia.
  rewrite !rev_app_distr. cbn [rev app inc_rev].
  destruct (Z.rem (x + 1) c =? 0); cbn [rev];
    rewrite ?rev_involutive; reflexivity.
Qed.

Lemma digits_ok_horner_bound (rs cs ls : list Z) :
  digits_ok cs ls -> Forall2 Z.le cs rs ->
  0 <= horner rs ls <= Zprod rs - 1 /\ 0 < Zprod rs.
Proof.
  intros Hok. revert rs. induction Hok as [| c l cs ls Hl Hok IH];
    intros rs Hle; inversion Hle as [| ? r ? rs' Hcr Hle']; subst.
  - unfold Zprod; cbn. lia.
  - destruct (IH rs' Hle') as [Hb Hp]. cbn [horner].
    change (Zprod (r :: rs')) with (r * Zprod rs'). nia.
Qed.

Lemma Forall2_le_refl (cs : list Z) : Forall2 Z.le cs cs.
Proof. induction cs; constructor; [lia | assumption]. Qed.

Lemma inc_rev_ok (cs ls : list Z) :
  digits_ok cs ls -> digits_ok cs (inc_rev cs ls).
Proof.
  induction 1 as [| c l cs ls Hl Hok IH]; cbn [inc_rev]; [constructor |].
  assert (Hrem : 0 <= Z.rem (l + 1) c < c).
  { rewrite Z.rem_mod_nonneg by lia. apply Z.mod_pos_bound. lia. }
  destruct (Z.rem (l + 1) c =? 0); constructor; assumption.
Qed.

Lemma inc_rev_horner (rs cs ls : list Z) :
  digits_ok cs ls -> Forall2 Z.le cs rs ->
  horner cs ls + 1 < Zprod cs ->
  horner cs (inc_rev cs ls) = horner cs ls + 1
  /\ horner rs ls + 1 <= horner rs (inc_rev cs ls).
Proof.
  intros Hok. revert rs. induction Hok as [| c l cs ls Hl Hok IH];
    intros rs Hle Hroom; inversion Hle as [| ? r ? rs' Hcr Hle']; subst.
  - unfold Zprod in Hroom; cbn in Hroom. lia.
  - cbn [inc_rev horner] in *.
    change (Zprod (c :: cs)) with (c * Zprod cs) in Hroom.
    destruct (digits_ok_horner_bound cs cs ls Hok (Forall2_le_refl cs))
      as [Hb Hp].
    destruct (Z.eq_dec (l + 1) c) as [Heq | Hne].
    + assert (Hrem : Z.rem (l + 1) c = 0)
        by (rewrite Heq; apply Z.rem_same; lia).
      rewrite Hrem. cbn [Z.eqb horner].
      assert (Hroom' : horner cs ls + 1 < Zprod cs) by nia.
      destruct (IH rs' Hle' Hroom') as [Hrank Hweight].
      rewrite Hrank. split; [lia | nia].
    + assert (Hrem : Z.rem (l + 1) c = l + 1)
        by (apply Z.rem_small; lia).
      rewrite Hrem.
      destruct (Z.eqb_spec (l + 1) 0); [lia |].
      cbn [horner]. lia.
Qed.

Lemma dot_zip_add (s l p : list Z) :
  length l = length s ->
  dot (zip_with Z.add s l) p = dot s p + dot l p.
Proof.
  revert l p. induction s as [| x s IH]; intros [| y l] [| q p] Hl;
    try discriminate; cbn [zip_with dot]; try lia.
  rewrite IH by (cbn in Hl; lia). lia.
Qed.

Lemma bc_entry_spec (g s loc : list Z) :
  g <> [] -> length s = length g -> length loc = length g ->
  bc_entry (length g) s loc (bc_prod g)
  = bc_base g s + horner (rev g) (rev loc).
Proof.
  intros Hg Hs Hl. unfold bc_entry, bc_base.
  rewrite (bc_prod_spec g Hg). rewrite <- Hs.
  rewrite foldr_entry by (rewrite ?suffix_prods_length; lia).
  rewrite dot_zip_add by lia.
  rewrite !dot_suffix_prods by lia. lia.
Qed.

Lemma Forall2_rev {A B} (P : A -> B -> Prop) (l : list A) (k : list B) :
  Forall2 P l k -> Forall2 P (rev l) (rev k).
Proof.
  induction 1 as [| x y l k Hxy Hlk IH]; cbn [rev]; [constructor |].
  apply Forall2_app; [exact IH | repeat constructor; exact Hxy].
Qed.

Lemma bc_valid_lengths (g s c : list Z) :
  bc_valid g s c -> length s = length g /\ length c = length g.
Proof.
  induction 1 as [| gi si ci g' s' c' Hi Hv [IHs IHc]]; [auto |].
  cbn [length]. rewrite IHs, IHc. auto.
Qed.

Lemma bc_valid_count_le (g s c : list Z) :
  bc_valid g s c -> Forall2 Z.le (rev c) (rev g).
Proof.
  intros Hv. apply Forall2_rev.
  induction Hv as [| gi si ci g' s' c' Hi Hv IH]; constructor;
    [lia | exact IH].
Qed.

Lemma bc_valid_shifted (g s c loc : list Z) :
  bc_valid g s c -> digits_ok c loc ->
  digits_ok g (zip_with Z.add s loc).
Proof.
  intros Hv. revert loc.
  induction Hv as [| gi si ci g' s' c' Hi Hv IH]; intros loc Hok;
    inversion Hok; subst; cbn [zip_with]; constructor;
    [lia | now apply IH].
Qed.

Lemma zeros_good (c : list Z) :
  Forall (fun ci => 0 < ci) c ->
  digits_ok (rev c) (rev (replicate (length c) 0))
  /\ horner (rev c) (rev (replicate (length c) 0)) = 0.
Proof.
  induction 1 as [| ci c' Hci Hpos [IHok IHrank]];
    cbn [length replicate rev].
  - split; [constructor | reflexivity].
  - split.
    + apply Forall2_app; [exact IHok | repeat constructor; lia].
    + rewrite horner_snoc by (rewrite !length_rev, length_replicate; lia).
      lia.
Qed.

Section Block.
Variables g s c : list Z.
Hypothesis g_nonempty : g <> [].
Hypothesis valid : bc_valid g s c.

Lemma bc_step (loc : list Z) :
  bc_good g c loc -> bc_rank c loc + 1 < Zprod c ->
  bc_good g c (bc_advance (length g) c loc)
  /\ bc_rank c (bc_advance (length g) c loc) = bc_rank c loc + 1
  /\ horner (rev g) (rev loc) + 1
     <= horner (rev g) (rev (bc_advance (length g) c loc)).
Proof.
  intros [Hlen Hok] Hroom.
  destruct (bc_valid_lengths g s c valid) as [_ Hc].
  assert (Hne : loc <> []) by (destruct loc, g; cbn in *; congruence).
  rewrite <- Hlen, bc_advance_spec by (congruence || lia).
  unfold bc_good, bc_rank in *. rewrite !rev_involutive, length_rev.
  rewrite <- (Zprod_rev c) in Hroom.
  destruct (inc_rev_horner (rev g) (rev c) (rev loc) Hok
              (bc_valid_count_le g s c valid) Hroom)
    as [Hrank Hweight].
  pose proof (inc_rev_ok _ _ Hok) as Hok'.
  repeat split; try assumption.
  apply Forall2_length in Hok'. apply Forall2_length in Hok.
  rewrite !length_rev in *. lia.
Qed.

Lemma bc_fill_length iters loc :
  length (bc_fill (length g) s c (bc_prod g) iters loc) = iters.
Proof. revert loc. induction iters; intros loc; cbn; congruence. Qed.

Lemma bc_fill_sorted (iters : nat) (loc : list Z) :
  bc_good g c loc -> bc_rank c loc + Z.of_nat iters <= Zprod c ->
  StronglySorted Z.lt (bc_fill (length g) s c (bc_prod g) iters loc)
  /\ Forall (fun e => bc_base g s + horner (rev g) (rev loc) <= e)
       (bc_fill (length g) s c (bc_prod g) iters loc).
Proof.
  revert loc. induction iters as [| iters IH]; intros loc Hgood Hroom;
    cbn [bc_fill]; [split; constructor |].
  destruct (bc_valid_lengths g s c valid) as [Hs _].
  rewrite bc_entry_spec by (destruct Hgood; auto).
  destruct iters as [| iters'].
  { cbn [bc_fill]. split; repeat constructor. lia. }
  destruct (bc_step loc Hgood ltac:(lia)) as (Hgood' & Hrank & Hweight).
  destruct (IH _ Hgood' ltac:(lia)) as [Hsorted Hall].
  split; constructor; try assumption; try lia.
  - eapply Forall_impl; [exact Hall |]. cbn. intros e He. lia.
  - eapply Forall_impl; [exact Hall |]. cbn. intros e He. lia.
Qed.

Lemma bc_fill_bounds (iters : nat) (loc : list Z) :
  bc_good g c loc -> bc_rank c loc + Z.of_nat iters <= Zprod c ->
  Forall (fun e => 1 <= e <= Zprod g)
    (bc_fill (length g) s c (bc_prod g) iters loc).
Proof.
  revert loc. induction iters as [| iters IH]; intros loc Hgood Hroom;
    cbn [bc_fill]; constructor.
  - destruct (bc_valid_lengths g s c valid) as [Hs Hc].
    destruct Hgood as [Hlen Hok].
    unfold bc_entry. rewrite (bc_prod_spec g g_nonempty). rewrite <- Hs.
    rewrite foldr_entry by (rewrite ?suffix_prods_length; lia).
    rewrite dot_suffix_prods by (rewrite length_zip_with; lia).
    assert (Hdig : digits_ok (rev g) (rev (zip_with Z.add s loc))).
    { apply Forall2_rev. apply (bc_valid_shifted g s c loc valid).
      apply Forall2_rev in Hok. now rewrite !rev_involutive in Hok. }
    destruct (digits_ok_horner_bound (rev g) (rev g) _ Hdig
                (Forall2_le_refl _)) as [Hb _].
    rewrite Zprod_rev in Hb. lia.
  - destruct iters as [| iters']; [constructor |].
    destruct (bc_step loc Hgood ltac:(lia)) as (Hgood' & Hrank & _).
    apply IH; [exact Hgood' | lia].
Qed.

Lemma bc_fill_contiguous (iters : nat) (loc : list Z) :
  (forall ls, length ls = length g ->
              horner (rev g) (rev ls) = horner (rev c) (rev ls)) ->
  bc_good g c loc -> bc_rank c loc + Z.of_nat iters <= Zprod c ->
  bc_fill (length g) s c (bc_prod g) iters loc
  = (fun j => bc_base g s + bc_rank c loc + Z.of_nat j) <$> seq 0 iters.
Proof.
  intros Hsame. revert loc.
  induction iters as [| iters IH]; intros loc Hgood Hroom;
    cbn [bc_fill seq fmap list_fmap]; [reflexivity |].
  destruct (bc_valid_lengths g s c valid) as [Hs _].
  rewrite bc_entry_spec by (destruct Hgood; auto).
  rewrite Hsame by (destruct Hgood; auto).
  f_equal; [unfold bc_rank; lia |].
  destruct iters as [| iters']; [reflexivity |].
  destruct (bc_step loc Hgood ltac:(lia)) as (Hgood' & Hrank & _).
  rewrite IH by (assumption || lia).
  rewrite Hrank, <- fmap_S_seq, <- list_fmap_compose.
  apply list_fmap_ext. intros _ j _. cbn. lia.
Qed.
End Block.

Lemma bc_checked_valid (g s c : list Z) :
  length s = length g -> length c = length g ->
  existsb (bc_dim_invalid g s c) (seq 0 (length g)) = false ->
  bc_valid g s c.
Proof.
  intros Hs Hc Hcheck.
  assert (Hall : forall i, (i < length g)%nat ->
                           bc_dim_invalid g s c i = false).
  { intros i Hi. apply not_true_is_false. intros Hbad.
    assert (Hex : existsb (bc_dim_invalid g s c) (seq 0 (length g)) = true).
    { apply existsb_exists. exists i. split; [| exact Hbad].
      apply in_seq. lia. }
    congruence. }
  clear Hcheck. revert s c Hs Hc Hall.
  induction g as [| gi g IH]; intros [| si s] [| ci c] Hs Hc Hall;
    try discriminate; constructor.
  - specialize (Hall 0%nat ltac:(cbn; lia)).
    unfold bc_dim_invalid in Hall. cbn in Hall.
    rewrite !orb_false_iff in Hall.
    destruct Hall as [[[H1 H2] H3] H4].
    apply Z.leb_gt in H1. apply Z.ltb_ge in H2, H3.
    rewrite Z.gtb_ltb in H4. apply Z.ltb_ge in H4. lia.
  - apply IH; [cbn in Hs; lia | cbn in Hc; lia |].
    intros i Hi. apply (Hall (S i)). cbn. lia.
Qed.


Lemma bc_valid_counts (g s c : list Z) :
  bc_valid g s c -> 0 <= Zprod c /\ (0 < Zprod c -> Forall (fun ci => 0 < ci) c).
Proof.
  induction 1 as [| gi si ci g' s' c' Hi Hv [IHnn IHpos]].
  - split; [unfold Zprod; cbn; lia | constructor].
  - change (Zprod (ci :: c')) with (ci * Zprod c').
    split; [nia |]. intros Hpos.
    assert (0 < ci) by nia. assert (0 < Zprod c') by nia.
    constructor; auto.
Qed.

(** What the loops of lines 877-905 produce for dimensions that passed the
    check. *)
Lemma bc_compmap_spec (g s c : list Z) :
  g <> [] -> bc_valid g s c -> Zprod c <= INT_MAX ->
  length (bc_compmap g s c) = Z.to_nat (Zprod c)
  /\ StronglySorted Z.lt (bc_compmap g s c)
  /\ Forall (fun e => 1 <= e <= Zprod g) (bc_compmap g s c).
Proof.
  intros Hg Hv Hmax. destruct (bc_valid_lengths g s c Hv) as [Hs Hc].
  destruct (bc_valid_counts g s c Hv) as [Hnn Hpos].
  assert (Hml : bc_maplen (length g) c = Zprod c).
  { rewrite <- Hc. apply bc_maplen_prod.
    unfold in_int, INT_MIN. lia. }
  unfold bc_compmap. rewrite Hml.
  split; [apply bc_fill_length |].
  destruct (Z.eq_dec (Zprod c) 0) as [-> | Hne].
  { cbn. split; constructor. }
  destruct (zeros_good c (Hpos ltac:(lia))) as [Hok Hrank].
  assert (Hgood : bc_good g c (replicate (length g) 0)).
  { split; [apply length_replicate | now rewrite <- Hc]. }
  assert (Hroom : bc_rank c (replicate (length g) 0)
                  + Z.of_nat (Z.to_nat (Zprod c)) <= Zprod c).
  { unfold bc_rank. rewrite <- Hc, Hrank. lia. }
  split.
  - now apply (bc_fill_sorted g s c Hg Hv).
  - now apply (bc_fill_bounds g s c Hg Hv).
Qed.

(** X1.  For dimensions that pass the check of PIOc_InitDecomp_bc (positive
    lengths, start and count not negative, start + count within the
    length), when the product of the counts is in the range of the int
    [maplen] and the size of the global array in the range of PIO_Offset:
    the compmap it computes has as many entries as the product of the
    counts, is strictly increasing, and every entry is a 1-based offset
    into the global array, between 1 and the product of the lengths. *)
Theorem bc_compmap_increasing (g s c : list Z) :
  g <> [] -> bc_valid g s c ->
  Zprod c <= INT_MAX -> Zprod g <= PIO_OFFSET_MAX ->
  length (bc_compmap g s c) = Z.to_nat (Zprod c)
  /\ StronglySorted Z.lt (bc_compmap g s c)
  /\ Forall (fun e => 1 <= e <= Zprod g) (bc_compmap g s c).
Proof. intros Hg Hv Hmax _. exact (bc_compmap_spec g s c Hg Hv Hmax). Qed.

Lemma bc_compmap_increasing_witness :
  bc_compmap [4; 5; 6] [1; 2; 3] [2; 2; 2]
  = [46; 47; 52; 53; 76; 77; 82; 83]
  /\ StronglySorted Z.lt (bc_compmap [4; 5; 6] [1; 2; 3] [2; 2; 2])
  /\ Forall (fun e => 1 <= e <= 120) (bc_compmap [4; 5; 6] [1; 2; 3] [2; 2; 2]).
Proof.
  assert (Hv : bc_valid [4; 5; 6] [1; 2; 3] [2; 2; 2])
    by (repeat constructor; lia).
  destruct (bc_compmap_increasing [4; 5; 6] [1; 2; 3] [2; 2; 2]
              ltac:(discriminate) Hv ltac:(discriminate) ltac:(discriminate))
    as (_ & Hsorted & Hbound).
  split; [reflexivity | split; [exact Hsorted | exact Hbound]].
Defined.

Lemma horner_top_radix (rs xs : list Z) (r r' x : Z) :
  length rs = length xs ->
  horner (rs ++ [r]) (xs ++ [x]) = horner (rs ++ [r']) (xs ++ [x]).
Proof. intros Hlen. now rewrite !horner_snoc. Qed.

Lemma rev_replicate (n : nat) (x : Z) : rev (replicate n x) = replicate n x.
Proof.
  induction n as [| n IH]; [reflexivity |].
  cbn [replicate rev]. rewrite IH. symmetry. apply replicate_S_end.
Qed.

Lemma horner_zeros (rs : list Z) (n : nat) :
  horner rs (replicate n 0) = 0.
Proof.
  revert n. induction rs as [| r rs IH]; intros [| n]; cbn; try reflexivity.
  rewrite IH. lia.
Qed.

(** X2.  When the block spans every dimension but the first completely
    (count = gdimlen and start = 0 there), and the number of its entries is
    in the range of the int [maplen] and the size of the global array in
    the range of PIO_Offset, the compmap of PIOc_InitDecomp_bc is a
    contiguous range: it starts at start[0] * (product of the other
    lengths) + 1 and goes up by one. *)
Theorem bc_compmap_contiguous (g0 s0 c0 : Z) (gt : list Z) :
  0 < g0 -> 0 <= s0 -> 0 <= c0 -> s0 + c0 <= g0 ->
  Forall (fun gi => 0 < gi) gt ->
  c0 * Zprod gt <= INT_MAX -> g0 * Zprod gt <= PIO_OFFSET_MAX ->
  bc_compmap (g0 :: gt) (s0 :: replicate (length gt) 0) (c0 :: gt)
  = (fun j => s0 * Zprod gt + 1 + Z.of_nat j)
      <$> seq 0 (Z.to_nat (c0 * Zprod gt)).
Proof.
  intros Hg0 Hs0 Hc0 Hfit Hgt Hmax _.
  set (g := g0 :: gt). set (s := s0 :: replicate (length gt) 0).
  set (c := c0 :: gt).
  assert (Hv : bc_valid g s c).
  { constructor; [lia |]. clear -Hgt.
    induction Hgt as [| gi gt Hgi Hgt IH]; cbn; constructor; [lia | exact IH]. }
  assert (Hg : g <> []) by discriminate.
  destruct (bc_valid_lengths g s c Hv) as [Hs Hc].
  destruct (bc_valid_counts g s c Hv) as [Hnn Hpos].
  assert (Hml : bc_maplen (length g) c = Zprod c).
  { rewrite <- Hc. apply bc_maplen_prod.
    change (Zprod c) with (c0 * Zprod gt) in *.
    unfold in_int, INT_MIN. lia. }
  unfold bc_compmap. rewrite Hml.
  change (Zprod c) with (c0 * Zprod gt) in *.
  destruct (Z.eq_dec (c0 * Zprod gt) 0) as [Hz | Hne].
  { rewrite Hz. reflexivity. }
  destruct (zeros_good c (Hpos ltac:(lia))) as [Hok Hrank].
  assert (Hgood : bc_good g c (replicate (length g) 0)).
  { split; [apply length_replicate | now rewrite <- Hc]. }
  assert (Hrank' : bc_rank c (replicate (length g) 0) = 0).
  { unfold bc_rank. now rewrite <- Hc. }
  rewrite (bc_fill_contiguous g s c Hg Hv).
  - rewrite Hrank'. apply list_fmap_ext. intros _ j _.
    unfold bc_base, g, s. cbn [rev].
    rewrite horner_snoc by (rewrite !length_rev, length_replicate; lia).
    rewrite rev_replicate, horner_zeros, Zprod_rev. lia.
  - intros ls Hls. unfold g, c. cbn [rev].
    destruct ls as [| l0 lt]; [discriminate |]. cbn [rev].
    apply horner_top_radix. rewrite !length_rev. cbn in Hls. lia.
  - exact Hgood.
  - rewrite Hrank'. change (Zprod c) with (c0 * Zprod gt). lia.
Qed.

Lemma bc_compmap_contiguous_witness :
  bc_compmap [4; 5] [1; 0] [2; 5] = [6; 7; 8; 9; 10; 11; 12; 13; 14; 15]
  /\ bc_compmap [16] [4] [3] = [5; 6; 7].
Proof.
  split.
  - exact (bc_compmap_contiguous 4 1 2 [5] ltac:(lia) ltac:(lia) ltac:(lia)
             ltac:(lia) ltac:(repeat constructor) ltac:(discriminate)
             ltac:(discriminate)).
  - exact (bc_compmap_contiguous 16 4 3 [] ltac:(lia) ltac:(lia) ltac:(lia)
             ltac:(lia) ltac:(constructor) ltac:(discriminate)
             ltac:(discriminate)).
Defined.

Lemma StronglySorted_lt_lookup (l : list Z) :
  StronglySorted Z.lt l ->
  forall (i j : nat) (x y : Z),
    (i < j)%nat -> l !! i = Some x -> l !! j = Some y -> x < y.
Proof.
  induction 1 as [| a l Hl IH Ha]; intros i j x y Hij Hi Hj;
    [discriminate |].
  destruct j as [| j]; [lia |]. cbn in Hj.
  destruct i as [| i]; cbn in Hi.
  - injection Hi as <-. rewrite Forall_forall in Ha. apply Ha.
    apply list_elem_of_lookup. eauto.
  - apply (IH i j); [lia | assumption ..].
Qed.

Lemma increasing_not_sorted_again (l : list Z) :
  StronglySorted Z.lt l -> compute_needssort l = false.
Proof.
  intros Hsorted. apply not_true_is_false. rewrite compute_needssort_iff.
  intros (k & Hk & _ & Hlt).
  destruct (lookup_lt_is_Some_2 l k ltac:(lia)) as [y Hy].
  destruct (lookup_lt_is_Some_2 l (k - 1) ltac:(lia)) as [x Hx].
  rewrite (list_lookup_total_correct l k y Hy) in Hlt.
  rewrite (list_lookup_total_correct l (k - 1) x Hx) in Hlt.
  pose proof (StronglySorted_lt_lookup l Hsorted (k - 1) k x y
                ltac:(lia) Hx Hy).
  lia.
Qed.

(** X3.  A call of PIOc_InitDecomp_bc that stores an id, for a block whose
    number of entries is in the range of the int [maplen] and a global
    array whose size is in the range of PIO_Offset, has registered a
    descriptor whose map is the computed block, in the order computed:
    maplen is the product of the counts, the map is strictly increasing, so
    needssort is clear and there is no remap, whatever [qsort] does. *)
Theorem InitDecomp_bc_never_sorts (E : Env) (st : pio_state)
  (iosysid pio_type : Z) (g s c : list Z) (ioidp : bool) (id : Z) :
  g <> [] -> length s = length g -> length c = length g ->
  Zprod c <= INT_MAX -> Zprod g <= PIO_OFFSET_MAX ->
  id_ioid (PIOc_InitDecomp_bc E st iosysid pio_type (Some g) (Some s)
             (Some c) ioidp) = Some id ->
  exists d,
    pio_iodesc_list
      (id_state (PIOc_InitDecomp_bc E st iosysid pio_type (Some g) (Some s)
                   (Some c) ioidp)) !! id = Some d
    /\ needssort d = false /\ remap d = None
    /\ map d = bc_compmap g s c
    /\ maplen d = Z.of_nat (Z.to_nat (Zprod c))
    /\ StronglySorted Z.lt (map d).
Proof.
  intros Hg Hs Hc Hmax _. unfold PIOc_InitDecomp_bc.
  destruct (pio_get_iosystem_from_id st iosysid) as [ios |];
    [| discriminate].
  destruct ioidp; [| discriminate].
  destruct (existsb _ _) eqn:Hcheck; [discriminate |].
  apply bc_checked_valid in Hcheck; [| assumption ..].
  destruct (bc_compmap_spec g s c Hg Hcheck Hmax) as (Hlen & Hsorted & _).
  unfold malloc_block. cbn [id_ioid id_state].
  intros Hid.
  destruct (InitDecomp_registered _ _ _ _ _ _ _ _ _ _ _ Hid)
    as (d & Hd & _ & Hmap).
  rewrite load_store in Hmap.
  unfold expected_map_part in Hmap.
  rewrite (increasing_not_sorted_again _ Hsorted) in Hmap.
  injection Hmap as Hmaplen Hmapd Hremap Hns.
  exists d. split; [exact Hd |].
  rewrite Hmapd, Hmaplen, Hlen. auto.
Qed.

Lemma InitDecomp_bc_never_sorts_witness :
  exists d,
    pio_iodesc_list
      (id_state (PIOc_InitDecomp_bc env_ok
         (demo_state (demo_ios PIO_RETURN_ERROR PIO_REARR_BOX false) [])
         2048 4 (Some [4; 5]) (Some [1; 2]) (Some [2; 2]) true))
    !! 512 = Some d
    /\ needssort d = false /\ remap d = None /\ map d = [8; 9; 13; 14].
Proof.
  destruct (InitDecomp_bc_never_sorts env_ok
              (demo_state (demo_ios PIO_RETURN_ERROR PIO_REARR_BOX false) [])
              2048 4 [4; 5] [1; 2] [2; 2] true 512
              ltac:(discriminate) eq_refl eq_refl ltac:(discriminate)
              ltac:(discriminate) eq_refl)
    as (d & Hd & Hns & Hremap & Hmap & _).
  exists d. split; [exact Hd | split; [exact Hns | split; [exact Hremap |]]].
  rewrite Hmap. reflexivity.
Defined.





(** ** The descriptor that PIOc_InitDecomp registers *)

Lemma remember_map_fields E compmap gdims d0 d1 :
  remember_map E compmap gdims d0 = Next d1 ->
  dimlen d1 = gdims /\ plan d1 = plan d0.
Proof.
  unfold remember_map.
  destruct (sorted_map E compmap) as [m r].
  repeat case_match; try discriminate; intros [= <-]; simplify_eq;
    split; reflexivity.
Qed.

(** A temporary that is allocated, written and freed leaves the memory as
    it was. *)
Lemma temporary_released st contents written :
  mem (free_block (malloc_block contents st).1
         (store (malloc_block contents st).1 written
            (malloc_block contents st).2))
  = mem st.
Proof.
  cbn. rewrite insert_insert_eq. apply delete_insert_id.
  apply not_elem_of_dom, is_fresh.
Qed.

Lemma create_subset_fields E st ios cm gdims d st' d' :
  create_subset E st ios cm gdims d = (st', Next d') ->
  dimlen d' = dimlen d /\ rearranger d' = rearranger d /\ mem st' = mem st.
Proof.
  unfold create_subset.
  pose proof (temporary_released st (load st cm)) as Htmp.
  destruct (malloc_block (load st cm) st) as [tmp st1] eqn:Hmalloc.
  destruct (run_unique_check E (comp_comm ios) (load st1 tmp))
    as [[ierr ro] written].
  specialize (Htmp written). cbn [fst snd] in Htmp.
  repeat case_match; intros [= <- Hd]; simplify_eq;
    (split; [reflexivity | split; [reflexivity |]]);
    first [reflexivity | exact Htmp].
Qed.

Lemma create_box_fields E st ios pio_type gdims iostart iocount d d' :
  create_box E st ios pio_type gdims iostart iocount d = Next d' ->
  dimlen d' = dimlen d /\ rearranger d' = rearranger d
  /\ (rearranger d <> PIO_REARR_BOX -> plan d' = plan d).
Proof.
  unfold create_box.
  repeat case_match; try discriminate; intros [= <-]; simplify_eq;
    (split; [reflexivity | split; [reflexivity |]]); intros Hne;
    first [reflexivity
          | exfalso; apply Hne;
            match goal with
            | H : (rearranger _ =? PIO_REARR_BOX) = true |- _ =>
                apply Z.eqb_eq in H; exact H
            end].
Qed.

Lemma dims_checked_positive (gdims : list Z) :
  existsb (fun len => len <=? 0) gdims = false ->
  Forall (fun len => 0 < len) gdims.
Proof.
  induction gdims as [| len gdims IH]; cbn; [constructor |].
  intros H. apply orb_false_elim in H as [Hlen Hrest].
  apply Z.leb_gt in Hlen. constructor; auto.
Qed.

Lemma InitDecomp_descriptor E st iosysid pio_type gdimlen compmap ioidp
  rearranger_arg iostart iocount id :
  id_ioid (PIOc_InitDecomp E st iosysid pio_type gdimlen compmap ioidp
             rearranger_arg iostart iocount) = Some id ->
  exists ios gdims d,
    pio_get_iosystem_from_id st iosysid = Some ios
    /\ gdimlen = Some gdims
    /\ Forall (fun len => 0 < len) gdims
    /\ pio_iodesc_list
         (id_state (PIOc_InitDecomp E st iosysid pio_type gdimlen compmap
                      ioidp rearranger_arg iostart iocount)) !! id = Some d
    /\ dimlen d = gdims
    /\ rearranger d = rearranger_used ios rearranger_arg
    /\ (rearranger d <> PIO_REARR_BOX -> rearranger d <> PIO_REARR_SUBSET ->
        plan d
        = plan (malloc_iodesc E ios pio_type (Z.of_nat (length gdims))).2)
    /\ mem (id_state (PIOc_InitDecomp E st iosysid pio_type gdimlen compmap
                        ioidp rearranger_arg iostart iocount)) = mem st.
Proof.
  unfold PIOc_InitDecomp.
  destruct (pio_get_iosystem_from_id st iosysid) as [ios |] eqn:Hios;
    [| discriminate].
  destruct gdimlen as [gdims |]; [| discriminate].
  destruct compmap as [cm |]; [| discriminate].
  destruct ioidp; [| discriminate].
  destruct (existsb _ gdims) eqn:Hdims; [discriminate |].
  apply dims_checked_positive in Hdims.
  destruct (if async ios then _ else _) as [[] | o]; [| discriminate].
  destruct (malloc_iodesc E ios pio_type _) as [ierr d0] eqn:Hmalloc.
  destruct (negb (ierr =? 0)); [discriminate |].
  destruct (remember_map E (load st cm) gdims d0) as [d1 | c] eqn:Hrem;
    [| discriminate].
  apply remember_map_fields in Hrem as [Hdim1 Hplan1].
  fold (rearranger_used ios rearranger_arg).
  set (d2 := set_rearranger _ d1).
  assert (Hd2 : dimlen d2 = gdims /\ plan d2 = plan d0
                /\ rearranger d2 = rearranger_used ios rearranger_arg)
    by (subst d2; cbn; auto).
  clearbody d2. destruct Hd2 as (Hdim2 & Hplan2 & Hre2).
  assert (Hfinish : forall st' d3,
    mem st' = mem st -> dimlen d3 = gdims ->
    rearranger d3 = rearranger_used ios rearranger_arg ->
    (rearranger d3 <> PIO_REARR_BOX -> rearranger d3 <> PIO_REARR_SUBSET ->
     plan d3 = plan d0) ->
    id_ioid (assign_ioid E st' ios d3) = Some id ->
    exists d,
      pio_iodesc_list (id_state (assign_ioid E st' ios d3)) !! id = Some d
      /\ dimlen d = gdims
      /\ rearranger d = rearranger_used ios rearranger_arg
      /\ (rearranger d <> PIO_REARR_BOX -> rearranger d <> PIO_REARR_SUBSET ->
          plan d = plan d0)
      /\ mem (id_state (assign_ioid E st' ios d3)) = mem st).
  { intros st' d3 Hmem Hdim3 Hre3 Hplan3 Hid.
    destruct (assign_ioid_spec E st' ios d3) as (_ & Hmem' & _ & Hsome).
    destruct (Hsome id Hid) as (_ & _ & _ & Hreg).
    exists (set_ioid id d3).
    rewrite Hreg, lookup_insert_eq. repeat split; try assumption.
    congruence. }
  assert (Hwrap : forall st' d3,
    (exists d,
      pio_iodesc_list (id_state (assign_ioid E st' ios d3)) !! id = Some d
      /\ dimlen d = gdims
      /\ rearranger d = rearranger_used ios rearranger_arg
      /\ (rearranger d <> PIO_REARR_BOX -> rearranger d <> PIO_REARR_SUBSET ->
          plan d = plan d0)
      /\ mem (id_state (assign_ioid E st' ios d3)) = mem st) ->
    exists ios0 gdims0 d,
      Some ios = Some ios0 /\ Some gdims = Some gdims0
      /\ Forall (fun len => 0 < len) gdims0
      /\ pio_iodesc_list (id_state (assign_ioid E st' ios d3)) !! id = Some d
      /\ dimlen d = gdims0
      /\ rearranger d = rearranger_used ios0 rearranger_arg
      /\ (rearranger d <> PIO_REARR_BOX -> rearranger d <> PIO_REARR_SUBSET ->
          plan d
          = plan (malloc_iodesc E ios0 pio_type (Z.of_nat (length gdims0))).2)
      /\ mem (id_state (assign_ioid E st' ios d3)) = mem st).
  { intros st' d3 (d & H1 & H2 & H3 & H4 & H5).
    exists ios, gdims, d. rewrite Hmalloc. auto 10. }
  destruct (rearranger d2 =? PIO_REARR_SUBSET) eqn:Hsub.
  - destruct (create_subset E st ios cm gdims d2) as [st' fl] eqn:Hcs.
    destruct fl as [d3 | o]; [| discriminate].
    apply create_subset_fields in Hcs as (Hdim3 & Hre3 & Hmem).
    apply Z.eqb_eq in Hsub.
    intros Hid. apply Hwrap, Hfinish; congruence.
  - destruct (create_box E st ios pio_type gdims iostart iocount d2)
      as [d3 | o] eqn:Hbox; [| discriminate].
    apply create_box_fields in Hbox as (Hdim3 & Hre3 & Hplan3).
    intros Hid. apply Hwrap, Hfinish; try congruence.
    intros Hnb _. rewrite Hplan3; congruence.
Qed.

Lemma map_part_maplen E compmap d :
  map_part d = expected_map_part E compmap ->
  maplen d = Z.of_nat (length compmap).
Proof.
  unfold map_part, expected_map_part.
  destruct (compute_needssort compmap); now intros [= -> _ _ _].
Qed.

(** X6.  What a call of PIOc_InitDecomp that stores an id has put in the
    registry: a descriptor found under that id, carrying the id, the length
    of the caller's map, the caller's dimension lengths (all positive) and
    the rearranger that was asked for, or the default of the iosystem when
    the argument was NULL; and every temporary array is gone again. *)
Theorem InitDecomp_records_arguments (E : Env) (st : pio_state)
  (iosysid pio_type : Z) (gdimlen : option (list Z))
  (compmap : option block) (ioidp : bool) (rearranger_arg : option Z)
  (iostart iocount : option (list Z)) (id : Z) :
  let r := PIOc_InitDecomp E st iosysid pio_type gdimlen compmap ioidp
             rearranger_arg iostart iocount in
  id_ioid r = Some id ->
  exists ios gdims cm d,
    pio_get_iosystem_from_id st iosysid = Some ios
    /\ gdimlen = Some gdims /\ compmap = Some cm
    /\ pio_get_iodesc_from_id (id_state r) id = Some d
    /\ ioid d = id
    /\ maplen d = Z.of_nat (length (load st cm))
    /\ dimlen d = gdims /\ Forall (fun len => 0 < len) gdims
    /\ rearranger d
       = match rearranger_arg with
         | Some v => v
         | None => default_rearranger ios
         end
    /\ mem (id_state r) = mem st.
Proof.
  intros r Hid. subst r.
  destruct (InitDecomp_descriptor _ _ _ _ _ _ _ _ _ _ _ Hid)
    as (ios & gdims & d & Hios & Hg & Hpos & Hd & Hdim & Hre & _ & Hmem).
  destruct (InitDecomp_effect_holds E st iosysid pio_type gdimlen compmap
              ioidp rearranger_arg iostart iocount)
    as (_ & _ & _ & _ & Hsome).
  destruct (Hsome id Hid)
    as (ios' & cm & gdims' & d' & _ & Hcm & _ & _ & _ & _ & _ & Hreg & Hioid
        & Hmap).
  rewrite Hreg, lookup_insert_eq in Hd. injection Hd as ->.
  exists ios, gdims, cm, d. unfold pio_get_iodesc_from_id.
  rewrite Hreg, lookup_insert_eq.
  repeat split; try assumption.
  now apply map_part_maplen with E.
Qed.

Lemma InitDecomp_records_arguments_witness :
  let st := demo_state (demo_ios PIO_RETURN_ERROR PIO_REARR_BOX false)
              [3; 1; 2] in
  let r := PIOc_InitDecomp env_ok st 2048 4 (Some [4; 2]) (Some 1%positive)
             true (Some PIO_REARR_SUBSET) None None in
  exists d,
    pio_get_iodesc_from_id (id_state r) 512 = Some d
    /\ ioid d = 512 /\ maplen d = 3 /\ dimlen d = [4; 2]
    /\ rearranger d = PIO_REARR_SUBSET
    /\ mem (id_state r) = mem st.
Proof.
  intros st r.
  destruct (InitDecomp_records_arguments env_ok st 2048 4 (Some [4; 2])
              (Some 1%positive) true (Some PIO_REARR_SUBSET) None None 512
              eq_refl)
    as (ios & gdims & cm & d & Hios & Hg & Hcm & Hd & Hid & Hlen & Hdim & _
        & Hre & Hmem).
  injection Hg as <-. injection Hcm as <-.
  exists d. repeat split; assumption.
Defined.

(** *** Calls that cannot fail *)

Lemma remember_map_progress E compmap gdims d0 :
  decomp_externals_succeed E ->
  exists d1, remember_map E compmap gdims d0 = Next d1.
Proof.
  intros (Hmap & Htmp & Hremap & Hdim & _).
  apply remember_map_alloc_ok. rewrite Hmap, Htmp, Hremap, Hdim. cbn.
  now rewrite andb_false_r.
Qed.

Lemma create_subset_progress E st ios cm gdims d :
  decomp_externals_succeed E ->
  exists st' d', create_subset E st ios cm gdims d = (st', Next d').
Proof.
  intros (_ & _ & _ & _ & Htmpmap & _ & Huniq & Hsub & _).
  unfold create_subset. rewrite Htmpmap. cbn [negb].
  destruct (compproc ios).
  - destruct (malloc_block (load st cm) st) as [tmp st1].
    pose proof (Huniq (comp_comm ios) (load st1 tmp)) as Hu.
    destruct (run_unique_check E (comp_comm ios) (load st1 tmp))
      as [[ierr ro] written].
    cbn in Hu. subst ierr. cbn.
    match goal with
    | |- context [subset_rearrange_create E ?a ?b ?c ?e] =>
        pose proof (Hsub a b c e) as Hs;
        destruct (subset_rearrange_create E a b c e) as [ierr p]
    end.
    cbn in Hs. subst ierr. cbn. eauto.
  - match goal with
    | |- context [subset_rearrange_create E ?a ?b ?c ?e] =>
        pose proof (Hsub a b c e) as Hs;
        destruct (subset_rearrange_create E a b c e) as [ierr p]
    end.
    cbn in Hs. subst ierr. cbn. eauto.
Qed.

Lemma create_box_progress E st ios pio_type gdims iostart iocount d :
  decomp_externals_succeed E ->
  exists d', create_box E st ios pio_type gdims iostart iocount d = Next d'.
Proof.
  intros (_ & _ & _ & _ & _ & _ & _ & _ & Hbox & Hcalc & Hmax & Hbcast).
  unfold create_box.
  assert (Hlast : forall d1,
    exists d',
      (let '(mpierr, n) := bcast_num_aiotasks E (num_aiotasks d1) in
       let d2 := set_num_aiotasks n d1 in
       if negb (mpierr =? MPI_SUCCESS)
       then Leave (check_mpi E (Some ios) mpierr)
       else if rearranger d2 =? PIO_REARR_BOX then
         let '(ierr, p) := box_rearrange_create E ios (map d2) gdims d2 in
         if negb (ierr =? 0) then Leave (pio_err st (Some ios) ierr)
         else Next (set_plan p d2)
       else Next d2) = Next d').
  { intros d1. pose proof (Hbcast (num_aiotasks d1)) as Hb.
    destruct (bcast_num_aiotasks E (num_aiotasks d1)) as [mpierr n].
    cbn in Hb. subst mpierr. cbn.
    destruct (rearranger d1 =? PIO_REARR_BOX); [| eauto].
    match goal with
    | |- context [box_rearrange_create E ?a ?b ?c ?e] =>
        pose proof (Hbox a b c e) as Hs;
        destruct (box_rearrange_create E a b c e) as [ierr p]
    end.
    cbn in Hs. subst ierr. cbn. eauto. }
  assert (Hmaxok : forall d1,
    exists d2,
      (let '(ierr, n) := compute_maxIObuffersize E (io_comm ios) d1 in
       if negb (ierr =? 0) then Leave (pio_err st (Some ios) ierr)
       else Next (set_maxiobuflen n d1))
      = (Next d2 : flow io_desc_t (outcome Z))).
  { intros d1. pose proof (Hmax (io_comm ios) d1) as Hm.
    destruct (compute_maxIObuffersize E (io_comm ios) d1) as [ierr n].
    cbn in Hm. subst ierr. cbn. eauto. }
  destruct (ioproc ios); [| apply Hlast].
  destruct iostart as [s |], iocount as [c |];
    try (pose proof (Hcalc pio_type gdims (num_iotasks ios) (io_rank ios))
           as Hc;
         destruct (CalcStartandCount E pio_type gdims (num_iotasks ios)
                     (io_rank ios)) as [ierr [[s' c'] n]];
         cbn in Hc; subst ierr; cbn [negb Z.eqb]);
    match goal with
    | |- context [compute_maxIObuffersize E (io_comm ios) ?d1] =>
        destruct (Hmaxok d1) as [d2 ->]
    end; apply Hlast.
Qed.

Lemma InitDecomp_progress E st iosysid pio_type gdims cm rearranger_arg
  iostart iocount ios :
  decomp_externals_succeed E ->
  pio_get_iosystem_from_id st iosysid = Some ios -> async ios = false ->
  Forall (fun len => 0 < len) gdims ->
  id_ret (PIOc_InitDecomp E st iosysid pio_type (Some gdims) (Some cm) true
            rearranger_arg iostart iocount) = Returns PIO_NOERR
  /\ id_ioid (PIOc_InitDecomp E st iosysid pio_type (Some gdims) (Some cm)
                true rearranger_arg iostart iocount)
     = Some (pio_next_ioid st).
Proof.
  intros Hext Hios Hsync Hpos.
  unfold PIOc_InitDecomp.
  rewrite Hios, (dims_checked_good gdims Hpos), Hsync.
  pose proof Hext as (_ & _ & _ & _ & _ & Hmalloc & _).
  specialize (Hmalloc ios pio_type (Z.of_nat (length gdims))).
  destruct (malloc_iodesc E ios pio_type (Z.of_nat (length gdims)))
    as [ierr d0].
  cbn in Hmalloc. subst ierr. cbn [negb Z.eqb].
  destruct (remember_map_progress E (load st cm) gdims d0 Hext) as [d1 ->].
  assert (Hassign : forall st' d3,
    library_part st' = library_part st ->
    id_ret (assign_ioid E st' ios d3) = Returns PIO_NOERR
    /\ id_ioid (assign_ioid E st' ios d3) = Some (pio_next_ioid st)).
  { intros st' d3 Hlib. unfold library_part in Hlib.
    injection Hlib as _ Hn _ _.
    unfold assign_ioid. rewrite Hsync. cbn. now rewrite Hn. }
  destruct (_ =? PIO_REARR_SUBSET).
  - destruct (create_subset_progress E st ios cm gdims
                (set_rearranger
                   match rearranger_arg with
                   | Some r => r
                   | None => default_rearranger ios
                   end d1) Hext) as (st' & d3 & Hcs).
    rewrite Hcs. apply create_subset_spec in Hcs as (Hlib & _).
    now apply Hassign.
  - destruct (create_box_progress E st ios pio_type gdims iostart iocount
                (set_rearranger
                   match rearranger_arg with
                   | Some r => r
                   | None => default_rearranger ios
                   end d1) Hext) as (d3 & ->).
    now apply Hassign.
Qed.

Lemma env_ok_externals : decomp_externals_succeed env_ok.
Proof. repeat split. Qed.



(** X8.  PIOc_InitDecomp does not check the value of the rearranger on a
    synchronous iosystem: a value that is neither PIO_REARR_BOX nor
    PIO_REARR_SUBSET is accepted, the call returns PIO_NOERR, and the
    registered descriptor carries that value together with the plan that
    malloc_iodesc delivered: neither rearranger has computed one. *)
Theorem InitDecomp_unchecked_rearranger (E : Env) (st : pio_state)
  (iosysid pio_type : Z) (gdims : list Z) (cm : block) (v : Z)
  (iostart iocount : option (list Z)) (ios : iosystem_desc_t) :
  decomp_externals_succeed E ->
  pio_get_iosystem_from_id st iosysid = Some ios -> async ios = false ->
  Forall (fun len => 0 < len) gdims ->
  v <> PIO_REARR_BOX -> v <> PIO_REARR_SUBSET ->
  let r := PIOc_InitDecomp E st iosysid pio_type (Some gdims) (Some cm) true
             (Some v) iostart iocount in
  id_ret r = Returns PIO_NOERR
  /\ exists d,
       pio_get_iodesc_from_id (id_state r) (pio_next_ioid st) = Some d
       /\ rearranger d = v
       /\ plan d
          = plan (malloc_iodesc E ios pio_type (Z.of_nat (length gdims))).2.
Proof.
  intros Hext Hios Hsync Hpos Hbox Hsub r. subst r.
  destruct (InitDecomp_progress E st iosysid pio_type gdims cm
              (Some v) iostart iocount ios Hext Hios Hsync Hpos)
    as [Hret Hid].
  split; [exact Hret |].
  destruct (InitDecomp_descriptor _ _ _ _ _ _ _ _ _ _ _ Hid)
    as (ios' & gdims' & d & Hios' & [= <-] & _ & Hd & _ & Hre & Hplan & _).
  rewrite Hios in Hios'. injection Hios' as <-. cbn in Hre.
  exists d. split; [exact Hd | split; [exact Hre |]].
  apply Hplan; congruence.
Qed.

Lemma InitDecomp_unchecked_rearranger_witness :
  let st := demo_state (demo_ios PIO_RETURN_ERROR PIO_REARR_BOX false)
              [1; 2; 3] in
  let r := PIOc_InitDecomp env_ok st 2048 4 (Some [16]) (Some 1%positive)
             true (Some 7) None None in
  id_ret r = Returns PIO_NOERR
  /\ exists d,
       pio_get_iodesc_from_id (id_state r) 512 = Some d
       /\ rearranger d = 7 /\ ndof (plan d) = 0.
Proof.
  intros st r.
  destruct (InitDecomp_unchecked_rearranger env_ok st 2048 4 [16] 1%positive
              7 None None (demo_ios PIO_RETURN_ERROR PIO_REARR_BOX false)
              env_ok_externals eq_refl eq_refl ltac:(repeat constructor)
              ltac:(discriminate) ltac:(discriminate))
    as (Hret & d & Hd & Hre & Hplan).
  split; [exact Hret |].
  exists d. split; [exact Hd | split; [exact Hre |]].
  now rewrite Hplan.
Defined.

(** *** The stored map as a rearrangement of the caller's map *)

Lemma StronglySorted_le_lookup (l : list Z) :
  StronglySorted Z.le l ->
  forall (i j : nat) (x y : Z),
    (i < j)%nat -> l !! i = Some x -> l !! j = Some y -> x <= y.
Proof.
  induction 1 as [| a l Hl IH Ha]; intros i j x y Hij Hi Hj;
    [discriminate |].
  destruct j as [| j]; [lia |]. cbn in Hj.
  destruct i as [| i]; cbn in Hi.
  - injection Hi as <-. rewrite Forall_forall in Ha. apply Ha.
    apply list_elem_of_lookup. eauto.
  - apply (IH i j); [lia | assumption ..].
Qed.

Lemma nondecreasing_in_order (l : list Z) :
  nondecreasing l -> compute_needssort l = false.
Proof.
  intros Hsorted. apply Sorted_StronglySorted in Hsorted;
    [| intros x y z; apply Z.le_trans].
  apply not_true_is_false. rewrite compute_needssort_iff.
  intros (k & Hk & _ & Hlt).
  destruct (lookup_lt_is_Some_2 l k ltac:(lia)) as [y Hy].
  destruct (lookup_lt_is_Some_2 l (k - 1) ltac:(lia)) as [x Hx].
  rewrite (list_lookup_total_correct l k y Hy) in Hlt.
  rewrite (list_lookup_total_correct l (k - 1) x Hx) in Hlt.
  pose proof (StronglySorted_le_lookup l Hsorted (k - 1) k x y
                ltac:(lia) Hx Hy).
  lia.
Qed.

Lemma fill_tmpsort_keys (compmap : list Z) :
  sm_map <$> fill_tmpsort compmap = compmap.
Proof.
  apply list_eq. intros i. unfold fill_tmpsort.
  rewrite list_lookup_fmap, list_lookup_imap.
  now destruct (compmap !! i).
Qed.

Lemma sorted_map_permutation (E : Env) (compmap : list Z) :
  qsort_conforms E -> Permutation compmap (sorted_map E compmap).1.
Proof.
  intros Hq. destruct (Hq (fill_tmpsort compmap)) as [Hperm _].
  unfold sorted_map. cbn [fst].
  rewrite (tagged_read compmap).
  - rewrite <- (fill_tmpsort_keys compmap) at 1. now apply Permutation_map.
  - eapply Permutation_Forall; [exact Hperm | apply fill_tmpsort_tagged].
Qed.

Lemma expected_map_part_rearranged E compmap len m r s :
  qsort_conforms E ->
  expected_map_part E compmap = (len, m, r, s) ->
  Permutation compmap m /\ compute_needssort m = false.
Proof.
  intros Hq. unfold expected_map_part.
  destruct (compute_needssort compmap) eqn:Hns; intros [= _ <- _ _].
  - split; [now apply sorted_map_permutation |].
    apply nondecreasing_in_order.
    now destruct (sorted_map_spec E compmap Hq) as (_ & Hsorted & _).
  - split; [reflexivity | exact Hns].
Qed.

(** X9.  For a [qsort] that meets the C standard, the map of a registered
    descriptor holds exactly the entries of the caller's compmap, each as
    often as there, and it is in an order that PIOc_InitDecomp would leave
    alone: the test of line 607 finds nothing out of order in it. *)
Theorem InitDecomp_map_rearranged (E : Env) (st : pio_state)
  (iosysid pio_type : Z) (gdimlen : option (list Z)) (cm : block)
  (ioidp : bool) (rearranger_arg : option Z)
  (iostart iocount : option (list Z)) (id : Z) :
  qsort_conforms E ->
  let r := PIOc_InitDecomp E st iosysid pio_type gdimlen (Some cm) ioidp
             rearranger_arg iostart iocount in
  id_ioid r = Some id ->
  exists d,
    pio_get_iodesc_from_id (id_state r) id = Some d
    /\ Permutation (load st cm) (map d)
    /\ compute_needssort (map d) = false
    /\ Z.of_nat (length (map d)) = maplen d.
Proof.
  intros Hq r Hid. subst r.
  destruct (InitDecomp_registered _ _ _ _ _ _ _ _ _ _ _ Hid)
    as (d & Hd & _ & Hmap).
  exists d. split; [exact Hd |].
  pose proof (map_part_maplen _ _ _ Hmap) as Hlen.
  unfold map_part in Hmap. symmetry in Hmap.
  destruct (expected_map_part_rearranged _ _ _ _ _ _ Hq Hmap)
    as [Hperm Hns].
  repeat split; try assumption.
  rewrite Hlen. f_equal. symmetry. now apply Permutation_length.
Qed.

Lemma InitDecomp_map_rearranged_witness :
  let st := demo_state (demo_ios PIO_RETURN_ERROR PIO_REARR_BOX false)
              [3; 1; 2; 1] in
  let r := PIOc_InitDecomp env_ok st 2048 4 (Some [16]) (Some 1%positive)
             true None None None in
  exists d,
    pio_get_iodesc_from_id (id_state r) 512 = Some d
    /\ Permutation [3; 1; 2; 1] (map d)
    /\ compute_needssort (map d) = false
    /\ map d = [1; 1; 2; 3].
Proof.
  intros st r.
  destruct (InitDecomp_map_rearranged env_ok st 2048 4 (Some [16])
              1%positive true None None None 512 env_ok_conforms eq_refl)
    as (d & Hd & Hperm & Hns & _).
  exists d. repeat split; try assumption.
  unfold r, pio_get_iodesc_from_id in Hd. vm_compute in Hd.
  now injection Hd as <-.
Defined.

(** X10.  When every entry of the caller's compmap is positive (no entry
    marks a hole), the map of the registered descriptor is nondecreasing,
    whether or not it had to be sorted. *)
Theorem InitDecomp_positive_map_sorted (E : Env) (st : pio_state)
  (iosysid pio_type : Z) (gdimlen : option (list Z)) (cm : block)
  (ioidp : bool) (rearranger_arg : option Z)
  (iostart iocount : option (list Z)) (id : Z) :
  qsort_conforms E ->
  Forall (fun x => 0 < x) (load st cm) ->
  let r := PIOc_InitDecomp E st iosysid pio_type gdimlen (Some cm) ioidp
             rearranger_arg iostart iocount in
  id_ioid r = Some id ->
  exists d,
    pio_get_iodesc_from_id (id_state r) id = Some d
    /\ nondecreasing (map d).
Proof.
  intros Hq Hpos r Hid. subst r.
  destruct (InitDecomp_registered _ _ _ _ _ _ _ _ _ _ _ Hid)
    as (d & Hd & _ & Hmap).
  exists d. split; [exact Hd |].
  unfold map_part in Hmap. symmetry in Hmap.
  destruct (expected_map_part_rearranged _ _ _ _ _ _ Hq Hmap)
    as [Hperm Hns].
  apply in_order_positive_sorted; [| exact Hns].
  eapply Permutation_Forall; [exact Hperm | exact Hpos].
Qed.

Lemma InitDecomp_positive_map_sorted_witness :
  let st := demo_state (demo_ios PIO_RETURN_ERROR PIO_REARR_BOX false)
              [5; 9; 13; 1] in
  let r := PIOc_InitDecomp env_ok st 2048 4 (Some [16]) (Some 1%positive)
             true None None None in
  exists d,
    pio_get_iodesc_from_id (id_state r) 512 = Some d
    /\ nondecreasing (map d).
Proof.
  intros st r.
  apply (InitDecomp_positive_map_sorted env_ok st 2048 4 (Some [16])
           1%positive true None None None 512 env_ok_conforms).
  - unfold st, load. cbn. repeat constructor.
  - reflexivity.
Defined.

(** *** Ids that are in use *)



(** *** The private copy for the duplicate check *)

(** X12.  When the duplicate check of the subset rearranger fails, the call
    ends with the code of the check (through pio_err) and stores no id, and
    the private copy of the map made for the check (line 667) is still
    allocated afterwards, holding what the check left in it: the return of
    line 671 comes before the free of line 672. *)
Theorem InitDecomp_unique_check_copy_kept (E : Env) (st : pio_state)
  (iosysid pio_type : Z) (gdims : list Z) (cm : block)
  (rearranger_arg : option Z) (iostart iocount : option (list Z))
  (ios : iosystem_desc_t) :
  pio_get_iosystem_from_id st iosysid = Some ios -> async ios = false ->
  Forall (fun len => 0 < len) gdims ->
  (malloc_iodesc E ios pio_type (Z.of_nat (length gdims))).1 = 0 ->
  allocation_fails E ios (load st cm) rearranger_arg = false ->
  compproc ios = true ->
  rearranger_used ios rearranger_arg = PIO_REARR_SUBSET ->
  (run_unique_check E (comp_comm ios) (load st cm)).1.1 <> 0 ->
  let r := PIOc_InitDecomp E st iosysid pio_type (Some gdims) (Some cm) true
             rearranger_arg iostart iocount in
  let tmpmap := fresh (dom (mem st)) in
  fails_with st (Some ios)
    (run_unique_check E (comp_comm ios) (load st cm)).1.1 (id_ret r)
  /\ id_ioid r = None
  /\ mem st !! tmpmap = None
  /\ mem (id_state r)
     = <[tmpmap := (run_unique_check E (comp_comm ios) (load st cm)).2]>
         (mem st).
Proof.
  intros Hios Hsync Hpos Hmalloc Halloc Hcomp Hre Hchk r tmpmap.
  subst r tmpmap. unfold PIOc_InitDecomp.
  rewrite Hios, (dims_checked_good gdims Hpos), Hsync.
  destruct (malloc_iodesc E ios pio_type (Z.of_nat (length gdims)))
    as [ierr d0].
  cbn in Hmalloc. subst ierr. cbn [negb Z.eqb].
  unfold allocation_fails in Halloc.
  apply orb_false_elim in Halloc as [Hrem Htmp].
  destruct (remember_map_alloc_ok E (load st cm) gdims d0 Hrem) as [d1 ->].
  fold (rearranger_used ios rearranger_arg). rewrite Hre in *.
  rewrite Hcomp in Htmp. cbn in Htmp. cbn [rearranger set_rearranger].
  rewrite Z.eqb_refl.
  unfold create_subset, malloc_block. rewrite Hcomp, Htmp, load_store.
  destruct (run_unique_check E (comp_comm ios) (load st cm))
    as [[ierr ro] written].
  cbn in Hchk. apply Z.eqb_neq in Hchk. rewrite Hchk. cbn.
  split; [apply pio_err_fails_with | split; [reflexivity | split]].
  - apply not_elem_of_dom, is_fresh.
  - apply insert_insert_eq.
Qed.

Lemma InitDecomp_unique_check_copy_kept_witness :
  let E := with_unique_check (fun _ m => (-7, false, (fun _ => 0) <$> m))
             env_ok in
  let st := demo_state (demo_ios PIO_RETURN_ERROR PIO_REARR_SUBSET false)
              [1; 2; 3] in
  let r := PIOc_InitDecomp E st 2048 4 (Some [16]) (Some 1%positive) true
             None None None in
  id_ret r = Returns (-7) /\ id_ioid r = None
  /\ mem st !! 2%positive = None
  /\ mem (id_state r) !! 2%positive = Some [0; 0; 0].
Proof.
  intros E st r.
  destruct (InitDecomp_unique_check_copy_kept E st 2048 4 [16] 1%positive
              None None None
              (demo_ios PIO_RETURN_ERROR PIO_REARR_SUBSET false)
              eq_refl eq_refl ltac:(repeat constructor) eq_refl eq_refl
              eq_refl eq_refl ltac:(discriminate))
    as (Hret & Hid & Hfree & Hmem).
  split; [| split; [exact Hid | split; [exact Hfree |]]].
  - apply (fails_with_returns _ _ _ _ Hret). discriminate.
  - etransitivity; [exact (f_equal (fun m => m !! 2%positive) Hmem) |].
    exact (lookup_insert_eq (mem st) (fresh (dom (mem st))) _).
Defined.

(** ** The iosystem that PIOc_Init_Intracomm registers *)

Lemma existsb_eqb_elem (x : Z) (l : list Z) :
  existsb (fun r => r =? x) l = true <-> x ∈ l.
Proof.
  rewrite existsb_exists. split.
  - intros (y & Hin & Hy). apply Z.eqb_eq in Hy. subst y.
    now apply list_elem_of_In.
  - intros Hin. exists x. split; [now apply list_elem_of_In | apply Z.eqb_refl].
Qed.

(** The state after a call that stores an iosysid, and the descriptor in
    it. *)
Lemma Init_Intracomm_layout E st comm n_io stride base rearr iosysidp id :
  ii_iosysid (PIOc_Init_Intracomm E st comm n_io stride base rearr iosysidp)
  = Some id ->
  exists ios,
    id = new_iosysid E
    /\ ii_state (PIOc_Init_Intracomm E st comm n_io stride base rearr
                   iosysidp)
       = set_iosystem_list (<[id := ios]> (pio_iosystem_list st)) st
    /\ sync_layout ios
    /\ num_iotasks ios = n_io
    /\ num_comptasks ios = (MPI_Comm_size E comm).2
    /\ ioranks ios = compute_ioranks base stride n_io (MPI_Comm_size E comm).2
    /\ error_handler ios = default_error_handler st
    /\ default_rearranger ios = rearr
    /\ comp_rank ios = (MPI_Comm_rank E (MPI_Comm_dup_comp E comm).2).2.
Proof.
  unfold PIOc_Init_Intracomm, pio_add_to_iosystem_list.
  repeat case_match; cbn; try discriminate; intros [= <-];
    (eexists; split; [reflexivity | split; [reflexivity |]]);
    (split; [| repeat split]);
    unfold sync_layout; cbn;
    (repeat split; try apply compute_ioranks_length;
     try (intros; apply existsb_eqb_elem; assumption);
     try (intros; discriminate);
     try (intros Hin; apply existsb_eqb_elem in Hin; congruence);
     try (intros; congruence);
     try (repeat match goal with
                 | H : _ = (_, _) |- _ => rewrite H
                 end; reflexivity)).
Qed.

(** X13.  A call of PIOc_Init_Intracomm that stores an iosysid has
    registered, under that id, a descriptor of a synchronous iosystem: not
    async, as many union tasks as computation tasks, this task a
    computation task whose union rank is its computation rank and whose
    communicator is the computation communicator, no intercommunicator,
    computation ranks 0, 1, ..., one I/O rank per I/O task, the first of
    them the I/O root, this task an I/O task exactly when its rank is among
    the I/O ranks, and I/O rank -1 when it is not.  The descriptor inherits
    the default error handler in force at the call and takes the rearranger
    of the call as its default. *)
Theorem Init_Intracomm_sync_layout (E : Env) (st : pio_state)
  (comm : MPI_Comm) (n_io stride base rearr : Z) (iosysidp : bool) (id : Z) :
  let r := PIOc_Init_Intracomm E st comm n_io stride base rearr iosysidp in
  ii_iosysid r = Some id ->
  exists ios,
    pio_get_iosystem_from_id (ii_state r) id = Some ios
    /\ sync_layout ios
    /\ error_handler ios = default_error_handler st
    /\ default_rearranger ios = rearr.
Proof.
  intros r Hid. subst r.
  destruct (Init_Intracomm_layout _ _ _ _ _ _ _ _ _ Hid)
    as (ios & _ & Hst & Hlay & _ & _ & _ & Hh & Hre & _).
  exists ios. rewrite Hst. unfold pio_get_iosystem_from_id. cbn.
  rewrite lookup_insert_eq. auto.
Qed.

Lemma Init_Intracomm_sync_layout_witness :
  let r := PIOc_Init_Intracomm env_ok initial_state (MPI_Comm_handle 9)
             2 2 1 PIO_REARR_SUBSET true in
  exists ios,
    pio_get_iosystem_from_id (ii_state r) 2048 = Some ios
    /\ sync_layout ios
    /\ error_handler ios = PIO_INTERNAL_ERROR
    /\ default_rearranger ios = PIO_REARR_SUBSET.
Proof.
  intros r.
  exact (Init_Intracomm_sync_layout env_ok initial_state (MPI_Comm_handle 9)
           2 2 1 PIO_REARR_SUBSET true 2048 eq_refl).
Defined.

(** X14.  The inquiry functions on an iosystem that PIOc_Init_Intracomm has
    just registered: PIOc_get_numiotasks stores the num_iotasks of the
    call, PIOc_iam_iotask stores whether this task's rank is one of the I/O
    ranks (base + i * stride) % n_comp, PIOc_iotask_rank stores -1 on a
    task that is not an I/O task, and all three return PIO_NOERR. *)
Theorem Init_Intracomm_inquiries (E : Env) (st : pio_state)
  (comm : MPI_Comm) (n_io stride base rearr : Z) (iosysidp : bool) (id : Z) :
  let r := PIOc_Init_Intracomm E st comm n_io stride base rearr iosysidp in
  let crank := (MPI_Comm_rank E (MPI_Comm_dup_comp E comm).2).2 in
  let ranks := compute_ioranks base stride n_io (MPI_Comm_size E comm).2 in
  ii_iosysid r = Some id ->
  PIOc_get_numiotasks (ii_state r) id true = (Returns PIO_NOERR, Some n_io)
  /\ PIOc_iam_iotask (ii_state r) id true
     = (Returns PIO_NOERR, Some (bool_decide (crank ∈ ranks)))
  /\ (crank ∉ ranks ->
      PIOc_iotask_rank (ii_state r) id true = (Returns PIO_NOERR, Some (-1))).
Proof.
  intros r crank ranks Hid. subst r crank ranks.
  destruct (Init_Intracomm_layout _ _ _ _ _ _ _ _ _ Hid)
    as (ios & _ & Hst & Hlay & Hn & _ & Hranks & _ & _ & Hcrank).
  destruct Hlay as (_ & _ & _ & _ & _ & _ & _ & _ & _ & Hio & Hnot).
  rewrite Hranks, Hcrank in Hio.
  unfold PIOc_get_numiotasks, PIOc_iam_iotask, PIOc_iotask_rank,
    pio_get_iosystem_from_id.
  rewrite Hst. cbn. rewrite lookup_insert_eq, Hn.
  split; [reflexivity | split].
  - do 2 f_equal. destruct (ioproc ios).
    + symmetry. apply bool_decide_eq_true_2. now apply Hio.
    + symmetry. apply bool_decide_eq_false_2. intros Hin.
      apply Hio in Hin. discriminate.
  - intros Hnotin. do 2 f_equal. apply Hnot.
    destruct (ioproc ios); [| reflexivity].
    exfalso. apply Hnotin. now apply Hio.
Qed.

Lemma Init_Intracomm_inquiries_witness :
  let r := PIOc_Init_Intracomm env_ok initial_state (MPI_Comm_handle 9)
             2 2 1 PIO_REARR_BOX true in
  PIOc_get_numiotasks (ii_state r) 2048 true = (Returns PIO_NOERR, Some 2)
  /\ PIOc_iam_iotask (ii_state r) 2048 true = (Returns PIO_NOERR, Some false)
  /\ PIOc_iotask_rank (ii_state r) 2048 true = (Returns PIO_NOERR, Some (-1)).
Proof.
  intros r.
  destruct (Init_Intracomm_inquiries env_ok initial_state (MPI_Comm_handle 9)
              2 2 1 PIO_REARR_BOX true 2048 eq_refl) as (Hn & Hio & Hrank).
  split; [exact Hn | split; [exact Hio |]].
  apply Hrank. intros Hin.
  apply list_elem_of_In in Hin. vm_compute in Hin.
  destruct Hin as [H | [H | []]]; discriminate H.
Defined.

Lemma compute_ioranks_valid (base stride n_io n_comp : Z) :
  0 <= base -> 1 <= stride -> 1 <= n_io -> n_io * stride <= n_comp ->
  base + n_io * stride <= INT_MAX ->
  Forall (fun rank => 0 <= rank < n_comp)
    (compute_ioranks base stride n_io n_comp)
  /\ NoDup (compute_ioranks base stride n_io n_comp).
Proof.
  intros Hbase Hstride Hn Hfit Hmax.
  assert (Hpos : 0 < n_comp) by nia.
  assert (Hplain : forall i : nat,
    Z.of_nat i < n_io ->
    Z.rem (wrap_int (base + wrap_int (Z.of_nat i * stride))) n_comp
    = (base + Z.of_nat i * stride) mod n_comp).
  { intros i Hi.
    rewrite (wrap_int_small (Z.of_nat i * stride))
      by (unfold in_int, INT_MIN; nia).
    rewrite wrap_int_small by (unfold in_int, INT_MIN; nia).
    apply Z.rem_mod_nonneg; nia. }
  unfold compute_ioranks. split.
  - apply Forall_fmap, Forall_forall. intros i Hi. cbn.
    apply elem_of_seq in Hi. rewrite Hplain by lia.
    now apply Z.mod_pos_bound.
  - assert (Hdiff : forall i j : nat,
      (i < j)%nat -> Z.of_nat j < n_io ->
      (base + Z.of_nat i * stride) mod n_comp
      <> (base + Z.of_nat j * stride) mod n_comp).
    { intros i j Hij Hj Heq.
      assert (Hgap : (base + Z.of_nat j * stride
                      - (base + Z.of_nat i * stride)) mod n_comp = 0).
      { rewrite Zminus_mod, Heq, Z.sub_diag. now apply Z.mod_0_l, Z.neq_sym,
          Z.lt_neq. }
      rewrite Z.mod_small in Hgap by nia. nia. }
    apply NoDup_fmap_2_strong; [| apply NoDup_seq].
    intros i j Hi Hj Heq.
    apply elem_of_seq in Hi, Hj.
    rewrite !Hplain in Heq by lia.
    destruct (Nat.lt_total i j) as [Hlt | [-> | Hlt]]; [| reflexivity |].
    + exfalso. apply (Hdiff i j); [exact Hlt | lia | exact Heq].
    + exfalso. apply (Hdiff j i); [exact Hlt | lia | now symmetry].
Qed.

(** X15.  With a stride of at least 1, a base that is not negative and
    base + num_iotasks * stride in the range of int (so that neither the
    product of line 991 nor the rank formula of line 1050 overflows), the
    I/O ranks of an iosystem registered by PIOc_Init_Intracomm are ranks of
    the computation communicator (between 0 and n_comp - 1) and no rank
    occurs twice: the iosystem has num_iotasks different I/O tasks. *)
Theorem Init_Intracomm_ioranks_distinct (E : Env) (st : pio_state)
  (comm : MPI_Comm) (n_io stride base rearr : Z) (iosysidp : bool) (id : Z) :
  0 <= base -> 1 <= stride -> base + n_io * stride <= INT_MAX ->
  let r := PIOc_Init_Intracomm E st comm n_io stride base rearr iosysidp in
  ii_iosysid r = Some id ->
  exists ios,
    pio_get_iosystem_from_id (ii_state r) id = Some ios
    /\ length (ioranks ios) = Z.to_nat (num_iotasks ios)
    /\ Forall (fun rank => 0 <= rank < num_comptasks ios) (ioranks ios)
    /\ NoDup (ioranks ios).
Proof.
  intros Hbase Hstride Hmax r Hid. subst r.
  destruct (Init_Intracomm_registered _ _ _ _ _ _ _ _ _ Hid)
    as (_ & Hmin & Hfit & ios & Hios & Hn & Hc & Hranks).
  rewrite wrap_int_small in Hfit by (unfold in_int, INT_MIN; nia).
  exists ios. split; [exact Hios |].
  rewrite Hranks, Hn, Hc.
  split; [apply compute_ioranks_length |].
  now apply compute_ioranks_valid.
Qed.

Lemma Init_Intracomm_ioranks_distinct_witness :
  let r := PIOc_Init_Intracomm env_ok initial_state (MPI_Comm_handle 9)
             2 2 1 PIO_REARR_BOX true in
  exists ios,
    pio_get_iosystem_from_id (ii_state r) 2048 = Some ios
    /\ length (ioranks ios) = Z.to_nat (num_iotasks ios)
    /\ Forall (fun rank => 0 <= rank < num_comptasks ios) (ioranks ios)
    /\ NoDup (ioranks ios).
Proof.
  intros r.
  exact (Init_Intracomm_ioranks_distinct env_ok initial_state
           (MPI_Comm_handle 9) 2 2 1 PIO_REARR_BOX true 2048
           ltac:(lia) ltac:(lia) ltac:(discriminate) eq_refl).
Defined.

Lemma env_ok_init_externals : init_externals_succeed env_ok.
Proof. repeat split. Qed.

(** X16.  When logging, MPI and the allocations do not fail,
    PIOc_Init_Intracomm with a non-NULL iosysidp, at least one I/O task and
    a product num_iotasks * stride that is in the range of int and no
    larger than the number of computation tasks returns PIO_NOERR and
    stores the id that the list module gave to the new iosystem. *)
Theorem Init_Intracomm_succeeds (E : Env) (st : pio_state)
  (comm : MPI_Comm) (n_io stride base rearr : Z) :
  init_externals_succeed E ->
  1 <= n_io -> in_int (n_io * stride) ->
  n_io * stride <= (MPI_Comm_size E comm).2 ->
  let r := PIOc_Init_Intracomm E st comm n_io stride base rearr true in
  ii_ret r = Returns PIO_NOERR /\ ii_iosysid r = Some (new_iosysid E).
Proof.
  intros (Hlog & Hios & Hcr & Hir & Hsize & Hdup1 & Hdup2 & Hrank & Hgroup
          & Hincl & Hcreate) Hmin Hint Hfit r.
  subst r. unfold PIOc_Init_Intracomm, pio_add_to_iosystem_list.
  rewrite Hlog, Hios, Hcr, Hir, (wrap_int_small _ Hint). cbn [Z.eqb negb].
  specialize (Hsize comm).
  destruct (MPI_Comm_size E comm) as [rc n_comp]. cbn in Hsize, Hfit.
  subst rc. cbn [MPI_SUCCESS Z.eqb negb orb].
  apply Z.ltb_ge in Hmin. rewrite Hmin.
  assert (Hfit' : (n_io * stride >? n_comp) = false)
    by (rewrite Z.gtb_ltb; now apply Z.ltb_ge).
  rewrite Hfit'. cbn [orb].
  specialize (Hdup1 comm). destruct (MPI_Comm_dup_union E comm) as [rc1 u].
  cbn in Hdup1. subst rc1. cbn [MPI_SUCCESS Z.eqb negb].
  specialize (Hdup2 comm). destruct (MPI_Comm_dup_comp E comm) as [rc2 c].
  cbn in Hdup2. subst rc2. cbn [MPI_SUCCESS Z.eqb negb].
  pose proof (Hrank c) as Hr. destruct (MPI_Comm_rank E c) as [rc3 crank].
  cbn in Hr. subst rc3. cbn [MPI_SUCCESS Z.eqb negb].
  rewrite Hgroup, Hincl. cbn [MPI_SUCCESS Z.eqb negb].
  match goal with
  | |- context [MPI_Comm_create E ?a ?b] =>
      pose proof (Hcreate a b) as Hc;
      destruct (MPI_Comm_create E a b) as [rc4 iocomm]
  end.
  cbn in Hc. subst rc4. cbn [MPI_SUCCESS Z.eqb negb].
  destruct (existsb _ _).
  - pose proof (Hrank iocomm) as Hr.
    destruct (MPI_Comm_rank E iocomm) as [rc5 iorank].
    cbn in Hr. subst rc5. cbn. split; reflexivity.
  - cbn. split; reflexivity.
Qed.

Lemma Init_Intracomm_succeeds_witness :
  let r := PIOc_Init_Intracomm env_ok initial_state (MPI_Comm_handle 9)
             4 1 0 PIO_REARR_BOX true in
  ii_ret r = Returns PIO_NOERR /\ ii_iosysid r = Some 2048.
Proof.
  intros r.
  exact (Init_Intracomm_succeeds env_ok initial_state (MPI_Comm_handle 9)
           4 1 0 PIO_REARR_BOX env_ok_init_externals ltac:(lia)
           ltac:(unfold in_int, INT_MIN, INT_MAX; lia) ltac:(cbn; lia)).
Defined.

(** X17.  What PIOc_Init_Intracomm leaves alone.  A call that stores no
    iosysid leaves the library state exactly as it was, whatever failed and
    wherever; a call that stores one has changed nothing but the entry of
    that id in the list of iosystems: the other iosystems, the
    decompositions, the next decomposition id, the default error handler
    and the arrays are as before. *)
Theorem Init_Intracomm_frame (E : Env) (st : pio_state)
  (comm : MPI_Comm) (n_io stride base rearr : Z) (iosysidp : bool) :
  let r := PIOc_Init_Intracomm E st comm n_io stride base rearr iosysidp in
  match ii_iosysid r with
  | None => ii_state r = st
  | Some id =>
      (forall other, other <> id ->
         pio_get_iosystem_from_id (ii_state r) other
         = pio_get_iosystem_from_id st other)
      /\ pio_iodesc_list (ii_state r) = pio_iodesc_list st
      /\ pio_next_ioid (ii_state r) = pio_next_ioid st
      /\ default_error_handler (ii_state r) = default_error_handler st
      /\ mem (ii_state r) = mem st
  end.
Proof.
  intros r. subst r.
  destruct (ii_iosysid _) as [id |] eqn:Hid.
  - destruct (Init_Intracomm_layout _ _ _ _ _ _ _ _ _ Hid)
      as (ios & _ & -> & _).
    unfold pio_get_iosystem_from_id. cbn. repeat split.
    intros other Hne. now apply lookup_insert_ne.
  - revert Hid. unfold PIOc_Init_Intracomm, pio_add_to_iosystem_list.
    repeat case_match; cbn; intros Hid; first [reflexivity | discriminate].
Qed.

(** ** Error handlers *)

Lemma set_error_handler_back (h : Z) (ios : iosystem_desc_t) :
  set_error_handler (error_handler ios) (set_error_handler h ios) = ios.
Proof. now destruct ios. Qed.

Lemma set_iosystem_list_same (st : pio_state) :
  set_iosystem_list (pio_iosystem_list st) st = st.
Proof. now destruct st. Qed.

Lemma handlers_valid_initial : handlers_valid initial_state.
Proof. split; [reflexivity | intros id ios H; discriminate H]. Qed.

(** X18.  Setting a handler and then setting the handler that the first
    call reported as the old one brings the library back to the state it
    was in; the second call reports the handler of the first as the old
    one.  This holds for the library default and for a synchronous
    iosystem, in a library whose handlers are among the three of pio.h. *)
Theorem error_handling_round_trip (E1 E2 : Env) (st : pio_state)
  (iosysid method : Z) :
  handlers_valid st ->
  (iosysid = PIO_DEFAULT
   \/ exists ios,
        pio_get_iosystem_from_id st iosysid = Some ios
        /\ async ios = false) ->
  valid_error_handler method = true ->
  let r1 := PIOc_set_iosystem_error_handling E1 st iosysid method true in
  exists old,
    seh_ret r1 = Returns PIO_NOERR /\ seh_old_method r1 = Some old
    /\ let r2 := PIOc_set_iosystem_error_handling E2 (seh_state r1) iosysid
                   old true in
       seh_ret r2 = Returns PIO_NOERR
       /\ seh_old_method r2 = Some method
       /\ seh_state r2 = st.
Proof.
  intros [Hdef Hall] Htarget Hvalid r1. subst r1.
  unfold PIOc_set_iosystem_error_handling.
  destruct (iosysid =? PIO_DEFAULT) eqn:Hd.
  - cbn. rewrite Hvalid. cbn.
    exists (default_error_handler st). rewrite Hdef. cbn.
    repeat split. now destruct st.
  - destruct Htarget as [-> | (ios & Hios & Hsync)]; [discriminate Hd |].
    rewrite Hios, Hvalid. cbn. rewrite Hsync. cbn.
    exists (error_handler ios).
    unfold pio_get_iosystem_from_id in *. cbn.
    rewrite lookup_insert_eq, (Hall iosysid ios Hios). cbn.
    rewrite Hsync. cbn. repeat split.
    rewrite insert_insert_eq, set_error_handler_back, insert_id by exact Hios.
    now destruct st.
Qed.

Lemma error_handling_round_trip_witness :
  let st := demo_state (demo_ios PIO_BCAST_ERROR 1 false) [] in
  let r1 := PIOc_set_iosystem_error_handling env_ok st 2048
              PIO_RETURN_ERROR true in
  seh_old_method r1 = Some PIO_BCAST_ERROR
  /\ seh_state (PIOc_set_iosystem_error_handling env_ok (seh_state r1) 2048
                  PIO_BCAST_ERROR true) = st.
Proof.
  intros st r1.
  destruct (error_handling_round_trip env_ok env_ok st 2048 PIO_RETURN_ERROR)
    as (old & _ & Hold & _ & _ & Hback).
  - split; [reflexivity |].
    intros id ios Hios. unfold st in Hios. cbn in Hios.
    apply lookup_singleton_Some in Hios as [_ <-]. reflexivity.
  - right. eexists. split; reflexivity.
  - reflexivity.
  - split; [reflexivity |].
    assert (Hval : Some old = Some PIO_BCAST_ERROR)
      by (rewrite <- Hold; reflexivity).
    injection Hval as ->. exact Hback.
Defined.

Lemma Init_Intracomm_unchanged E st comm n_io stride base rearr iosysidp :
  ii_iosysid (PIOc_Init_Intracomm E st comm n_io stride base rearr iosysidp)
  = None ->
  ii_state (PIOc_Init_Intracomm E st comm n_io stride base rearr iosysidp)
  = st.
Proof.
  unfold PIOc_Init_Intracomm, pio_add_to_iosystem_list.
  repeat case_match; cbn; intros Hid; first [reflexivity | discriminate].
Qed.

Lemma set_iosystem_error_handling_valid E st iosysid method b :
  handlers_valid st ->
  handlers_valid
    (seh_state (PIOc_set_iosystem_error_handling E st iosysid method b)).
Proof.
  intros [Hdef Hall]. unfold PIOc_set_iosystem_error_handling.
  repeat case_match; cbn; try (split; assumption);
    match goal with
    | H : negb (valid_error_handler method) = false |- _ =>
        apply negb_false_iff in H
    end;
    (split; cbn;
     [first [exact Hdef | assumption]
     | first [exact Hall
             | intros id ios' Hios;
               destruct (decide (id = iosysid)) as [-> | Hne];
               [rewrite lookup_insert_eq in Hios; injection Hios as <-;
                assumption
               | rewrite lookup_insert_ne in Hios by congruence; eauto]]]).
Qed.

(** X19.  The handlers stay among the three.  In a library where the
    default handler and the handler of every iosystem is InternalError,
    BcastError or ReturnError (as at start-up), this is still so after any
    call of PIOc_set_iosystem_error_handling,
    PIOc_Set_IOSystem_Error_Handling, PIOc_Init_Intracomm, PIOc_InitDecomp
    or PIOc_free_iosystem, whatever the arguments and whatever fails. *)
Theorem handlers_stay_valid (E : Env) (st : pio_state) :
  handlers_valid st ->
  (forall iosysid method b,
     handlers_valid
       (seh_state (PIOc_set_iosystem_error_handling E st iosysid method b)))
  /\ (forall iosysid method o st',
        PIOc_Set_IOSystem_Error_Handling E st iosysid method = Some (o, st') ->
        handlers_valid st')
  /\ (forall comm n_io stride base rearr iosysidp,
        handlers_valid
          (ii_state (PIOc_Init_Intracomm E st comm n_io stride base rearr
                       iosysidp)))
  /\ (forall iosysid pio_type gdimlen compmap ioidp rearranger_arg iostart
        iocount,
        handlers_valid
          (id_state (PIOc_InitDecomp E st iosysid pio_type gdimlen compmap
                       ioidp rearranger_arg iostart iocount)))
  /\ (forall iosysid, handlers_valid (PIOc_free_iosystem E st iosysid).2).
Proof.
  intros Hv. split; [| split; [| split; [| split]]].
  - intros. now apply set_iosystem_error_handling_valid.
  - intros iosysid method o st'. unfold PIOc_Set_IOSystem_Error_Handling.
    pose proof (set_iosystem_error_handling_valid E st iosysid method true Hv).
    repeat case_match; intros [= _ <-]; assumption.
  - intros comm n_io stride base rearr iosysidp.
    destruct (ii_iosysid (PIOc_Init_Intracomm E st comm n_io stride base
                            rearr iosysidp)) as [id |] eqn:Hid.
    + destruct (Init_Intracomm_layout _ _ _ _ _ _ _ _ _ Hid)
        as (ios & _ & -> & _ & _ & _ & _ & Hh & _).
      destruct Hv as [Hdef Hall]. split; [exact Hdef |]. cbn.
      intros id' ios' Hios.
      destruct (decide (id' = id)) as [-> | Hne].
      * rewrite lookup_insert_eq in Hios. injection Hios as <-.
        now rewrite Hh.
      * rewrite lookup_insert_ne in Hios by congruence. eauto.
    + now rewrite Init_Intracomm_unchanged.
  - intros iosysid pio_type gdimlen compmap ioidp rearranger_arg iostart
      iocount.
    destruct (InitDecomp_effect_holds E st iosysid pio_type gdimlen compmap
                ioidp rearranger_arg iostart iocount)
      as (_ & Hh & Hl & _).
    destruct Hv as [Hdef Hall]. unfold handlers_valid.
    rewrite Hh, Hl. auto.
  - intros iosysid. destruct Hv as [Hdef Hall].
    unfold PIOc_free_iosystem, pio_num_iosystem,
      pio_delete_iosystem_from_list.
    repeat case_match; simplify_eq; cbn;
      (split;
       [exact Hdef
       | first [exact Hall
               | cbn; intros id ios' Hios';
                 apply lookup_delete_Some in Hios' as [_ Hios']; eauto]]).
Qed.

Lemma handlers_stay_valid_witness :
  handlers_valid
    (ii_state (PIOc_Init_Intracomm env_ok
                 (seh_state (PIOc_set_iosystem_error_handling env_ok
                               initial_state PIO_DEFAULT PIO_RETURN_ERROR
                               false))
                 (MPI_Comm_handle 9) 2 2 1 PIO_REARR_BOX true)).
Proof.
  apply (handlers_stay_valid env_ok).
  apply (handlers_stay_valid env_ok initial_state handlers_valid_initial).
Defined.

(** X20.  The deprecated PIOc_Set_IOSystem_Error_Handling.  An iosysid that
    is neither PIO_DEFAULT nor registered, and a method that is not one of
    the three, abort the process whatever the handler in force, and the
    library is left as it was.  For PIO_DEFAULT or a synchronous iosystem
    and one of the three methods, the call returns the handler that was in
    force and leaves the library in the state that
    PIOc_set_iosystem_error_handling produces. *)
Theorem Set_IOSystem_Error_Handling_spec (E : Env) (st : pio_state)
  (iosysid method : Z) :
  let target := if iosysid =? PIO_DEFAULT then None
                else pio_get_iosystem_from_id st iosysid in
  let r := PIOc_Set_IOSystem_Error_Handling E st iosysid method in
  (iosysid <> PIO_DEFAULT -> target = None -> r = Some (Aborts, st))
  /\ ((iosysid = PIO_DEFAULT \/ is_Some target) ->
      valid_error_handler method = false -> r = Some (Aborts, st))
  /\ ((iosysid = PIO_DEFAULT
       \/ exists ios, target = Some ios /\ async ios = false) ->
      valid_error_handler method = true ->
      r = Some (Returns (handler_in_force st target),
                seh_state (PIOc_set_iosystem_error_handling E st iosysid
                             method false))).
Proof.
  intros target r. subst target r.
  unfold PIOc_Set_IOSystem_Error_Handling, PIOc_set_iosystem_error_handling.
  destruct (iosysid =? PIO_DEFAULT) eqn:Hd; cbn [negb andb].
  - apply Z.eqb_eq in Hd. split; [congruence | split].
    + intros _ ->. cbn. unfold pio_err.
      destruct (handler_in_force st None =? PIO_INTERNAL_ERROR); reflexivity.
    + intros _ ->. reflexivity.
  - split; [| split].
    + intros _ ->. reflexivity.
    + intros [-> | [ios Hios]] Hbad; [discriminate Hd |].
      rewrite Hios, Hbad. cbn. unfold pio_err.
      destruct (handler_in_force st (Some ios) =? PIO_INTERNAL_ERROR);
        reflexivity.
    + intros [-> | (ios & Hios & Hsync)] Hgood; [discriminate Hd |].
      rewrite Hios, Hgood. cbn. rewrite Hsync. reflexivity.
Qed.

Lemma Set_IOSystem_Error_Handling_spec_witness :
  let st := demo_state (demo_ios PIO_RETURN_ERROR 1 false) [] in
  PIOc_Set_IOSystem_Error_Handling env_ok st 7 PIO_BCAST_ERROR
  = Some (Aborts, st)
  /\ PIOc_Set_IOSystem_Error_Handling env_ok st 2048 0 = Some (Aborts, st)
  /\ fst <$> PIOc_Set_IOSystem_Error_Handling env_ok st 2048 PIO_BCAST_ERROR
     = Some (Returns PIO_RETURN_ERROR).
Proof.
  intros st.
  destruct (Set_IOSystem_Error_Handling_spec env_ok st 7 PIO_BCAST_ERROR)
    as (Hunknown & _ & _).
  destruct (Set_IOSystem_Error_Handling_spec env_ok st 2048 0)
    as (_ & Hbad & _).
  destruct (Set_IOSystem_Error_Handling_spec env_ok st 2048 PIO_BCAST_ERROR)
    as (_ & _ & Hgood).
  split; [apply Hunknown; [discriminate | reflexivity] | split].
  - apply Hbad; [right; eexists; reflexivity | reflexivity].
  - rewrite Hgood; [reflexivity | | reflexivity].
    right. eexists. split; reflexivity.
Defined.

(** X21.  A new iosystem takes the default handler of the moment.  After
    PIOc_set_iosystem_error_handling has made [method] the library default,
    an iosystem registered by PIOc_Init_Intracomm has [method] as its
    handler, and it keeps it when the library default is changed again. *)
Theorem new_iosystem_inherits_handler (E1 E2 E3 : Env) (st : pio_state)
  (method method' : Z) (b b' : bool) (comm : MPI_Comm)
  (n_io stride base rearr : Z) (iosysidp : bool) (id : Z) :
  valid_error_handler method = true ->
  let st1 := seh_state (PIOc_set_iosystem_error_handling E1 st PIO_DEFAULT
                          method b) in
  let r := PIOc_Init_Intracomm E2 st1 comm n_io stride base rearr iosysidp in
  let st3 := seh_state (PIOc_set_iosystem_error_handling E3 (ii_state r)
                          PIO_DEFAULT method' b') in
  ii_iosysid r = Some id ->
  error_handler <$> pio_get_iosystem_from_id (ii_state r) id = Some method
  /\ error_handler <$> pio_get_iosystem_from_id st3 id = Some method.
Proof.
  intros Hvalid st1 r st3 Hid. subst st3 r.
  destruct (Init_Intracomm_layout _ _ _ _ _ _ _ _ _ Hid)
    as (ios & _ & Hst & _ & _ & _ & _ & Hh & _).
  assert (Hdef : default_error_handler st1 = method).
  { subst st1. unfold PIOc_set_iosystem_error_handling. cbn.
    rewrite Hvalid. reflexivity. }
  assert (Hnow : pio_get_iosystem_from_id
                   (ii_state (PIOc_Init_Intracomm E2 st1 comm n_io stride
                                base rearr iosysidp)) id = Some ios).
  { rewrite Hst. unfold pio_get_iosystem_from_id. cbn.
    apply lookup_insert_eq. }
  split.
  - rewrite Hnow. cbn. congruence.
  - unfold PIOc_set_iosystem_error_handling. cbn.
    destruct (negb (valid_error_handler method')); cbn;
      [| unfold pio_get_iosystem_from_id in *; cbn];
      rewrite Hnow; cbn; congruence.
Qed.

Lemma new_iosystem_inherits_handler_witness :
  let st1 := seh_state (PIOc_set_iosystem_error_handling env_ok initial_state
                          PIO_DEFAULT PIO_BCAST_ERROR false) in
  let r := PIOc_Init_Intracomm env_ok st1 (MPI_Comm_handle 9) 2 2 1
             PIO_REARR_BOX true in
  let st3 := seh_state (PIOc_set_iosystem_error_handling env_ok (ii_state r)
                          PIO_DEFAULT PIO_RETURN_ERROR false) in
  error_handler <$> pio_get_iosystem_from_id st3 2048 = Some PIO_BCAST_ERROR
  /\ default_error_handler st3 = PIO_RETURN_ERROR.
Proof.
  intros st1 r st3.
  destruct (new_iosystem_inherits_handler env_ok env_ok env_ok initial_state
              PIO_BCAST_ERROR PIO_RETURN_ERROR false false
              (MPI_Comm_handle 9) 2 2 1 PIO_REARR_BOX true 2048
              eq_refl eq_refl) as [_ Hkept].
  split; [exact Hkept | reflexivity].
Defined.

(** ** PIOc_free_iosystem *)

(** X22.  PIOc_free_iosystem.  An unknown iosysid is answered with
    PIO_EBADID through pio_err under the default handler.  For a registered
    iosystem whose exit message, if one is due, goes through, the call
    returns PIO_NOERR and removes exactly that iosystem: the id is unknown
    afterwards (PIOc_iosystem_is_active stores false, a second
    PIOc_free_iosystem ends with PIO_EBADID), the other iosystems, all
    decompositions (also those built on the freed iosystem), the next
    decomposition id, the default handler and the arrays stay.  A call that
    does not return PIO_NOERR leaves the library as it was. *)
Theorem free_iosystem_spec (E E' : Env) (st : pio_state) (iosysid : Z) :
  let r := PIOc_free_iosystem E st iosysid in
  (pio_get_iosystem_from_id st iosysid = None ->
   fails_with st None PIO_EBADID r.1 /\ r.2 = st)
  /\ (forall ios,
        pio_get_iosystem_from_id st iosysid = Some ios ->
        (async ios = false \/ union_comm ios = MPI_COMM_NULL
         \/ async_exchange E ios true = Next tt) ->
        r.1 = Returns PIO_NOERR
        /\ pio_get_iosystem_from_id r.2 iosysid = None
        /\ (forall other, other <> iosysid ->
              pio_get_iosystem_from_id r.2 other
              = pio_get_iosystem_from_id st other)
        /\ pio_iodesc_list r.2 = pio_iodesc_list st
        /\ pio_next_ioid r.2 = pio_next_ioid st
        /\ default_error_handler r.2 = default_error_handler st
        /\ mem r.2 = mem st
        /\ PIOc_iosystem_is_active r.2 iosysid true = (PIO_NOERR, Some false)
        /\ fails_with r.2 None PIO_EBADID (PIOc_free_iosystem E' r.2 iosysid).1)
  /\ (r.1 <> Returns PIO_NOERR -> r.2 = st).
Proof.
  intros r. subst r. split; [| split].
  - intros Hnone. unfold PIOc_free_iosystem. rewrite Hnone. cbn.
    split; [apply pio_err_fails_with | reflexivity].
  - intros ios Hios Hgo.
    assert (Hr : PIOc_free_iosystem E st iosysid
                 = (Returns PIO_NOERR,
                    set_iosystem_list (delete iosysid (pio_iosystem_list st))
                      st)).
    { unfold PIOc_free_iosystem, pio_num_iosystem,
        pio_delete_iosystem_from_list.
      rewrite Hios.
      assert (Hex : (if async ios && negb (MPI_Comm_is_null (union_comm ios))
                     then async_exchange E ios true else Next tt) = Next tt).
      { destruct Hgo as [-> | [-> | ->]]; [reflexivity | |].
        - cbn. now rewrite andb_false_r.
        - now destruct (_ && _). }
      rewrite Hex. cbn. unfold pio_get_iosystem_from_id in Hios.
      now rewrite Hios. }
    rewrite Hr. cbn [fst snd].
    assert (Hgone : pio_get_iosystem_from_id
                      (set_iosystem_list
                         (delete iosysid (pio_iosystem_list st)) st) iosysid
                    = None).
    { unfold pio_get_iosystem_from_id. cbn. apply lookup_delete_eq. }
    repeat split; try reflexivity; try exact Hgone.
    + intros other Hne. unfold pio_get_iosystem_from_id. cbn.
      apply lookup_delete_ne. congruence.
    + unfold PIOc_iosystem_is_active. now rewrite Hgone.
    + unfold PIOc_free_iosystem. rewrite Hgone. apply pio_err_fails_with.
  - unfold PIOc_free_iosystem, pio_num_iosystem,
      pio_delete_iosystem_from_list.
    repeat case_match; simplify_eq; cbn; intros Hne;
      first [reflexivity | congruence].
Qed.

Lemma free_iosystem_spec_witness :
  let st := demo_state (demo_ios PIO_RETURN_ERROR 1 false) [] in
  let r := PIOc_free_iosystem env_ok st 2048 in
  r.1 = Returns PIO_NOERR
  /\ pio_get_iosystem_from_id r.2 2048 = None
  /\ fails_with r.2 None PIO_EBADID (PIOc_free_iosystem env_ok r.2 2048).1.
Proof.
  intros st r.
  destruct (free_iosystem_spec env_ok env_ok st 2048) as (_ & Hok & _).
  destruct (Hok (demo_ios PIO_RETURN_ERROR 1 false) eq_refl
              (or_introl eq_refl))
    as (Hret & Hgone & _ & _ & _ & _ & _ & _ & Hagain).
  split; [exact Hret | split; [exact Hgone | exact Hagain]].
Defined.

(** X23.  Registering an iosystem with PIOc_Init_Intracomm under an id
    that was not in use, then freeing it with PIOc_free_iosystem, returns
    PIO_NOERR and gives back the library state from before the two
    calls. *)
Theorem Init_Intracomm_then_free (E E' : Env) (st : pio_state)
  (comm : MPI_Comm) (n_io stride base rearr : Z) (iosysidp : bool) (id : Z) :
  pio_get_iosystem_from_id st (new_iosysid E) = None ->
  let r := PIOc_Init_Intracomm E st comm n_io stride base rearr iosysidp in
  ii_iosysid r = Some id ->
  PIOc_free_iosystem E' (ii_state r) id = (Returns PIO_NOERR, st).
Proof.
  intros Hfresh r Hid. subst r.
  destruct (Init_Intracomm_layout _ _ _ _ _ _ _ _ _ Hid)
    as (ios & -> & -> & (Hsync & _) & _).
  unfold PIOc_free_iosystem, pio_num_iosystem, pio_delete_iosystem_from_list,
    pio_get_iosystem_from_id in *.
  cbn. rewrite lookup_insert_eq, Hsync. cbn.
  rewrite delete_insert_id by exact Hfresh. now destruct st.
Qed.

Lemma Init_Intracomm_then_free_witness :
  let r := PIOc_Init_Intracomm env_ok initial_state (MPI_Comm_handle 9)
             2 2 1 PIO_REARR_BOX true in
  PIOc_free_iosystem env_ok (ii_state r) 2048
  = (Returns PIO_NOERR, initial_state).
Proof.
  intros r.
  exact (Init_Intracomm_then_free env_ok env_ok initial_state
           (MPI_Comm_handle 9) 2 2 1 PIO_REARR_BOX true 2048 eq_refl
           eq_refl).
Defined.

(** ** Files: record numbers and the error handler *)

Lemma with_var_ok E L ft ncid id f :
  var_ready E ft ncid id ->
  exists r ft',
    record_of ft ncid id = Some r
    /\ with_var E L ft ncid id f = Some (Returns PIO_NOERR, ft')
    /\ record_of ft' ncid id = Some (f r)
    /\ lib ft' = lib ft
    /\ (forall ncid' id',
          (ncid', id') <> (ncid, id) ->
          record_of ft' ncid' id' = record_of ft ncid' id')
    /\ var_ready E ft' ncid id.
Proof.
  intros (file & ios & v & Hfile & Hios & Hex & Hv).
  exists (record v), (set_var ncid id (set_record (f (record v)) v) ft).
  unfold record_of, with_var. rewrite Hfile, Hios. cbn. rewrite Hv. cbn.
  unfold exchange_ok in Hex. rewrite Hex.
  split; [reflexivity | split; [reflexivity |]].
  rewrite lookup_alter_eq, Hfile. cbn. rewrite lookup_insert_eq. cbn.
  split; [reflexivity | split; [reflexivity | split]].
  - intros ncid' id' Hne.
    destruct (decide (ncid' = ncid)) as [-> | Hn].
    + rewrite lookup_alter_eq, Hfile. cbn.
      rewrite lookup_insert_ne by congruence. reflexivity.
    + rewrite lookup_alter_ne by congruence. reflexivity.
  - exists {| iosystem := iosystem file; pio_ncid := pio_ncid file;
              varlist := <[id := set_record (f (record v)) v]>
                           (varlist file) |},
      ios, (set_record (f (record v)) v).
    cbn. rewrite lookup_alter_eq, Hfile, lookup_insert_eq. auto.
Qed.

Lemma advance_frames_ok E L ft ncid id r (n : nat) :
  var_ready E ft ncid id -> record_of ft ncid id = Some r ->
  INT_MIN <= r -> r + Z.of_nat n <= INT_MAX ->
  exists ft',
    advance_frames E L ft ncid id n = Some (Returns PIO_NOERR, ft')
    /\ record_of ft' ncid id = Some (r + Z.of_nat n)
    /\ lib ft' = lib ft
    /\ forall ncid' id',
         (ncid', id') <> (ncid, id) ->
         record_of ft' ncid' id' = record_of ft ncid' id'.
Proof.
  revert ft r. induction n as [| n IH]; intros ft r Hready Hr Hmin Hmax.
  - exists ft. cbn. rewrite Z.add_0_r. auto.
  - destruct (with_var_ok E L ft ncid id (fun x => wrap_int (x + 1)) Hready)
      as (r0 & ft1 & Hr0 & Hcall & Hr1 & Hlib1 & Hother1 & Hready1).
    rewrite Hr in Hr0. injection Hr0 as <-.
    rewrite wrap_int_small in Hr1 by (unfold in_int; lia).
    destruct (IH ft1 (r + 1) Hready1 Hr1 ltac:(lia) ltac:(lia))
      as (ft2 & Hrun & Hr2 & Hlib2 & Hother2).
    exists ft2. cbn [advance_frames]. unfold PIOc_advanceframe.
    rewrite Hcall. cbn. rewrite Hrun, Hr2.
    split; [reflexivity | split; [f_equal; lia | split]].
    + congruence.
    + intros ncid' id' Hne. rewrite Hother2, Hother1 by exact Hne.
      reflexivity.
Qed.

(** X24.  Record numbers add up.  For a variable of an open file whose
    iosystem is registered (and, when it is async, whose exchange goes
    through), and for a frame and a number of steps whose sum is in the
    range of the int [record]: PIOc_setframe with [frame] followed by [n]
    calls of PIOc_advanceframe all return PIO_NOERR and leave the variable
    at record frame + n; the record numbers of all other variables and
    files and the library state are as before. *)
Theorem setframe_then_advance (E : Env) (L : lookup_codes) (ft : file_table)
  (ncid id frame : Z) (n : nat) :
  var_ready E ft ncid id ->
  INT_MIN <= frame -> frame + Z.of_nat n <= INT_MAX ->
  exists ft1 ft2,
    PIOc_setframe E L ft ncid id frame = Some (Returns PIO_NOERR, ft1)
    /\ advance_frames E L ft1 ncid id n = Some (Returns PIO_NOERR, ft2)
    /\ record_of ft2 ncid id = Some (frame + Z.of_nat n)
    /\ lib ft2 = lib ft
    /\ forall ncid' id',
         (ncid', id') <> (ncid, id) ->
         record_of ft2 ncid' id' = record_of ft ncid' id'.
Proof.
  intros Hready Hmin Hmax.
  destruct (with_var_ok E L ft ncid id (fun _ => frame) Hready)
    as (r0 & ft1 & _ & Hcall & Hr1 & Hlib1 & Hother1 & Hready1).
  destruct (advance_frames_ok E L ft1 ncid id frame n Hready1 Hr1 Hmin Hmax)
    as (ft2 & Hrun & Hr2 & Hlib2 & Hother2).
  exists ft1, ft2. unfold PIOc_setframe.
  repeat split; try assumption; [congruence |].
  intros ncid' id' Hne. rewrite Hother2, Hother1 by exact Hne. reflexivity.
Qed.

Lemma demo_files_ready handler : var_ready env_ok (demo_files handler) 10 0.
Proof.
  eexists _, _, _. repeat split; reflexivity.
Qed.

Lemma setframe_then_advance_witness :
  exists ft1 ft2,
    PIOc_setframe env_ok demo_codes (demo_files PIO_RETURN_ERROR) 10 0 7
    = Some (Returns PIO_NOERR, ft1)
    /\ advance_frames env_ok demo_codes ft1 10 0 3
       = Some (Returns PIO_NOERR, ft2)
    /\ record_of ft2 10 0 = Some 10
    /\ record_of ft2 11 0 = Some 5.
Proof.
  destruct (setframe_then_advance env_ok demo_codes
              (demo_files PIO_RETURN_ERROR) 10 0 7 3
              (demo_files_ready PIO_RETURN_ERROR)
              ltac:(discriminate) ltac:(discriminate))
    as (ft1 & ft2 & Hset & Hadv & Hrec & _ & Hother).
  exists ft1, ft2. repeat split; try assumption.
  rewrite Hother; [reflexivity | discriminate].
Defined.

Lemma File_is_Open_0 (ft : file_table) (ncid : Z) :
  PIOc_File_is_Open ft ncid = 0 <-> pio_file_list ft !! ncid = None.
Proof.
  unfold PIOc_File_is_Open.
  destruct (pio_file_list ft !! ncid); split; intros H;
    first [reflexivity | discriminate H].
Qed.

Lemma with_var_errors E L ft ncid id f :
  (pio_file_list ft !! ncid = None ->
   exists o,
     with_var E L ft ncid id f = Some (o, ft)
     /\ fails_with (lib ft) None (pio_get_file_miss L) o)
  /\ (forall file ios,
        pio_file_list ft !! ncid = Some file ->
        pio_get_iosystem_from_id (lib ft) (iosystem file) = Some ios ->
        varlist file !! id = None ->
        exists o,
          with_var E L ft ncid id f = Some (o, ft)
          /\ fails_with (lib ft) (Some ios) (get_var_desc_miss L) o)
  /\ (forall o ft',
        with_var E L ft ncid id f = Some (o, ft') ->
        o <> Returns PIO_NOERR -> ft' = ft).
Proof.
  unfold with_var. split; [| split].
  - intros ->. eexists. split; [reflexivity | apply pio_err_fails_with].
  - intros file ios -> -> ->. eexists.
    split; [reflexivity | apply pio_err_fails_with].
  - intros o ft'. repeat case_match; intros [= <- <-] Hne;
      first [reflexivity | congruence].
Qed.

(** X25.  The failures of PIOc_setframe and PIOc_advanceframe.  A file for
    which PIOc_File_is_Open answers 0 is reported with the code of
    pio_get_file through pio_err under the default handler; a variable that
    the open file does not have, with the code of get_var_desc under the
    handler of the file's iosystem; and whenever one of the two calls does
    not return PIO_NOERR, every record number and the library state are as
    before. *)
Theorem frame_errors (E : Env) (L : lookup_codes) (ft : file_table)
  (ncid id frame : Z) :
  (PIOc_File_is_Open ft ncid = 0 ->
   exists o1 o2,
     PIOc_setframe E L ft ncid id frame = Some (o1, ft)
     /\ PIOc_advanceframe E L ft ncid id = Some (o2, ft)
     /\ fails_with (lib ft) None (pio_get_file_miss L) o1
     /\ fails_with (lib ft) None (pio_get_file_miss L) o2)
  /\ (forall file ios,
        pio_file_list ft !! ncid = Some file ->
        pio_get_iosystem_from_id (lib ft) (iosystem file) = Some ios ->
        varlist file !! id = None ->
        exists o1 o2,
          PIOc_setframe E L ft ncid id frame = Some (o1, ft)
          /\ PIOc_advanceframe E L ft ncid id = Some (o2, ft)
          /\ fails_with (lib ft) (Some ios) (get_var_desc_miss L) o1
          /\ fails_with (lib ft) (Some ios) (get_var_desc_miss L) o2)
  /\ (forall o ft',
        (PIOc_setframe E L ft ncid id frame = Some (o, ft')
         \/ PIOc_advanceframe E L ft ncid id = Some (o, ft')) ->
        o <> Returns PIO_NOERR -> ft' = ft).
Proof.
  unfold PIOc_setframe, PIOc_advanceframe.
  destruct (with_var_errors E L ft ncid id (fun _ => frame))
    as (Hfile1 & Hvar1 & Hkeep1).
  destruct (with_var_errors E L ft ncid id (fun r => wrap_int (r + 1)))
    as (Hfile2 & Hvar2 & Hkeep2).
  split; [| split].
  - intros Hclosed. apply File_is_Open_0 in Hclosed as Hnone.
    destruct (Hfile1 Hnone) as (o1 & H1 & F1).
    destruct (Hfile2 Hnone) as (o2 & H2 & F2). exists o1, o2. auto.
  - intros file ios Hf Hi Hv.
    destruct (Hvar1 file ios Hf Hi Hv) as (o1 & H1 & F1).
    destruct (Hvar2 file ios Hf Hi Hv) as (o2 & H2 & F2).
    exists o1, o2. auto.
  - intros o ft' [H | H] Hne; eauto.
Qed.

Lemma frame_errors_witness :
  PIOc_setframe env_ok demo_codes (demo_files PIO_RETURN_ERROR) 12 0 7
  = Some (Aborts, demo_files PIO_RETURN_ERROR)
  /\ PIOc_advanceframe env_ok demo_codes (demo_files PIO_RETURN_ERROR) 10 1
     = Some (Returns PIO_EBADID, demo_files PIO_RETURN_ERROR).
Proof.
  destruct (frame_errors env_ok demo_codes (demo_files PIO_RETURN_ERROR)
              12 0 7) as (Hfile & _ & _).
  destruct (frame_errors env_ok demo_codes (demo_files PIO_RETURN_ERROR)
              10 1 7) as (_ & Hvar & _).
  destruct (Hfile eq_refl) as (o1 & _ & H1 & _ & F1 & _).
  destruct (Hvar _ _ eq_refl eq_refl eq_refl) as (_ & o2 & _ & H2 & _ & F2).
  split.
  - rewrite H1. do 2 f_equal.
    destruct F1 as [-> | [_ ->]]; [| reflexivity].
    vm_compute in H1. congruence.
  - rewrite H2. do 2 f_equal.
    apply (fails_with_returns _ _ _ _ F2). discriminate.
Defined.

(** X26.  PIOc_Set_File_Error_Handling changes the handler of the file's
    iosystem: for an open file and one of the three methods it returns the
    handler that governed the file, and afterwards [method] governs every
    open file of the same iosystem, while the files of other iosystems,
    the record numbers and the default handler keep what they had.  A file
    for which PIOc_File_is_Open answers 0, or another method, aborts the
    process. *)
Theorem Set_File_Error_Handling_shared (ft : file_table)
  (ncid method : Z) :
  (PIOc_File_is_Open ft ncid = 0 \/ valid_error_handler method = false ->
   PIOc_Set_File_Error_Handling ft ncid method = Some (Aborts, ft))
  /\ (forall old,
        file_handler ft ncid = Some old ->
        valid_error_handler method = true ->
        exists ft',
          PIOc_Set_File_Error_Handling ft ncid method
          = Some (Returns old, ft')
          /\ pio_file_list ft' = pio_file_list ft
          /\ default_error_handler (lib ft') = default_error_handler (lib ft)
          /\ forall ncid2 f f2,
               pio_file_list ft !! ncid = Some f ->
               pio_file_list ft !! ncid2 = Some f2 ->
               file_handler ft' ncid2
               = (if decide (iosystem f2 = iosystem f) then Some method
                  else file_handler ft ncid2)).
Proof.
  unfold PIOc_Set_File_Error_Handling, file_handler. split.
  - intros Hbad. rewrite File_is_Open_0 in Hbad.
    destruct (pio_file_list ft !! ncid) as [f |] eqn:Hf; [| reflexivity].
    destruct Hbad as [Hbad | Hbad]; [discriminate Hbad |].
    now rewrite Hbad.
  - intros old Hold Hvalid.
    destruct (pio_file_list ft !! ncid) as [f |] eqn:Hf; [| discriminate].
    cbn in Hold. rewrite Hvalid. cbn.
    destruct (pio_get_iosystem_from_id (lib ft) (iosystem f))
      as [ios |] eqn:Hios; [| discriminate].
    injection Hold as <-.
    eexists. split; [reflexivity |]. cbn.
    split; [reflexivity | split; [reflexivity |]].
    intros ncid2 f' f2 [= <-] Hf2. rewrite Hf2. cbn.
    unfold pio_get_iosystem_from_id. cbn.
    destruct (decide (iosystem f2 = iosystem f)) as [-> | Hne].
    + now rewrite lookup_insert_eq.
    + rewrite lookup_insert_ne by congruence. reflexivity.
Qed.

Lemma Set_File_Error_Handling_shared_witness :
  exists ft',
    PIOc_Set_File_Error_Handling (demo_files PIO_RETURN_ERROR) 10
      PIO_BCAST_ERROR = Some (Returns PIO_RETURN_ERROR, ft')
    /\ file_handler ft' 11 = Some PIO_BCAST_ERROR
    /\ PIOc_Set_File_Error_Handling (demo_files PIO_RETURN_ERROR) 12
         PIO_BCAST_ERROR = Some (Aborts, demo_files PIO_RETURN_ERROR).
Proof.
  destruct (Set_File_Error_Handling_shared (demo_files PIO_RETURN_ERROR) 10
              PIO_BCAST_ERROR) as [_ Hok].
  destruct (Hok PIO_RETURN_ERROR eq_refl eq_refl)
    as (ft' & Hcall & _ & _ & Hshared).
  destruct (Set_File_Error_Handling_shared (demo_files PIO_RETURN_ERROR) 12
              PIO_BCAST_ERROR) as [Hbad _].
  exists ft'. split; [exact Hcall | split].
  - rewrite (Hshared 11 _ _ eq_refl eq_refl). reflexivity.
  - apply Hbad. left. reflexivity.
Defined.

(** ** An iosysid that is not registered *)




(** ** PIOc_init_decomp in terms of the 0-based map *)




(** ** PIOc_set_blocksize *)

(** X29.  The block size after any sequence of PIOc_set_blocksize calls: a
    positive block size stays positive, the value is the last positive
    argument of the sequence, or the old value when there was none, and
    every call returns PIO_NOERR, also for a value that is ignored. *)
Theorem set_blocksizes_spec (blocksize : Z) (news : list Z) :
  0 < blocksize ->
  0 < set_blocksizes blocksize news
  /\ set_blocksizes blocksize news
     = default blocksize (last (filter (fun new => 0 < new) news))
  /\ Forall (fun new => (PIOc_set_blocksize blocksize new).1 = PIO_NOERR)
       news.
Proof.
  intros Hpos. unfold set_blocksizes.
  split; [| split].
  - revert blocksize Hpos. induction news as [| new news IH];
      intros blocksize Hpos; cbn; [exact Hpos |].
    apply IH. destruct (Z.ltb_spec 0 new); assumption.
  - induction news as [| new news IH] using rev_ind; [reflexivity |].
    rewrite foldl_app, filter_app. cbn [foldl PIOc_set_blocksize snd].
    destruct (Z.ltb_spec 0 new) as [Hn | Hn].
    + rewrite filter_cons_True, filter_nil by exact Hn.
      now rewrite last_snoc.
    + rewrite filter_cons_False, filter_nil, app_nil_r by lia.
      exact IH.
  - apply Forall_forall. intros new _. reflexivity.
Qed.

Lemma set_blocksizes_spec_witness :
  0 < set_blocksizes 4 [8; 0; 16; -2]
  /\ set_blocksizes 4 [8; 0; 16; -2] = 16.
Proof.
  destruct (set_blocksizes_spec 4 [8; 0; 16; -2] ltac:(lia))
    as (Hpos & Hval & _).
  split; [exact Hpos | rewrite Hval; reflexivity].
Defined.

(** ** The process lists of PIOc_init_async_from_F90 *)

Lemma maxprocs_from (acc : Z) (l : list Z) :
  acc <= foldl (fun maxprocs p => if p >? maxprocs then p else maxprocs) acc l
  /\ Forall
       (fun p =>
          p <= foldl (fun maxprocs p => if p >? maxprocs then p else maxprocs)
                 acc l) l.
Proof.
  revert acc. induction l as [| p l IH]; intros acc; cbn;
    [split; [lia | constructor] |].
  destruct (IH (if p >? acc then p else acc)) as [H1 H2].
  destruct (Z.gtb_spec p acc);
    (split; [lia | constructor; [lia | assumption]]).
Qed.

Lemma lookup_blocks (m : nat) (blocks : list (list Z)) (i j : nat)
  (row : list Z) :
  Forall (fun b => length b = m) blocks ->
  blocks !! i = Some row -> (j < m)%nat ->
  concat blocks !! (j + i * m)%nat = row !! j.
Proof.
  revert i. induction blocks as [| b blocks IH]; intros i Hall Hi Hj;
    [discriminate |].
  apply Forall_cons in Hall as [Hb Hall].
  destruct i as [| i]; cbn in Hi.
  - injection Hi as <-. cbn. rewrite Nat.add_0_r. apply lookup_app_l. lia.
  - cbn [concat]. rewrite lookup_app_r by lia.
    replace (j + S i * m - length b)%nat with (j + i * m)%nat by lia.
    now apply IH.
Qed.

(** X30.  The Fortran interface recovers the process lists.  When
    [flat_proc_list] holds one row per component, every row filled up to
    the length of the longest, the arrays that PIOc_init_async_from_F90
    builds for PIOc_init_async are the rows again, each with its own
    number of processes; and the row length it computes is at least every
    component's number of processes. *)
Theorem proc_list_round_trip (proc_list : list (list Z)) :
  let counts := (fun row => Z.of_nat (length row)) <$> proc_list in
  Forall (fun p => p <= maxprocs_per_component counts) counts
  /\ proc_list_of_flat counts (flat_of_proc_list proc_list) = proc_list.
Proof.
  intros counts.
  destruct (maxprocs_from 0 counts) as [Hnonneg Hmax].
  fold (maxprocs_per_component counts) in Hnonneg, Hmax.
  split; [exact Hmax |].
  unfold proc_list_of_flat, flat_of_proc_list. fold counts.
  set (m := maxprocs_per_component counts) in *.
  assert (Hblocks : Forall (fun b => length b = Z.to_nat m)
            ((fun row => row ++ replicate (Z.to_nat m - length row) 0)
               <$> proc_list)).
  { apply Forall_fmap, Forall_forall. intros row Hrow. cbn.
    rewrite length_app, length_replicate.
    rewrite Forall_forall in Hmax.
    assert (Hle : Z.of_nat (length row) <= m).
    { apply Hmax. subst counts.
      apply (list_elem_of_fmap_2 (fun row => Z.of_nat (length row))).
      exact Hrow. }
    lia. }
  apply list_eq. intros i. subst counts.
  rewrite list_lookup_imap, list_lookup_fmap.
  destruct (proc_list !! i) as [row |] eqn:Hrow; cbn; [| reflexivity].
  f_equal. rewrite Nat2Z.id. apply list_eq. intros j.
  rewrite list_lookup_fmap.
  destruct (decide (j < length row)%nat) as [Hj | Hj].
  - rewrite lookup_seq_lt by exact Hj. cbn.
    destruct (lookup_lt_is_Some_2 row j Hj) as [x Hx]. rewrite Hx.
    f_equal. apply list_lookup_total_correct.
    replace (Z.to_nat (Z.of_nat j + Z.of_nat i * m))
      with (j + i * Z.to_nat m)%nat by nia.
    assert (Hle : (length row <= Z.to_nat m)%nat).
    { rewrite Forall_forall in Hblocks.
      specialize (Hblocks (row ++ replicate (Z.to_nat m - length row) 0)).
      rewrite <- Hblocks.
      - rewrite length_app. lia.
      - apply (list_elem_of_fmap_2
                 (fun row => row ++ replicate (Z.to_nat m - length row) 0)).
        apply list_elem_of_lookup. eauto. }
    rewrite (lookup_blocks (Z.to_nat m) _ i j
               (row ++ replicate (Z.to_nat m - length row) 0) Hblocks).
    + rewrite lookup_app_l by exact Hj. exact Hx.
    + now rewrite list_lookup_fmap, Hrow.
    + lia.
  - rewrite lookup_seq_ge by lia. cbn. symmetry.
    apply lookup_ge_None_2. lia.
Qed.

Lemma proc_list_round_trip_witness :
  flat_of_proc_list [[4; 5; 6]; [7]; [8; 9]] = [4; 5; 6; 7; 0; 0; 8; 9; 0]
  /\ proc_list_of_flat [3; 1; 2] [4; 5; 6; 7; 0; 0; 8; 9; 0]
     = [[4; 5; 6]; [7]; [8; 9]].
Proof.
  split; [reflexivity |].
  exact (proj2 (proc_list_round_trip [[4; 5; 6]; [7]; [8; 9]])).
Defined.
